(** * AgentG: the remote-debugging session manager of [server.js]

    A shallow embedding of the CDP session core of [server.js]: target
    discovery ([discoverCDP], [discoverAllTargets]), the RPC transport
    ([connectCDP]'s [call]), the execution-context registry, the status
    query ([getCDPStatus]), the retry loop ([initCDP]), the capture probe
    ([captureSnapshot]), the change-detection polling loop
    ([startPolling], [hashString]) and the [POST /instance] switch
    handler.

    Conventions.  JavaScript numbers that are ids or counters are [Z];
    a string is the sequence of its code units, here [string]; an
    optional property of an object is an [option].  Anything the outside
    world decides (what an HTTP probe answers, in which order promises
    resolve, what a call into the page returns, whether a socket
    operation throws) is an explicit argument of the embedded function.
    Code with effects runs in a small state, output and exception monad
    over the module-level variables.  Part I holds the definitions,
    Part II the proofs. *)

From Stdlib Require Import ZArith String Ascii List Lia Bool.
From stdpp Require Import base option list gmap sets strings.

Open Scope string_scope.
Open Scope list_scope.
Open Scope Z_scope.

(* ================================================================== *)
(** * Part I: the embedding *)
(* ================================================================== *)

(** ** JavaScript primitives *)

Module JS.

(** [String.prototype.includes]. *)
Definition includes (s sub : string) : bool :=
  match String.index 0 sub s with
  | Some _ => true
  | None => false
  end.

(** Truthiness of a value that is a string or [undefined]: only the
    non-empty string is truthy. *)
Definition truthy (v : option string) : bool :=
  match v with
  | Some (String _ _) => true
  | _ => false
  end.

(** A thrown value, as far as the server looks at it: its [message]
    property, which may be missing ([err.message?.includes]). *)
Record exn := Exn { message : option string }.

Definition Error (msg : string) : exn := Exn (Some msg).

(** How a piece of JavaScript ends: normally with a value, or by a
    throw. *)
Inductive completion (A : Type) : Type :=
| Normal (a : A)
| Abrupt (e : exn).
Arguments Normal {A} a.
Arguments Abrupt {A} e.

(** [ToInt32]: what [x & x], [x << n] and friends reduce a number to. *)
Definition toInt32 (z : Z) : Z := (z + 2^31) mod 2^32 - 2^31.

(** [Promise.all] over already started tasks.  Task [i] ends with value
    [vals !! i]; [order] lists the task indices in the order in which
    they happen to resolve.  Each resolution stores the value in the
    slot of its own index; the combined promise resolves, with the
    slots read in index order, once no slot is empty, and stays pending
    ([None]) otherwise. *)
Definition resolve_slot {A} (vals : list A) (slots : list (option A)) (i : nat)
    : list (option A) :=
  match vals !! i with
  | Some v => <[i := Some v]> slots
  | None => slots
  end.

Definition promise_slots {A} (vals : list A) (order : list nat) : list (option A) :=
  foldl (resolve_slot vals) (replicate (length vals) None) order.

Definition promise_all {A} (vals : list A) (order : list nat) : option (list A) :=
  mapM id (promise_slots vals order).

(** Every task has resolved at some point of [order]. *)
Definition all_resolved (n : nat) (order : list nat) : Prop :=
  Forall (λ i, i ∈ order) (seq 0 n).

#[export] Instance all_resolved_dec n order : Decision (all_resolved n order).
Proof. unfold all_resolved. apply _. Defined.

End JS.

(** ** Target discovery: [discoverCDP] and [discoverAllTargets] *)

Module Discovery.
Import JS.

Definition PORTS : list Z := [9000; 9001; 9222; 9002; 9003].

(** One entry of an endpoint's [/json/list] answer.  The fields the
    code guards ([t.url?.], [t.title &&], [t.webSocketDebuggerUrl])
    are optional. *)
Record target := Target {
  t_id : string;
  t_url : option string;
  t_title : option string;
  t_type : option string;
  t_webSocketDebuggerUrl : option string
}.

(** [getJson] on [http://127.0.0.1:port/json/list]: the parsed list, or
    [None] when the request is refused, times out after 2 s or does not
    parse (the promise rejects). *)
Definition probe := Z → option (list target).

(** The predicate both [checkPort]s start from:
    [(t.url?.includes('workbench.html') ||
      (t.title && t.title.includes('Antigravity'))) && t.type !== 'worker'] *)
Definition isWorkbench (t : target) : bool :=
  (from_option (λ u, includes u "workbench.html") false (t_url t)
   || from_option (λ ti, includes ti "Antigravity") false (t_title t))
  && negb (bool_decide (t_type t = Some "worker")).

(** *** [discoverCDP] *)

Record candidate := Candidate {
  c_port : Z;
  c_url : string;
  c_title : option string;
  c_id : string
}.

Record cdpInfo := CdpInfo { port : Z; url : string; id : string }.

(** [checkPort] of [discoverCDP]: the first workbench page of the list,
    kept only if it has a debugger URL; [null] otherwise and on any
    error. *)
Definition checkPort (getJson : probe) (p : Z) : option candidate :=
  match getJson p with
  | Some list =>
      match find isWorkbench list with
      | Some found =>
          match t_webSocketDebuggerUrl found with
          | Some (String a u) =>
              Some (Candidate p (String a u) (t_title found) (t_id found))
          | _ => None
          end
      | None => None
      end
  | None => None
  end.

Definition isMatch (r : option candidate) : bool :=
  match r with Some _ => true | None => false end.

Definition notFound : exn :=
  Error "CDP not found. Ensure Antigravity is running with remote debugging enabled.".

(** What follows [await Promise.all(...)]: [results.find(r => r !== null)]. *)
Definition selectFirst (results : list (option candidate)) : completion cdpInfo :=
  match find isMatch results with
  | Some (Some m) => Normal (CdpInfo (c_port m) (c_url m) (c_id m))
  | _ => Abrupt notFound
  end.

(** [discoverCDP] over an arbitrary ordered port list; [None] while
    [Promise.all] is still pending. *)
Definition discoverOver (ports : list Z) (getJson : probe) (order : list nat)
    : option (completion cdpInfo) :=
  selectFirst <$> promise_all (checkPort getJson <$> ports) order.

Definition discoverCDP : probe → list nat → option (completion cdpInfo) :=
  discoverOver PORTS.

(** *** [discoverAllTargets] *)

Record instance := Instance {
  i_id : string;
  i_port : Z;
  i_url : string;
  i_title : string;
  i_pageUrl : option string
}.

(** [.filter(...)] of [discoverAllTargets]' [checkPort]: a workbench
    page with a truthy debugger URL. *)
Definition isListed (t : target) : bool :=
  isWorkbench t && truthy (t_webSocketDebuggerUrl t).

(** [.map(...)]: [title: t.title || `Target ${t.id.substring(0, 8)}`]. *)
Definition describe (p : Z) (t : target) : instance :=
  Instance (t_id t) p
    (default EmptyString (t_webSocketDebuggerUrl t))
    (if truthy (t_title t) then default EmptyString (t_title t)
     else "Target " +:+ substring 0 8 (t_id t))
    (t_url t).

Definition checkPortAll (getJson : probe) (p : Z) : list instance :=
  match getJson p with
  | Some list => describe p <$> filter (λ t, isListed t = true) list
  | None => []
  end.

(** The two nested [for] loops over [results], threading [allTargets]
    and the [seen] set of debugger URLs. *)
Definition visit (acc : list instance * gset string) (t : instance)
    : list instance * gset string :=
  if decide (i_url t ∈ acc.2) then acc
  else (acc.1 ++ [t], {[ i_url t ]} ∪ acc.2).

Definition collect (results : list (list instance)) : list instance :=
  (foldl (λ acc portTargets, foldl visit acc portTargets) ([], ∅) results).1.

Definition discoverAllOver (ports : list Z) (getJson : probe) (order : list nat)
    : option (list instance) :=
  collect <$> promise_all (checkPortAll getJson <$> ports) order.

Definition discoverAllTargets : probe → list nat → option (list instance) :=
  discoverAllOver PORTS.

End Discovery.

(** ** Frames of the remote-debugging protocol *)

Module Wire.

(** Raw JSON text of a field the server passes on without looking
    inside. *)
Definition payload := string.

(** An execution context as announced by the target. *)
Record context := Context {
  ctx_id : Z;
  ctx_name : string;
  ctx_origin : string
}.

(** The [params] of an inbound frame, with the two properties the
    registry listener reads; a missing property is [None]. *)
Record params := Params {
  p_context : option context;
  p_executionContextId : option Z
}.

(** A parsed inbound frame ([JSON.parse(msg)]), with the properties the
    two ['message'] listeners of [connectCDP] read.  A missing property
    is [None]; [m_error] is [Some] for a truthy [data.error]. *)
Record frame := Frame {
  m_id : option Z;
  m_method : option string;
  m_params : option params;
  m_result : option payload;
  m_error : option payload
}.

(** An outbound frame [{ id, method, params }]. *)
Record request := Request {
  r_id : Z;
  r_method : string;
  r_params : payload
}.

End Wire.

(** ** Execution-context registry: the second ['message'] listener of
    [connectCDP] *)

Module Registry.
Import Wire.

(** An element of the closure variable [contexts]: a context, or
    [undefined], which the listener pushes when a created-frame has
    [params] without [context] and the list is empty. *)
Definition entry := option context.

(** [contexts.find(c => c.id === ctx.id)]: whether an element is found.
    The callback reads [c.id] and then [ctx.id]; it throws ([None]) at
    the first element when that element or [ctx] is [undefined].  On the
    empty list it is never called. *)
Fixpoint lookFor (ctx : entry) (contexts : list entry) : option bool :=
  match contexts with
  | [] => Some false
  | c :: rest =>
      match c, ctx with
      | Some c', Some x =>
          if bool_decide (ctx_id c' = ctx_id x) then Some true else lookFor ctx rest
      | _, _ => None
      end
  end.

(** [contexts.filter(c => c.id !== id)]; it throws ([None]) at an
    element that is [undefined]. *)
Fixpoint without (id : option Z) (contexts : list entry) : option (list entry) :=
  match contexts with
  | [] => Some []
  | None :: _ => None
  | Some c :: rest =>
      match without id rest with
      | Some rest' =>
          Some (if decide (Some (ctx_id c) ≠ id) then Some c :: rest' else rest')
      | None => None
      end
  end.

(** One run of the listener on [contexts].  Whatever throws inside its
    [try] (reading [data.params.context] without [params], the callbacks
    above) leaves [contexts] as it was. *)
Definition onMessage (contexts : list entry) (data : frame) : list entry :=
  if decide (m_method data = Some "Runtime.executionContextCreated") then
    match m_params data with
    | Some p =>
        match lookFor (p_context p) contexts with
        | Some false => contexts ++ [p_context p]
        | _ => contexts
        end
    | None => contexts
    end
  else if decide (m_method data = Some "Runtime.executionContextDestroyed") then
    match m_params data with
    | Some p => default contexts (without (p_executionContextId p) contexts)
    | None => contexts
    end
  else if decide (m_method data = Some "Runtime.executionContextsCleared") then
    []
  else contexts.

(** [let contexts = []] followed by the frames in receipt order. *)
Definition replay (frames : list frame) : list entry :=
  foldl onMessage [] frames.

(** A frame as the protocol defines it: the [params] of a created-frame
    hold the [context]. *)
Definition wellFormed (data : frame) : bool :=
  match m_method data, m_params data with
  | Some method, Some p =>
      negb (String.eqb method "Runtime.executionContextCreated")
      || bool_decide (is_Some (p_context p))
  | _, _ => true
  end.

(** *** The registry as the specification words it

    Typed events and the three rules over a set of contexts keyed by
    id.  These definitions follow the specification, not the code;
    Part II compares them with [onMessage]. *)

Inductive event :=
| Created (c : context)
| Destroyed (i : Z)
| Cleared
| Other.

Definition classify (data : frame) : event :=
  if decide (m_method data = Some "Runtime.executionContextCreated") then
    match m_params data with
    | Some (Params (Some c) _) => Created c
    | _ => Other
    end
  else if decide (m_method data = Some "Runtime.executionContextDestroyed") then
    match m_params data with
    | Some (Params _ (Some i)) => Destroyed i
    | _ => Other
    end
  else if decide (m_method data = Some "Runtime.executionContextsCleared") then
    Cleared
  else Other.

Definition spec_rule (s : gmap Z context) (e : event) : gmap Z context :=
  match e with
  | Cleared => ∅
  | Destroyed i => delete i s
  | Created c =>
      match s !! ctx_id c with
      | Some _ => s
      | None => <[ctx_id c := c]> s
      end
  | Other => s
  end.

Definition spec_replay (events : list event) : gmap Z context :=
  foldl spec_rule ∅ events.

(** The set a context list stands for. *)
Definition as_set (contexts : list context) : gmap Z context :=
  list_to_map ((λ c, (ctx_id c, c)) <$> contexts).

End Registry.

(** ** RPC transport: [call] inside [connectCDP] *)

Module Transport.
Import JS Wire.

(** How the promise returned by [call] can settle. *)
Inductive settlement :=
| Resolved (result : option payload)      (* resolve(data.result) *)
| RpcError (error : payload)              (* reject(data.error) *)
| CallTimeout (method : string)           (* reject(new Error(`CDP call timeout: ${method}`)) *)
| SendThrew (e : exn).                    (* ws.send threw inside the executor *)

Inductive promise :=
| Pending
| Settled (s : settlement).

(** The state the closures of [connectCDP] share for the calls of one
    socket.  The ['message'] handlers and the timers are owned by the
    call whose id they carry; [settlements] records every change of a
    promise from pending to settled, oldest first. *)
Record transport := Transport {
  idCounter : Z;
  listeners : list Z;
  timers : gmap Z string;
  promises : gmap Z promise;
  outbox : list request;
  settlements : list (Z * settlement)
}.

(** State at [let idCounter = 1]. *)
Definition fresh : transport := Transport 1 [] ∅ ∅ [] [].

(** [resolve]/[reject] of the promise of call [i]: only a pending
    promise changes. *)
Definition settle (i : Z) (s : settlement) (t : transport) : transport :=
  match promises t !! i with
  | Some Pending =>
      Transport (idCounter t) (listeners t) (timers t)
        (<[i := Settled s]> (promises t)) (outbox t)
        (settlements t ++ [(i, s)])
  | _ => t
  end.

(** [clearTimeout(timeoutId)] of call [i]. *)
Definition clearTimeout (i : Z) (t : transport) : transport :=
  Transport (idCounter t) (listeners t) (delete i (timers t))
    (promises t) (outbox t) (settlements t).

(** [ws.off('message', handler)] of call [i]. *)
Definition off (i : Z) (t : transport) : transport :=
  Transport (idCounter t) (filter (λ j, j ≠ i) (listeners t)) (timers t)
    (promises t) (outbox t) (settlements t).

(** [handler] of call [i] run on one frame. *)
Definition handler (i : Z) (data : frame) (t : transport) : transport :=
  if decide (m_id data = Some i) then
    let t1 := off i (clearTimeout i t) in
    match m_error data with
    | Some e => settle i (RpcError e) t1
    | None => settle i (Resolved (m_result data)) t1
    end
  else t.

(** The socket emits ['message']: every handler registered when the
    emit starts runs, in registration order. *)
Definition emit (data : frame) (t : transport) : transport :=
  foldl (λ t' i, handler i data t') t (listeners t).

(** The timer of call [i] fires; a cleared or already fired timer does
    not. *)
Definition timeout (i : Z) (t : transport) : transport :=
  match timers t !! i with
  | Some method => settle i (CallTimeout method) (off i (clearTimeout i t))
  | None => t
  end.

(** [call(method, params)]: the executor of the new promise.
    [sendThrows] is what [ws.send] does. *)
Definition call (method : string) (params : payload) (sendThrows : option exn)
    (t : transport) : Z * transport :=
  let i := idCounter t in
  let t1 :=
    Transport (i + 1) (listeners t ++ [i]) (<[i := method]> (timers t))
      (<[i := Pending]> (promises t)) (outbox t) (settlements t) in
  match sendThrows with
  | None =>
      (i, Transport (idCounter t1) (listeners t1) (timers t1) (promises t1)
            (outbox t1 ++ [Request i method params]) (settlements t1))
  | Some e => (i, settle i (SendThrew e) t1)
  end.

(** What can happen to a transport. *)
Inductive event :=
| Call (method : string) (params : payload) (sendThrows : option exn)
| Recv (data : frame)
| Fire (i : Z).

Definition step (t : transport) (ev : event) : transport :=
  match ev with
  | Call method params sendThrows => (call method params sendThrows t).2
  | Recv data => emit data t
  | Fire i => timeout i t
  end.

Definition run (t : transport) (evs : list event) : transport :=
  foldl step t evs.

(** The events that can settle call [i]: a frame carrying its id, or
    its timer. *)
Definition concerns (i : Z) (ev : event) : bool :=
  match ev with
  | Recv data => bool_decide (m_id data = Some i)
  | Fire j => bool_decide (j = i)
  | Call _ _ _ => false
  end.

(** What such an event settles the call with. *)
Definition verdict (method : string) (ev : event) : settlement :=
  match ev with
  | Recv data =>
      match m_error data with
      | Some e => RpcError e
      | None => Resolved (m_result data)
      end
  | _ => CallTimeout method
  end.

(** The settlements of call [i] in the log. *)
Definition settlements_of (i : Z) (t : transport) : list settlement :=
  snd <$> filter (λ p, p.1 = i) (settlements t).

(** All that the transport holds about call [i]: its promise, whether
    its handler is registered, its armed timer, its settlements. *)
Definition view (i : Z) (t : transport)
    : option promise * bool * option string * list settlement :=
  (promises t !! i, bool_decide (i ∈ listeners t), timers t !! i, settlements_of i t).

(** Ids are handed out by [idCounter++], so whatever the transport
    holds carries an id below the counter, and no call has two
    handlers. *)
Definition wf (t : transport) : Prop :=
  NoDup (listeners t) ∧
  (∀ j, j ∈ listeners t → j < idCounter t) ∧
  (∀ j, is_Some (timers t !! j) → j < idCounter t) ∧
  (∀ j, is_Some (promises t !! j) → j < idCounter t) ∧
  (∀ j s, (j, s) ∈ settlements t → j < idCounter t).

End Transport.

(** ** The server's module-level state and the code that runs on it *)

Module Server.
Import JS Wire.

(** What [connectCDP] returns: [{ ws, call, getContexts }].  [ws] names
    the socket; [contexts] is the current value of the closure variable
    behind [getContexts]. *)
Record connection := Connection {
  ws : nat;
  contexts : list context
}.

(** What the capture probe evaluates to inside the page. *)
Record snapshot := Snapshot {
  html : option string;
  css : option string;
  backgroundColor : option string;
  color : option string;
  fontFamily : option string;
  error : option string
}.

(** The [let] variables at module level. *)
Record globals := Globals {
  cdpConnection : option connection;
  lastSnapshot : option snapshot;
  lastSnapshotHash : option string;
  discoveredInstances : list Discovery.instance;
  activeTargetId : option string;
  cdpRetryCount : Z;
  snapshotFailCount : Z
}.

Definition boot : globals := Globals None None None [] None 0 0.

Definition MAX_CDP_RETRIES : Z := 60.
Definition MAX_SNAPSHOT_FAILS : Z := 5.

(** *** Effects *)

(** The frame pushed to browser clients:
    [{ type: 'snapshot_update', timestamp }]. *)
Record notification := Notification {
  type : string;
  timestamp : string
}.

Inductive logline :=
| NoConnection            (* 'No CDP connection, attempting reconnect...' *)
| Discovering
| Connecting
| Connected (n : nat)
| NotReady (attempt : Z)
| GaveUp                  (* 'Failed to connect to CDP after maximum retries' *)
| SnapshotNull (fails : Z)
| SnapshotError (err : string) (fails : Z)
| SnapshotUpdated (hash : string)
| TooManyFailures         (* 'Too many snapshot failures, reconnecting CDP...' *)
| PollError (msg : option string)
| SocketDisconnected      (* 'WebSocket disconnected, will reconnect...' *)
| Switching (target : string)
| SwitchedTo (target : string)
| SwitchError.

Inductive effect :=
| WsOpen (url : string)                        (* new WebSocket(url) *)
| WsClose (ws : nat)                           (* ws.close() *)
| ClientSend (client : nat) (msg : notification)
| Sleep (ms : Z)
| Console (l : logline).

(** *** A state, output and exception monad for the server's code *)

Definition M (A : Type) : Type := globals → completion A * globals * list effect.

Definition ret {A} (a : A) : M A := λ g, (Normal a, g, []).

Definition bind {A B} (m : M A) (k : A → M B) : M B := λ g,
  match m g with
  | (Normal a, g1, w1) =>
      match k a g1 with
      | (r, g2, w2) => (r, g2, w1 ++ w2)
      end
  | (Abrupt e, g1, w1) => (Abrupt e, g1, w1)
  end.

#[export] Instance M_ret : MRet M := @ret.
#[export] Instance M_bind : MBind M := λ A B k m, bind m k.

Definition throw {A} (e : exn) : M A := λ g, (Abrupt e, g, []).

(** [try { m } catch (err) { h err }]: what [m] changed before it threw
    stays changed. *)
Definition try_catch {A} (m : M A) (h : exn → M A) : M A := λ g,
  match m g with
  | (Abrupt e, g1, w1) =>
      match h e g1 with
      | (r, g2, w2) => (r, g2, w1 ++ w2)
      end
  | r => r
  end.

Definition get : M globals := λ g, (Normal g, g, []).
Definition modify (f : globals → globals) : M unit := λ g, (Normal tt, f g, []).
Definition emit (e : effect) : M unit := λ g, (Normal tt, g, [e]).
Definition log (l : logline) : M unit := emit (Console l).

(** An awaited promise whose outcome the environment decides. *)
Definition await {A} (c : completion A) : M A :=
  match c with
  | Normal a => ret a
  | Abrupt e => throw e
  end.

(** Assignments to the module-level variables. *)
Definition set_cdpConnection (v : option connection) (g : globals) : globals :=
  Globals v (lastSnapshot g) (lastSnapshotHash g) (discoveredInstances g)
    (activeTargetId g) (cdpRetryCount g) (snapshotFailCount g).
Definition set_lastSnapshot (v : option snapshot) (g : globals) : globals :=
  Globals (cdpConnection g) v (lastSnapshotHash g) (discoveredInstances g)
    (activeTargetId g) (cdpRetryCount g) (snapshotFailCount g).
Definition set_lastSnapshotHash (v : option string) (g : globals) : globals :=
  Globals (cdpConnection g) (lastSnapshot g) v (discoveredInstances g)
    (activeTargetId g) (cdpRetryCount g) (snapshotFailCount g).
Definition set_discoveredInstances (v : list Discovery.instance) (g : globals) : globals :=
  Globals (cdpConnection g) (lastSnapshot g) (lastSnapshotHash g) v
    (activeTargetId g) (cdpRetryCount g) (snapshotFailCount g).
Definition set_activeTargetId (v : option string) (g : globals) : globals :=
  Globals (cdpConnection g) (lastSnapshot g) (lastSnapshotHash g)
    (discoveredInstances g) v (cdpRetryCount g) (snapshotFailCount g).
Definition set_cdpRetryCount (v : Z) (g : globals) : globals :=
  Globals (cdpConnection g) (lastSnapshot g) (lastSnapshotHash g)
    (discoveredInstances g) (activeTargetId g) v (snapshotFailCount g).
Definition set_snapshotFailCount (v : Z) (g : globals) : globals :=
  Globals (cdpConnection g) (lastSnapshot g) (lastSnapshotHash g)
    (discoveredInstances g) (activeTargetId g) (cdpRetryCount g) v.

(** *** [getCDPStatus] *)

Record status := Status {
  connected : bool;
  contextCount : Z;
  retryCount : Z
}.

(** [cdpConnection?.getContexts().length || 0]: the optional chain
    yields [undefined] without a connection, and [||] turns both
    [undefined] and [0] into [0]. *)
Definition getCDPStatus : M status :=
  g ← get;
  let count :=
    match cdpConnection g with
    | Some cdp => Some (Z.of_nat (length (contexts cdp)))
    | None => None
    end in
  ret (Status (bool_decide (is_Some (cdpConnection g)))
         (match count with
          | Some n => if n =? 0 then 0 else n
          | None => 0
          end)
         (cdpRetryCount g)).

(** *** [hashString] *)

Definition charCode (c : ascii) : Z := Z.of_nat (nat_of_ascii c).

(** One round of the loop body:
    [hash = ((hash << 5) - hash) + char; hash = hash & hash]. *)
Definition hashRound (hash : Z) (c : ascii) : Z :=
  let h := (toInt32 (Z.shiftl (toInt32 hash) 5) - hash) + charCode c in
  toInt32 (Z.land (toInt32 h) (toInt32 h)).

Definition hashCode (str : string) : Z :=
  foldl hashRound 0 (list_ascii_of_string str).

Definition digit36 (d : Z) : ascii :=
  default "0"%char (String.get (Z.to_nat d) "0123456789abcdefghijklmnopqrstuvwxyz").

(** Digits of a non-negative number in base 36, most significant
    first; seven rounds cover every 32-bit magnitude. *)
Fixpoint digits36 (fuel : nat) (n : Z) (acc : string) : string :=
  match fuel with
  | O => acc
  | S fuel' =>
      let acc' := String (digit36 (n mod 36)) acc in
      if n / 36 =? 0 then acc' else digits36 fuel' (n / 36) acc'
  end.

(** [Number.prototype.toString(36)] on a 32-bit integer. *)
Definition toString36 (n : Z) : string :=
  if n <? 0 then "-" +:+ digits36 7 (- n) EmptyString
  else digits36 7 n EmptyString.

Definition hashString (str : string) : string := toString36 (hashCode str).

(** The call [hashString(snapshot.html)]: reading [str.length] of
    [undefined] throws. *)
Definition hashString_of (str : option string) : M string :=
  match str with
  | Some s => ret (hashString s)
  | None => throw (Error "Cannot read properties of undefined (reading 'length')")
  end.

(** *** [connectCDP], as the callers see it

    [new WebSocket(url)] is attempted; whether the handshake and the
    [Runtime.enable] sequence succeed, and with which contexts, is the
    environment's [outcome]. *)
Definition connectCDP (outcome : string → completion connection) (url : string)
    : M connection :=
  emit (WsOpen url);; await (outcome url).

(** *** [initCDP] *)

(** What the environment answers during one round of the retry loop. *)
Record attempt := Attempt {
  a_discover : completion Discovery.cdpInfo;
  a_connect : string → completion connection;
  a_discoverAll : completion (list Discovery.instance)
}.

(** The body of the [while] loop: [true] for [return true], [false]
    for falling out of the [catch]. *)
Definition attemptOnce (a : attempt) : M bool :=
  try_catch
    (log Discovering;;
     cdpInfo ← await (a_discover a);
     log Connecting;;
     cdp ← connectCDP (a_connect a) (Discovery.url cdpInfo);
     modify (set_cdpConnection (Some cdp));;
     modify (set_activeTargetId
               (if truthy (Some (Discovery.id cdpInfo))
                then Some (Discovery.id cdpInfo) else None));;
     log (Connected (length (contexts cdp)));;
     try_catch
       (l ← await (a_discoverAll a); modify (set_discoveredInstances l))
       (λ _, ret tt);;
     modify (set_cdpRetryCount 0);;
     modify (set_snapshotFailCount 0);;
     ret true)
    (λ err,
       modify (λ g, set_cdpRetryCount (cdpRetryCount g + 1) g);;
       g ← get;
       log (NotReady (cdpRetryCount g));;
       emit (Sleep 5000);;
       ret false).

(** [while (cdpRetryCount < MAX_CDP_RETRIES) { ... }], run with no
    other function of the server in between; [Async] splits the loop
    at its [await]s.  [k] numbers the rounds for the environment.  [fuel] bounds them; every failed round
    raises [cdpRetryCount], so the fuel [initCDP] passes is never used
    up (Part II, [initCDP_loop_fuel]). *)
Fixpoint initCDP_loop (fuel : nat) (env : nat → attempt) (k : nat) : M bool :=
  g ← get;
  if cdpRetryCount g <? MAX_CDP_RETRIES then
    match fuel with
    | O => ret false
    | S fuel' =>
        ok ← attemptOnce (env k);
        if ok : bool then ret true else initCDP_loop fuel' env (S k)
    end
  else log GaveUp;; ret false.

Definition initCDP (env : nat → attempt) : M bool :=
  g ← get;
  initCDP_loop (Z.to_nat (MAX_CDP_RETRIES - cdpRetryCount g)) env 0%nat.

End Server.

(** ** The capture probe: [captureSnapshot] *)

Module Capture.
Import JS Wire Server.

(** What the probing expression reports about one context. *)
Record info := Info {
  messageCount : Z;
  hasConversation : bool;
  hasCascade : bool;
  hasLexical : bool;
  isAgentManager : bool;
  htmlLength : Z;
  title : string;
  protocol : string
}.

(** How the two [await cdp.call("Runtime.evaluate", ...)] of a context
    end: by a rejection (timeout, RPC error, a throwing [ws.send]), or
    with [result.value], [None] standing for a missing or falsy one. *)
Record evaluations := Evaluations {
  probeResult : Z → completion (option info);
  snapResult : Z → completion (option snapshot)
}.

(** The score of a context, times 1000 to stay in the integers
    ([score += info.htmlLength / 1000]). *)
Definition score (i : info) : Z :=
  let s := messageCount i * 20000 in
  let s := if hasLexical i then s + 10000 else s in
  let s := if hasConversation i || hasCascade i then (s + 50000) * 10 else s in
  let s := if isAgentManager i then s - 1000000 else s in
  let s := if String.eqb (protocol i) "vscode-webview:" then s + 10000 else s in
  s * 1000 + htmlLength i.

(** The body of [for (const ctx of contexts)], on [bestSnapshot] and
    [maxScore]: whatever goes wrong inside is caught and the sweep goes
    on with the next context. *)
Definition sweep (ev : evaluations) (acc : option snapshot * Z) (ctx : context)
    : option snapshot * Z :=
  match probeResult ev (ctx_id ctx) with
  | Normal (Some i) =>
      match snapResult ev (ctx_id ctx) with
      | Normal (Some snap) =>
          if truthy (error snap) then acc
          else if acc.2 <? score i then (Some snap, score i)
          else acc
      | _ => acc
      end
  | _ => acc
  end.

Definition captureSnapshot (ev : evaluations) (cdp : connection)
    : completion (option snapshot) :=
  Normal (foldl (sweep ev) (None, -1000) (contexts cdp)).1.

End Capture.

(** ** The polling loop: the callback [startPolling] hands to
    [setInterval] *)

Module Polling.
Import JS Wire Server.

(** A browser client of the WebSocket server. *)
Record client := Client {
  cl_id : nat;
  readyState : Z
}.

(** [WebSocket.OPEN]. *)
Definition OPEN : Z := 1.

(** What the environment answers during one tick.  [capture] is how
    the awaited capture probe ends; the probe of [server.js] is
    [Capture.captureSnapshot]. *)
Record tick_env := TickEnv {
  capture : completion (option snapshot);   (* await captureSnapshot(cdpConnection) *)
  clients : list client;                    (* wss.clients *)
  now : string;                             (* new Date().toISOString() *)
  reconnect : nat → attempt                 (* the rounds of initCDP() *)
}.

(** [wss.clients.forEach(...)]: one send per client found open. *)
Definition broadcast (cs : list client) (ts : string) : M unit :=
  foldr
    (λ c rest,
       (if decide (readyState c = OPEN)
        then emit (ClientSend (cl_id c) (Notification "snapshot_update" ts))
        else ret tt);;
       rest)
    (ret tt) cs.

Definition bumpFailCount : M unit :=
  modify (λ g, set_snapshotFailCount (snapshotFailCount g + 1) g).

(** The [try] block of a tick, with the threshold as a parameter. *)
Definition pollBody (maxFails : Z) (env : tick_env) : M unit :=
  snapshot ← await (capture env);
  match snapshot with
  | None =>
      bumpFailCount;;
      g ← get;
      log (SnapshotNull (snapshotFailCount g))
  | Some snap =>
      if truthy (error snap) then
        bumpFailCount;;
        g ← get;
        log (SnapshotError (default EmptyString (error snap)) (snapshotFailCount g))
      else
        modify (set_snapshotFailCount 0);;
        hash ← hashString_of (html snap);
        g ← get;
        if decide (Some hash ≠ lastSnapshotHash g) then
          modify (set_lastSnapshot (Some snap));;
          modify (set_lastSnapshotHash (Some hash));;
          broadcast (clients env) (now env);;
          log (SnapshotUpdated hash)
        else ret tt
  end;;
  g ← get;
  if maxFails <=? snapshotFailCount g then
    log TooManyFailures;;
    modify (set_cdpConnection None);;
    modify (set_snapshotFailCount 0)
  else ret tt.

(** [err.message?.includes('WebSocket') || err.message?.includes('close')]. *)
Definition isSocketError (err : exn) : bool :=
  from_option (λ m, includes m "WebSocket") false (message err)
  || from_option (λ m, includes m "close") false (message err).

(** The [catch] clause of a tick. *)
Definition pollCatch (err : exn) : M unit :=
  log (PollError (message err));;
  bumpFailCount;;
  if isSocketError err then
    log SocketDisconnected;;
    modify (set_cdpConnection None)
  else ret tt.

Definition pollTickWith (maxFails : Z) (env : tick_env) : M unit :=
  g ← get;
  match cdpConnection g with
  | None =>
      log NoConnection;;
      _ ← initCDP (reconnect env);
      ret tt
  | Some _ => try_catch (pollBody maxFails env) pollCatch
  end.

Definition pollTick : tick_env → M unit := pollTickWith MAX_SNAPSHOT_FAILS.

(** Ticks run one after the other: each callback has ended, the
    [initCDP] it awaits included, before the next begins.  The interval
    timer does not wait for that; [Async] in Part I has the callbacks
    that overlap. *)
Definition pollTicks (maxFails : Z) (envs : list tick_env) : M unit :=
  foldr (λ env rest, pollTickWith maxFails env;; rest) (ret tt) envs.

(** Observations on what a run did. *)
Definition isTeardown (e : effect) : bool :=
  match e with Console TooManyFailures => true | _ => false end.

Definition teardownsIn (w : list effect) : nat :=
  length (List.filter isTeardown w).

Definition isSend (e : effect) : bool :=
  match e with ClientSend _ _ => true | _ => false end.

Definition sendsIn (w : list effect) : list effect := List.filter isSend w.

(** The globals and the effects a computation leaves behind. *)
Definition after {A} (m : M A) (g : globals) : globals := (m g).1.2.
Definition effectsOf {A} (m : M A) (g : globals) : list effect := (m g).2.
Definition resultOf {A} (m : M A) (g : globals) : completion A := (m g).1.1.

(** How the polling loop classifies what the probe returned: a failure
    is [null] or an object with a truthy [error]. *)
Definition captureFailed (r : option snapshot) : bool :=
  match r with
  | None => true
  | Some snap => truthy (error snap)
  end.

(** A tick whose capture fails, and one whose capture succeeds with a
    payload carrying [html]. *)
Definition fails (env : tick_env) : bool :=
  match capture env with
  | Normal r => captureFailed r
  | Abrupt _ => false
  end.

Definition succeeds (env : tick_env) : bool :=
  match capture env with
  | Normal (Some snap) => negb (truthy (error snap)) && bool_decide (is_Some (html snap))
  | _ => false
  end.

(** The console line of a failed capture. *)
Definition failureLine (r : option snapshot) (n : Z) : logline :=
  match r with
  | None => SnapshotNull n
  | Some snap => SnapshotError (default EmptyString (error snap)) n
  end.

(** What a broadcast sends: the change notice, to every open client. *)
Definition notices (cs : list client) (ts : string) : list effect :=
  (λ c, ClientSend (cl_id c) (Notification "snapshot_update" ts))
    <$> filter (λ c, readyState c = OPEN) cs.

End Polling.

(** ** [POST /instance]: switching the active target *)

Module Instances.
Import JS Wire Server Discovery.

Record switch_env := SwitchEnv {
  sw_discoverAll : list instance;                (* await discoverAllTargets() *)
  sw_close : option exn;                         (* what ws.close() throws, if anything *)
  sw_connect : string → completion connection    (* await connectCDP(target.url) *)
}.

Inductive body :=
| ErrorBody (error : option string)
| SuccessBody (activeTargetId : option string) (title : string).

Record response := Response {
  statusCode : Z;
  json : body
}.

Definition closeSocket (throws : option exn) (w : nat) : M unit :=
  emit (WsClose w);;
  match throws with
  | Some e => throw e
  | None => ret tt
  end.

(** The handler run from its start to its answer with no other
    function of the server in between; [Async] splits it at its
    [await]s. *)
Definition postInstance (targetId : option string) (env : switch_env) : M response :=
  if negb (truthy targetId) then
    ret (Response 400 (ErrorBody (Some "targetId required")))
  else
    try_catch
      (g ← get;
       (if decide (length (discoveredInstances g) = 0%nat) then
          modify (set_discoveredInstances (sw_discoverAll env))
        else ret tt);;
       g ← get;
       match find (λ i, bool_decide (Some (i_id i) = targetId)) (discoveredInstances g) with
       | None => ret (Response 404 (ErrorBody (Some "Target not found")))
       | Some target =>
           match cdpConnection g with
           | Some cdp => try_catch (closeSocket (sw_close env) (ws cdp)) (λ _, ret tt)
           | None => ret tt
           end;;
           modify (set_cdpConnection None);;
           modify (set_lastSnapshot None);;
           modify (set_lastSnapshotHash None);;
           log (Switching (i_title target));;
           cdp ← connectCDP (sw_connect env) (i_url target);
           modify (set_cdpConnection (Some cdp));;
           modify (set_activeTargetId (Some (i_id target)));;
           modify (set_snapshotFailCount 0);;
           modify (set_cdpRetryCount 0);;
           log (SwitchedTo (i_title target));;
           g ← get;
           ret (Response 200 (SuccessBody (Server.activeTargetId g) (i_title target)))
       end)
      (λ e, log SwitchError;; ret (Response 500 (ErrorBody (message e)))).

End Instances.

From stdpp Require Import sorting.

Open Scope string_scope.
Open Scope list_scope.
Open Scope Z_scope.

(** ** Observations on what a run of the server's code did *)

Module Observe.
Import JS Wire Server.

Definition isSleep (e : effect) : bool :=
  match e with Sleep _ => true | _ => false end.

Definition isOpen (e : effect) : bool :=
  match e with WsOpen _ => true | _ => false end.

(** How often the run slept, and the sockets it opened, in order. *)
Definition sleepsIn (w : list effect) : nat := length (List.filter isSleep w).
Definition opensIn (w : list effect) : list effect := List.filter isOpen w.

(** A round of [initCDP] that ends in its [catch]: discovery throws, or
    the connect to the discovered URL does. *)
Definition roundFails (a : attempt) : bool :=
  match a_discover a with
  | Normal info =>
      match a_connect a (Discovery.url info) with
      | Normal _ => false
      | Abrupt _ => true
      end
  | Abrupt _ => true
  end.

End Observe.

(** ** What one context offers to [captureSnapshot] *)

Module Offer.
Import JS Wire Server Capture.

(** The payload and score of a context whose two calls both return and
    whose payload carries no truthy [error]; such a context reaches the
    comparison [score > maxScore], the others are skipped. *)
Definition offer (ev : evaluations) (ctx : context) : option (snapshot * Z) :=
  match probeResult ev (ctx_id ctx), snapResult ev (ctx_id ctx) with
  | Normal (Some i), Normal (Some snap) =>
      if truthy (error snap) then None else Some (snap, score i)
  | _, _ => None
  end.

(** What the sweep holds after a prefix of the contexts: nothing, while
    no offer scored above the initial [-1]; else the payload of the
    first context with the highest score so far. *)
Definition sweep_inv (ev : evaluations) (l : list context) (acc : option snapshot * Z) : Prop :=
  match acc.1 with
  | None =>
      acc.2 = -1000 ∧
      ∀ j ctx snap s, l !! j = Some ctx → offer ev ctx = Some (snap, s) → s ≤ -1000
  | Some best =>
      -1000 < acc.2 ∧
      ∃ i ctx, l !! i = Some ctx ∧ offer ev ctx = Some (best, acc.2) ∧
        ∀ j ctx' snap s, l !! j = Some ctx' → offer ev ctx' = Some (snap, s) →
          s ≤ acc.2 ∧ ((j < i)%nat → s < acc.2)
  end.

End Offer.

(** ** The hash of [hashString] as a polynomial *)

Module Poly.
Import Server.

(** [s[0]*31^(n-1) + s[1]*31^(n-2) + ... + s[n-1]], without wrap-around. *)
Definition poly31 (str : string) : Z :=
  foldl (λ h c, 31 * h + charCode c) 0 (list_ascii_of_string str).

End Poly.

(** ** Reading base 36 back

    The server never parses a fingerprint; this inverse of
    [toString36] serves to show that the conversion loses nothing. *)

Module Base36.
Import Server.

Definition digitValue (c : ascii) : Z :=
  match String.index 0 (String c EmptyString) "0123456789abcdefghijklmnopqrstuvwxyz" with
  | Some k => Z.of_nat k
  | None => 0
  end.

Definition valueFrom (v : Z) (s : string) : Z :=
  foldl (λ v c, v * 36 + digitValue c) v (list_ascii_of_string s).

Definition parse36 (s : string) : Z :=
  match s with
  | String c rest => if Ascii.eqb c "-" then - valueFrom 0 rest else valueFrom 0 s
  | EmptyString => 0
  end.

End Base36.

(** ** Kinds of transport events *)

Module Traffic.
Import JS Wire Transport.

Definition isCall (ev : event) : bool :=
  match ev with Call _ _ _ => true | _ => false end.

(** A call whose [ws.send] went through. *)
Definition isSent (ev : event) : bool :=
  match ev with Call _ _ None => true | _ => false end.

(** A frame without [id]: an event notification of the target. *)
Definition isNotification (ev : event) : bool :=
  match ev with Recv data => bool_decide (m_id data = None) | _ => false end.

(** The ids in the outbox increase strictly and lie below the counter. *)
Definition numbered (t : transport) : Prop :=
  StronglySorted Z.lt (r_id <$> outbox t) ∧
  Forall (λ r, 1 ≤ r_id r < idCounter t) (outbox t) ∧
  1 ≤ idCounter t.

End Traffic.

(** ** The sequential [discoverCDP] of [debug-dom.js] *)

Module DebugDom.
Import JS Discovery.

Record endpoint := Endpoint { e_port : Z; e_url : string }.

Definition PORTS : list Z := [9000; 9001; 9222; 9002; 9003].

Definition notFound : exn := Error "CDP not found".

(** The [for (const port of PORTS)] loop with its early [return]; the
    second component lists the ports requested, in request order. *)
Fixpoint scan (getJson : probe) (ports : list Z) : completion endpoint * list Z :=
  match ports with
  | [] => (Abrupt notFound, [])
  | p :: rest =>
      let next := ((scan getJson rest).1, p :: (scan getJson rest).2) in
      match getJson p with
      | Some list =>
          match find isWorkbench list with
          | Some found =>
              match t_webSocketDebuggerUrl found with
              | Some (String a u) => (Normal (Endpoint p (String a u)), [p])
              | _ => next
              end
          | None => next
          end
      | None => next
      end
  end.

Definition discoverCDP (getJson : probe) : completion endpoint * list Z :=
  scan getJson PORTS.

End DebugDom.

(** ** Read-only routes of [createServer] *)

Module Routes.
Import JS Wire Server Discovery.

(** [res.status(code).json(body)]; [res.json(body)] answers 200. *)
Record reply (B : Type) := Reply {
  status : Z;
  body : B
}.
Arguments Reply {B} _ _.
Arguments status {B} _.
Arguments body {B} _.

(** [GET /snapshot]: the stored payload, or 503 with
    [{ error: 'No snapshot available yet' }]. *)
Definition getSnapshot : M (reply (string + snapshot)) :=
  g ← get;
  match lastSnapshot g with
  | None => ret (Reply 503 (inl "No snapshot available yet"))
  | Some s => ret (Reply 200 (inr s))
  end.

(** One entry of the list [GET /instances] answers with. *)
Record entry := Entry {
  e_id : string;
  e_port : Z;
  e_title : string;
  e_pageUrl : option string;
  isActive : bool
}.

(** [GET /instances]: a fresh discovery replaces the stored list;
    [isActive: i.id === activeTargetId]. *)
Definition getInstances (discovered : completion (list instance))
    : M (reply (option string + option string * list entry)) :=
  try_catch
    (l ← await discovered;
     modify (set_discoveredInstances l);;
     g ← get;
     ret (Reply 200
            (inr (activeTargetId g,
                  (λ i, Entry (i_id i) (i_port i) (i_title i) (i_pageUrl i)
                          (bool_decide (Some (i_id i) = activeTargetId g)))
                    <$> discoveredInstances g))))
    (λ e, ret (Reply 500 (inl (message e)))).


End Routes.

(** ** The upload cache: [utils/cache-manager.js]

    Times are milliseconds since the epoch, as integers; sizes are
    bytes.  Console output is left out. *)

Module Cache.
Import JS.

Definition MAX_AGE_DAYS : Z := 7.
Definition MIN_FILES_TO_KEEP : nat := 10.

(** The part of [fs.Stats] the code reads. *)
Record stats := Stats {
  st_size : Z;
  birthtimeMs : Z;
  mtimeMs : Z
}.

Record file := File {
  path : string;
  name : string;
  folder : string;
  size : Z;
  createdAt : Z;
  modifiedAt : Z
}.

(** The file system as the module sees it: [path.join], and how
    [fs.readdir], [fs.stat] and [fs.unlink] end. *)
Record fs := Fs {
  join : string → string → string;
  readdir : string → completion (list string);
  stat : string → completion stats;
  unlink : string → option exn
}.

(** The inner loop of [getAllFiles]: a file whose [stat] fails is
    skipped. *)
Definition statFile (d : fs) (dir folder : string) (allFiles : list file) (f : string)
    : list file :=
  let filePath := join d dir f in
  match stat d filePath with
  | Normal st =>
      allFiles ++ [File filePath f folder (st_size st) (birthtimeMs st) (mtimeMs st)]
  | Abrupt _ => allFiles
  end.

(** The outer loop: a folder that cannot be read is skipped. *)
Definition readFolder (d : fs) (uploadDir : string) (allFiles : list file) (folder : string)
    : list file :=
  let dir := join d uploadDir folder in
  match readdir d dir with
  | Normal files => foldl (statFile d dir folder) allFiles files
  | Abrupt _ => allFiles
  end.

Definition getAllFiles (d : fs) (uploadDir : string) : list file :=
  foldl (readFolder d uploadDir) [] ["audio"; "files"].

(** [allFiles.sort((a, b) => b.createdAt - a.createdAt)]: newest
    first, files of equal age in their original order. *)
Fixpoint insertNewestFirst (f : file) (l : list file) : list file :=
  match l with
  | [] => [f]
  | g :: rest =>
      if createdAt g <=? createdAt f then f :: l
      else g :: insertNewestFirst f rest
  end.

Definition sortNewestFirst (l : list file) : list file :=
  foldr insertNewestFirst [] l.

Definition maxAge : Z := MAX_AGE_DAYS * 24 * 60 * 60 * 1000.

(** The variables of the loop of [cleanupOldFiles], and the paths
    handed to [fs.unlink] so far. *)
Record progress := Progress {
  index : nat;
  deletedCount : Z;
  deletedSize : Z;
  unlinked : list string
}.

(** One turn of [for (let i = 0; i < allFiles.length; i++)]. *)
Definition visitFile (d : fs) (now : Z) (st : progress) (f : file) : progress :=
  let age := now - createdAt f in
  if (index st <? MIN_FILES_TO_KEEP)%nat then
    Progress (S (index st)) (deletedCount st) (deletedSize st) (unlinked st)
  else if maxAge <? age then
    match unlink d (path f) with
    | None =>
        Progress (S (index st)) (deletedCount st + 1) (deletedSize st + size f)
          (unlinked st ++ [path f])
    | Some _ =>
        Progress (S (index st)) (deletedCount st) (deletedSize st)
          (unlinked st ++ [path f])
    end
  else Progress (S (index st)) (deletedCount st) (deletedSize st) (unlinked st).

Definition cleanupOldFiles (d : fs) (uploadDir : string) (now : Z) : progress :=
  foldl (visitFile d now) (Progress 0 0 0 [])
    (sortNewestFirst (getAllFiles d uploadDir)).

(** [getCacheStats] *)

Record tally := Tally { count : Z; bytes : Z }.

Record cacheStats := CacheStats {
  totalFiles : Z;
  totalSize : Z;
  audio : tally;
  files : tally;
  oldestFile : option file;
  newestFile : option file
}.

(** One turn of [for (const file of allFiles)].  [stats.byFolder] has
    the two keys [audio] and [files]; any other folder name makes the
    body throw after [totalSize] has been raised. *)
Definition addFile (acc : completion cacheStats) (f : file) : completion cacheStats :=
  match acc with
  | Abrupt e => Abrupt e
  | Normal s =>
      let older :=
        match oldestFile s with
        | None => Some f
        | Some o => if createdAt f <? createdAt o then Some f else Some o
        end in
      let newer :=
        match newestFile s with
        | None => Some f
        | Some n => if createdAt n <? createdAt f then Some f else Some n
        end in
      if String.eqb (folder f) "audio" then
        Normal (CacheStats (totalFiles s) (totalSize s + size f)
                  (Tally (count (audio s) + 1) (bytes (audio s) + size f)) (files s)
                  older newer)
      else if String.eqb (folder f) "files" then
        Normal (CacheStats (totalFiles s) (totalSize s + size f)
                  (audio s) (Tally (count (files s) + 1) (bytes (files s) + size f))
                  older newer)
      else Abrupt (Error "Cannot read properties of undefined (reading 'count')")
  end.

Definition statsOf (allFiles : list file) : completion cacheStats :=
  foldl addFile
    (Normal (CacheStats (Z.of_nat (length allFiles)) 0 (Tally 0 0) (Tally 0 0) None None))
    allFiles.

Definition getCacheStats (d : fs) (uploadDir : string) : completion cacheStats :=
  statsOf (getAllFiles d uploadDir).

(** What the cleanup is meant to remove from a list sorted newest
    first: the files older than the limit, the newest
    [MIN_FILES_TO_KEEP] apart. *)
Definition isOld (now : Z) (f : file) : bool := maxAge <? now - createdAt f.

Definition sumSizes (l : list file) : Z := foldr (λ f s, size f + s) 0 l.

(** [oldestFile] and [newestFile] with respect to a list of files. *)
Definition tallied (l : list file) (s : cacheStats) : Prop :=
  match oldestFile s, newestFile s with
  | Some o, Some n =>
      o ∈ l ∧ n ∈ l ∧ ∀ f, f ∈ l → createdAt o ≤ createdAt f ≤ createdAt n
  | None, None => l = []
  | _, _ => False
  end.

End Cache.

(** ** Code that evaluates scripts in the page

    The helpers below send [Runtime.evaluate] to the contexts of a
    connection, one after the other.  The scripts run inside the
    editor; here only what a call comes back with matters.  The list of
    contexts is taken as it is when the helper reads it. *)

Module Page.
Import JS Wire Server.

(** A value returned from the page with [returnByValue]. *)
#[warnings="-register-all"] Inductive json :=
| JNull                                  (* [null] and [undefined] *)
| JBool (b : bool)
| JNum (n : Z)
| JStr (s : string)
| JObj (fields : list (string * json)).

Definition truthyJ (v : json) : bool :=
  match v with
  | JNull => false
  | JBool b => b
  | JNum n => negb (n =? 0)
  | JStr s => negb (String.eqb s EmptyString)
  | JObj _ => true
  end.

(** [v.k], for a [v] that is not [null]. *)
Definition prop (k : string) (v : json) : json :=
  match v with
  | JObj fields =>
      match find (λ p, String.eqb (fst p) k) fields with
      | Some p => snd p
      | None => JNull
      end
  | _ => JNull
  end.

(** What [await cdp.call("Runtime.evaluate", ...)] resolves with:
    [r_result] is [result.result], holding its [value] if it has one;
    [r_exceptionDetails] is the text of [result.exceptionDetails].  A
    call that rejects, or resolves with [undefined], is an [Abrupt]
    completion: reading [result.result] then throws into the same
    [catch]. *)
Record response := Response {
  r_result : option (option json);
  r_exceptionDetails : option json
}.

(** [result.result?.value]. *)
Definition valueOf (r : response) : json :=
  match r_result r with
  | Some (Some v) => v
  | _ => JNull
  end.

Definition evaluate := Z → completion response.

(** The loop all helpers share:
    [for (const ctx of contexts) { try { const result = await
    cdp.call(...); if (accept) return result.result.value; }
    catch (e) { } }], with the ids of the contexts called, in order. *)
Fixpoint firstValue (accept : json → bool) (call : evaluate) (ctxs : list context)
    : option json * list Z :=
  match ctxs with
  | [] => (None, [])
  | ctx :: rest =>
      let next := ((firstValue accept call rest).1,
                   ctx_id ctx :: (firstValue accept call rest).2) in
      match call (ctx_id ctx) with
      | Normal r =>
          if truthyJ (valueOf r) && accept (valueOf r)
          then (Some (valueOf r), [ctx_id ctx])
          else next
      | Abrupt _ => next
      end
  end.

(** A context whose call returns a value the helper accepts. *)
Definition answers (accept : json → bool) (call : evaluate) (ctx : context) : bool :=
  match call (ctx_id ctx) with
  | Normal r => truthyJ (valueOf r) && accept (valueOf r)
  | Abrupt _ => false
  end.

(** The value a helper returns, with the calls it made. *)
Definition helper (accept : json → bool) (fallback : json)
    (call : evaluate) (cdp : connection) : json * list Z :=
  (default fallback (firstValue accept call (contexts cdp)).1,
   (firstValue accept call (contexts cdp)).2).

Definition flag (k : string) (v : json) : bool := truthyJ (prop k v).

Definition checkPendingAction : evaluate → connection → json * list Z :=
  helper (flag "hasPendingAction") (JObj [("hasPendingAction", JBool false)]).

Definition checkStepConfirmation : evaluate → connection → json * list Z :=
  helper (flag "hasConfirmation") (JObj [("hasConfirmation", JBool false)]).

Definition checkBrowserPermission : evaluate → connection → json * list Z :=
  helper (flag "hasPermissionDialog") (JObj [("hasPermissionDialog", JBool false)]).

Definition checkToolPermission : evaluate → connection → json * list Z :=
  helper (flag "hasToolPermission") (JObj [("hasToolPermission", JBool false)]).

Definition noContext : json := JObj [("ok", JBool false); ("reason", JStr "no_context")].

(** The three click helpers return whatever the first answering
    context returns. *)
Definition clickActionButton : evaluate → connection → json * list Z :=
  helper (λ _, true) noContext.

Definition clickToolPermission : evaluate → connection → json * list Z :=
  helper (λ _, true) noContext.

Definition clickConfirmation : evaluate → connection → json * list Z :=
  helper (λ _, true) noContext.

(** [const val = result.result?.value; if (val && val.success) return val]. *)
Definition clickElementCDP : evaluate → connection → json * list Z :=
  helper (flag "success")
    (JObj [("success", JBool false); ("error", JStr "No matching context")]).

(** *** [injectMessage] *)

(** What the environment answers while [injectMessage] runs. *)
Record page := Page {
  contextsAfter : nat → list context;   (* cdp.getContexts() after so many sleeps *)
  busy : nat → evaluate;                (* the busy probe, by round *)
  check : evaluate;                     (* the validity probe *)
  inject : evaluate                     (* the injection script *)
}.

Inductive action :=
| Wait (ms : Z)
| BusyProbe (ctx : Z)
| CheckProbe (ctx : Z)
| Inject (ctx : Z).

(** [while (cdp.getContexts().length === 0 && wait < 10)]: the value
    of [wait] after the loop. *)
Fixpoint waitForContexts (p : page) (fuel : nat) (wait : nat) : nat :=
  match fuel with
  | O => wait
  | S fuel' =>
      match contextsAfter p wait with
      | [] => waitForContexts p fuel' (S wait)
      | _ :: _ => wait
      end
  end.

(** The inner [for] of the busy loop: [isBusy], with [break] at the
    first context that answers [true]. *)
Fixpoint busySweep (call : evaluate) (ctxs : list context) : bool * list action :=
  match ctxs with
  | [] => (false, [])
  | ctx :: rest =>
      let next := ((busySweep call rest).1, BusyProbe (ctx_id ctx) :: (busySweep call rest).2) in
      match call (ctx_id ctx) with
      | Normal r =>
          match valueOf r with
          | JBool true => (true, [BusyProbe (ctx_id ctx)])
          | _ => next
          end
      | Abrupt _ => next
      end
  end.

Definition MAX_BUSY_WAIT : nat := 20.

(** [while (busyCheckAttempts < MAX_BUSY_WAIT)]: the value of
    [busyCheckAttempts] after the loop. *)
Fixpoint busyLoop (p : page) (ctxs : list context) (fuel : nat) (attempts : nat)
    : nat * list action :=
  match fuel with
  | O => (attempts, [])
  | S fuel' =>
      let sweep := busySweep (busy p attempts) ctxs in
      if sweep.1 then
        let rest := busyLoop p ctxs fuel' (S attempts) in
        (rest.1, sweep.2 ++ Wait 500 :: rest.2)
      else (attempts, sweep.2)
  end.

(** The scan for [targetContext], with [break] at the first context
    whose probe reports [isValid]. *)
Fixpoint findTarget (call : evaluate) (ctxs : list context) : option context * list action :=
  match ctxs with
  | [] => (None, [])
  | ctx :: rest =>
      let next := ((findTarget call rest).1, CheckProbe (ctx_id ctx) :: (findTarget call rest).2) in
      match call (ctx_id ctx) with
      | Normal r =>
          if truthyJ (prop "isValid" (valueOf r))
          then (Some ctx, [CheckProbe (ctx_id ctx)])
          else next
      | Abrupt _ => next
      end
  end.

Definition failed (reason : string) (details : json) : json :=
  JObj [("ok", JBool false); ("reason", JStr reason); ("details", details)].

(** The [try] around the injecting call and the [return] after it. *)
Definition classify (c : completion response) : json :=
  match c with
  | Normal r =>
      if truthyJ (valueOf r) then valueOf r
      else match r_exceptionDetails r, r_result r with
           | Some details, _ => failed "injection_exception" details
           | None, Some v => failed "unknown_result" (JObj [("value", default JNull v)])
           | None, None => JObj [("ok", JBool false); ("reason", JStr "injection_failed_final")]
           end
  | Abrupt e =>
      failed "exception" (from_option JStr JNull (message e))
  end.

Definition injectMessage (p : page) : json * list action :=
  let waited := waitForContexts p 10 0 in
  let contexts := contextsAfter p waited in
  let waits := replicate waited (Wait 500) in
  match contexts with
  | [] => (failed "no_context" (JStr "Antigravity workbench page not found."), waits)
  | _ :: _ =>
      let busyRun := busyLoop p contexts MAX_BUSY_WAIT 0 in
      if (MAX_BUSY_WAIT <=? busyRun.1)%nat then
        (failed "timeout_busy" (JStr "Antigravity is still busy after 10 seconds"),
         waits ++ busyRun.2)
      else
        let scan := findTarget (check p) contexts in
        match scan.1 with
        | None =>
            (failed "no_valid_context"
               (JStr "Could not find Antigravity chat UI. Make sure Antigravity is open and visible."),
             waits ++ busyRun.2 ++ scan.2)
        | Some target =>
            (classify (inject p (ctx_id target)),
             waits ++ busyRun.2 ++ scan.2 ++ [Inject (ctx_id target)])
        end
  end.

(** *** [POST /send] *)

Inductive sendReply :=
| BadRequest                                   (* 400 { error: 'Message or file required' } *)
| NotConnected                                 (* 503 { error: 'CDP not connected' } *)
| Sent (method : json)                         (* 200 { success: true, method } *)
| NotSent (reason : json) (details : json).    (* 500 { success: false, reason, details } *)

Definition statusOf (r : sendReply) : Z :=
  match r with
  | BadRequest => 400
  | NotConnected => 503
  | Sent _ => 200
  | NotSent _ _ => 500
  end.

(** [message] is [req.body.message], [files] is [req.body.files], an
    array if present. *)
Definition postSend (message : option string) (files : option (list string)) (p : page)
    : M (sendReply * list action) :=
  if negb (truthy message)
     && match files with None => true | Some l => bool_decide (length l = 0%nat) end
  then ret (BadRequest, [])
  else
    g ← get;
    match cdpConnection g with
    | None => ret (NotConnected, [])
    | Some _ =>
        let result := injectMessage p in
        if truthyJ (prop "ok" result.1)
        then ret (Sent (prop "method" result.1), result.2)
        else ret (NotSent (prop "reason" result.1) result.1, result.2)
    end.

(** A context that answers [true] to the busy probe, and one whose
    validity probe reports [isValid]. *)
Definition saysBusy (call : evaluate) (ctx : context) : bool :=
  match call (ctx_id ctx) with
  | Normal r => match valueOf r with JBool true => true | _ => false end
  | Abrupt _ => false
  end.

Definition saysValid (call : evaluate) (ctx : context) : bool :=
  match call (ctx_id ctx) with
  | Normal r => truthyJ (prop "isValid" (valueOf r))
  | Abrupt _ => false
  end.

(** Observations on a trace. *)
Definition isWait (a : action) : bool := match a with Wait _ => true | _ => false end.
Definition isInject (a : action) : bool := match a with Inject _ => true | _ => false end.
Definition isCheck (a : action) : bool := match a with CheckProbe _ => true | _ => false end.
Definition isBusyProbe (a : action) : bool := match a with BusyProbe _ => true | _ => false end.

End Page.

(** ** [connectCDP], step by step *)

Module Connect.
Import JS Wire.

(** What the environment does while [connectCDP] runs.  [received k]
    holds the frames the socket has delivered, from its opening on, by
    the time the wait loop tests its condition for the [k]-th time
    (counting from zero). *)
Record dial := Dial {
  handshake : option exn;               (* the 'error' event, if the socket does not open *)
  firstEnable : completion unit;        (* await call("Runtime.enable", {}) *)
  disable : completion unit;            (* await call("Runtime.disable", {}) *)
  secondEnable : completion unit;       (* await call("Runtime.enable", {}) *)
  received : nat → list frame
}.

Inductive step :=
| Open (url : string)
| Call (method : string)
| Wait (ms : Z).

(** [while (contexts.length === 0 && waitCount < 10)]: the value of
    [waitCount] after the loop. *)
Fixpoint waitLoop (d : dial) (fuel : nat) (waitCount : nat) : nat :=
  match fuel with
  | O => waitCount
  | S fuel' =>
      match Registry.replay (received d waitCount) with
      | [] => waitLoop d fuel' (S waitCount)
      | _ :: _ => waitCount
      end
  end.

(** The [try] around the second and third call. *)
Definition reEnable (d : dial) : list step :=
  match disable d with
  | Normal _ =>
      match secondEnable d with
      | Normal _ => [Call "Runtime.disable"; Call "Runtime.enable"]
      | Abrupt _ => [Call "Runtime.disable"; Call "Runtime.enable"]
      end
  | Abrupt _ => [Call "Runtime.disable"]
  end.

(** What [getContexts()] returns when [connectCDP] returns, and what
    was done until then. *)
Definition connectCDP (d : dial) (url : string)
    : completion (list Registry.entry) * list step :=
  match handshake d with
  | Some e => (Abrupt e, [Open url])
  | None =>
      match firstEnable d with
      | Abrupt e => (Abrupt e, [Open url; Call "Runtime.enable"])
      | Normal _ =>
          let waitCount := waitLoop d 10 0 in
          (Normal (Registry.replay (received d waitCount)),
           [Open url; Call "Runtime.enable"] ++ reEnable d
             ++ replicate waitCount (Wait 500))
      end
  end.

Definition isWait (s : step) : bool := match s with Wait _ => true | _ => false end.

End Connect.

(** ** The async functions of the server, interleaved

    [setInterval] does not wait for its async callback, and the route
    handlers run whenever a request arrives: several async functions of
    the server can be under way at once, all on the same module-level
    variables.  JavaScript runs each of them without interruption from
    one [await] to the next.  The machine below holds the module-level
    variables and the functions that are suspended at an [await]; an
    event starts a function or resumes one with the outcome of what it
    awaits, and runs it up to its next [await] or its end.  The awaited
    functions themselves ([discoverCDP], [connectCDP],
    [discoverAllTargets], [captureSnapshot]) do not touch the
    module-level variables, so each counts as one [await].  The
    functions of the machine are those of [server.js] that assign a
    module-level variable: [initCDP], the interval callback,
    [POST /instance] and [GET /instances]. *)

Module Async.
Import JS Wire Server Discovery Polling Instances.

(** Where a function is suspended, with the locals it goes on with. *)
Inductive task :=
| AwaitCapture                                   (* a tick, in [await captureSnapshot(cdpConnection)] *)
| AwaitDiscover                                  (* [initCDP], in [await discoverCDP()] *)
| AwaitConnect (cdpInfo : Discovery.cdpInfo)     (* [initCDP], in [await connectCDP(cdpInfo.url)] *)
| AwaitTargets                                   (* [initCDP], in [await discoverAllTargets()] *)
| AwaitSleep                                     (* [initCDP], in the 5 s sleep of its [catch] *)
| SwitchTargets (targetId : option string) (closeThrows : option exn)
                                                 (* [POST /instance], in [await discoverAllTargets()] *)
| SwitchConnect (target : instance).             (* [POST /instance], in [await connectCDP(target.url)] *)

(** How a run up to the next [await] ends. *)
Inductive next :=
| Suspend (t : task)
| Return
| Respond (r : response).

(** What an awaited promise settles with. *)
Inductive outcome :=
| GotSnapshot (snapshot : completion (option snapshot)) (clients : list client) (now : string)
| GotEndpoint (cdpInfo : completion Discovery.cdpInfo)
| GotConnection (cdp : completion connection)
| GotTargets (targets : completion (list instance))
| TimerFired.

Inductive event :=
| Boot                                                  (* [main] calls [initCDP()] *)
| Fire                                                  (* the interval timer of [startPolling] fires *)
| Post (targetId : option string) (closeThrows : option exn)
                                                        (* a [POST /instance] request arrives *)
| Listing (discovered : completion (list instance))     (* the [discoverAllTargets()] of a
                                                           [GET /instances] settles *)
| Resume (i : nat) (o : outcome).                       (* what function [i] awaits settles *)

(** *** [initCDP] *)

(** The [while] test and, inside the loop, the code up to
    [await discoverCDP()]. *)
Definition initHead : M next :=
  g ← get;
  if cdpRetryCount g <? MAX_CDP_RETRIES then
    log Discovering;; ret (Suspend AwaitDiscover)
  else log GaveUp;; ret Return.

(** The [catch] clause, up to its sleep. *)
Definition initCatch : M next :=
  modify (λ g, set_cdpRetryCount (cdpRetryCount g + 1) g);;
  g ← get;
  log (NotReady (cdpRetryCount g));;
  emit (Sleep 5000);;
  ret (Suspend AwaitSleep).

Definition initDiscovered (c : completion Discovery.cdpInfo) : M next :=
  match c with
  | Normal cdpInfo =>
      log Connecting;;
      emit (WsOpen (Discovery.url cdpInfo));;
      ret (Suspend (AwaitConnect cdpInfo))
  | Abrupt _ => initCatch
  end.

Definition initConnected (cdpInfo : Discovery.cdpInfo) (c : completion connection) : M next :=
  match c with
  | Normal cdp =>
      modify (set_cdpConnection (Some cdp));;
      modify (set_activeTargetId
                (if truthy (Some (Discovery.id cdpInfo))
                 then Some (Discovery.id cdpInfo) else None));;
      log (Connected (length (contexts cdp)));;
      ret (Suspend AwaitTargets)
  | Abrupt _ => initCatch
  end.

(** [try { discoveredInstances = await discoverAllTargets(); }
    catch (e) { }] and the rest of the [try] block. *)
Definition initListed (c : completion (list instance)) : M next :=
  match c with
  | Normal l => modify (set_discoveredInstances l)
  | Abrupt _ => ret tt
  end;;
  modify (set_cdpRetryCount 0);;
  modify (set_snapshotFailCount 0);;
  ret Return.

(** *** The interval callback *)

(** From the start of the callback to its first [await]. *)
Definition tickStart : M next :=
  g ← get;
  match cdpConnection g with
  | None => log NoConnection;; initHead
  | Some _ => ret (Suspend AwaitCapture)
  end.

(** From the settling of [captureSnapshot] to the end of the callback:
    the rest of the [try] block, or the [catch] clause.  [pollBody]
    reads the capture, the clients and the clock of its environment
    only. *)
Definition tickCaptured (maxFails : Z) (c : completion (option snapshot))
    (cs : list client) (ts : string) : M next :=
  try_catch
    (pollBody maxFails
       (TickEnv c cs ts (λ _, Attempt (Abrupt notFound) (λ _, Abrupt notFound) (Normal []))))
    pollCatch;;
  ret Return.

(** *** [POST /instance] *)

(** From [discoveredInstances.find] to [await connectCDP(target.url)]. *)
Definition switchTo (targetId : option string) (closeThrows : option exn) : M next :=
  g ← get;
  match find (λ i, bool_decide (Some (i_id i) = targetId)) (discoveredInstances g) with
  | None => ret (Respond (Response 404 (ErrorBody (Some "Target not found"))))
  | Some target =>
      match cdpConnection g with
      | Some cdp => try_catch (closeSocket closeThrows (ws cdp)) (λ _, ret tt)
      | None => ret tt
      end;;
      modify (set_cdpConnection None);;
      modify (set_lastSnapshot None);;
      modify (set_lastSnapshotHash None);;
      log (Switching (i_title target));;
      emit (WsOpen (i_url target));;
      ret (Suspend (SwitchConnect target))
  end.

Definition switchFailed (e : exn) : M next :=
  log SwitchError;; ret (Respond (Response 500 (ErrorBody (message e)))).

Definition postStart (targetId : option string) (closeThrows : option exn) : M next :=
  if negb (truthy targetId) then
    ret (Respond (Response 400 (ErrorBody (Some "targetId required"))))
  else
    g ← get;
    if decide (length (discoveredInstances g) = 0%nat)
    then ret (Suspend (SwitchTargets targetId closeThrows))
    else switchTo targetId closeThrows.

Definition switchListed (targetId : option string) (closeThrows : option exn)
    (c : completion (list instance)) : M next :=
  match c with
  | Normal l => modify (set_discoveredInstances l);; switchTo targetId closeThrows
  | Abrupt e => switchFailed e
  end.

Definition switchConnected (target : instance) (c : completion connection) : M next :=
  match c with
  | Normal cdp =>
      modify (set_cdpConnection (Some cdp));;
      modify (set_activeTargetId (Some (i_id target)));;
      modify (set_snapshotFailCount 0);;
      modify (set_cdpRetryCount 0);;
      log (SwitchedTo (i_title target));;
      g ← get;
      ret (Respond (Response 200 (SuccessBody (Server.activeTargetId g) (i_title target))))
  | Abrupt e => switchFailed e
  end.

(** *** The machine *)

(** How a suspended function goes on; [None] when the outcome is not of
    the kind it awaits. *)
Definition resume (maxFails : Z) (t : task) (o : outcome) : option (M next) :=
  match t, o with
  | AwaitCapture, GotSnapshot c cs ts => Some (tickCaptured maxFails c cs ts)
  | AwaitDiscover, GotEndpoint c => Some (initDiscovered c)
  | AwaitConnect cdpInfo, GotConnection c => Some (initConnected cdpInfo c)
  | AwaitTargets, GotTargets c => Some (initListed c)
  | AwaitSleep, TimerFired => Some initHead
  | SwitchTargets targetId closeThrows, GotTargets c =>
      Some (switchListed targetId closeThrows c)
  | SwitchConnect target, GotConnection c => Some (switchConnected target c)
  | _, _ => None
  end.

(** [main] starts polling when its [initCDP()] has ended
    ([initCDP().then(() => startPolling(wss))]). *)
Inductive phase :=
| Idle
| Booting (i : nat)
| Polling.

Record machine := Machine {
  vars : globals;                       (* the module-level variables *)
  pending : gmap nat task;              (* the suspended functions *)
  nextId : nat;
  output : list effect;                 (* what was done so far, oldest first *)
  answers : list (nat * response);      (* the responses sent, oldest first *)
  stage : phase
}.

(** The state when [main] has set up the server and is about to call
    [initCDP()]. *)
Definition start : machine := Machine boot ∅ 0 [] [] Idle.

(** The stage after function [i] has ended. *)
Definition ended (i : nat) (st : phase) : phase :=
  match st with
  | Booting j => if decide (j = i) then Polling else st
  | _ => st
  end.

(** Function [i] runs [seg] on the variables, up to its next [await] or
    to its end. *)
Definition land (i : nat) (seg : M next) (m : machine) : machine :=
  match seg (vars m) with
  | (Normal (Suspend t), g, w) =>
      Machine g (<[i := t]> (pending m)) (nextId m) (output m ++ w) (answers m) (stage m)
  | (Normal (Respond r), g, w) =>
      Machine g (delete i (pending m)) (nextId m) (output m ++ w)
        (answers m ++ [(i, r)]) (ended i (stage m))
  | (Normal Return, g, w) =>
      Machine g (delete i (pending m)) (nextId m) (output m ++ w) (answers m)
        (ended i (stage m))
  | (Abrupt _, g, w) =>
      (* a rejected promise: the [then] of [main] does not run *)
      Machine g (delete i (pending m)) (nextId m) (output m ++ w) (answers m) (stage m)
  end.

(** A new function gets the next number. *)
Definition spawn (seg : M next) (st : phase) (m : machine) : machine :=
  land (nextId m) seg
    (Machine (vars m) (pending m) (S (nextId m)) (output m) (answers m) st).

(** One event.  The interval timer runs from the end of the [initCDP]
    of [main] on; an event for a function that is not waiting for it is
    ignored.  Requests are taken at any time. *)
Definition step (maxFails : Z) (m : machine) (ev : event) : machine :=
  match ev with
  | Boot =>
      match stage m with
      | Idle => spawn initHead (Booting (nextId m)) m
      | _ => m
      end
  | Fire =>
      match stage m with
      | Polling => spawn tickStart Polling m
      | _ => m
      end
  | Post targetId closeThrows => spawn (postStart targetId closeThrows) (stage m) m
  | Listing discovered =>
      (* the handler does nothing before its only [await] *)
      match Routes.getInstances discovered (vars m) with
      | (_, g, w) => Machine g (pending m) (nextId m) (output m ++ w) (answers m) (stage m)
      end
  | Resume i o =>
      match pending m !! i with
      | Some t =>
          match resume maxFails t o with
          | Some seg => land i seg m
          | None => m
          end
      | None => m
      end
  end.

Definition run (maxFails : Z) (m : machine) (evs : list event) : machine :=
  foldl (step maxFails) m evs.

(** The numbers in use are below the next one. *)
Definition tidy (m : machine) : Prop :=
  (∀ j, (nextId m ≤ j)%nat → pending m !! j = None) ∧
  (∀ j, stage m = Booting j → (j < nextId m)%nat).

(** What was done between two states of a run. *)
Definition emitted (m m' : machine) : list effect :=
  drop (length (output m)) (output m').

(** *** Functions that run alone *)

(** The events of one round of the loop of [initCDP], run by function
    [i], when the environment answers with [a]. *)
Definition roundEvents (i : nat) (a : attempt) : list event :=
  Resume i (GotEndpoint (a_discover a)) ::
  match a_discover a with
  | Normal cdpInfo =>
      Resume i (GotConnection (a_connect a (Discovery.url cdpInfo))) ::
      match a_connect a (Discovery.url cdpInfo) with
      | Normal _ => [Resume i (GotTargets (a_discoverAll a))]
      | Abrupt _ => [Resume i TimerFired]
      end
  | Abrupt _ => [Resume i TimerFired]
  end.

(** The events of [rounds] rounds, numbered from [k].  An event that
    finds function [i] ended, or not waiting for that outcome, resumes
    nothing ([step]): so the events that come after the loop has ended
    do nothing. *)
Fixpoint loopEvents (i : nat) (reconnect : nat → attempt) (k : nat) (rounds : nat)
    : list event :=
  match rounds with
  | O => []
  | S rounds' => roundEvents i (reconnect k) ++ loopEvents i reconnect (S k) rounds'
  end.

(** The rounds an [initCDP] that runs alone can make from state [g]. *)
Definition budget (g : globals) : nat := Z.to_nat (MAX_CDP_RETRIES - cdpRetryCount g).

(** A tick that runs from its start to its end with nothing else in
    between. *)
Definition tickEvents (m : machine) (env : tick_env) : list event :=
  Fire ::
  match cdpConnection (vars m) with
  | Some _ => [Resume (nextId m) (GotSnapshot (capture env) (clients env) (now env))]
  | None => loopEvents (nextId m) (reconnect env) 0 (budget (vars m))
  end.

(** Ticks that run one after the other. *)
Fixpoint serialTicks (maxFails : Z) (m : machine) (envs : list tick_env) : list event :=
  match envs with
  | [] => []
  | env :: rest =>
      tickEvents m env ++ serialTicks maxFails (run maxFails m (tickEvents m env)) rest
  end.

(** A [POST /instance] that runs from its start to its answer with
    nothing else in between.  The handler awaits
    [discoverAllTargets()] only when the stored list is empty, and
    answers at once when the id is missing or not found: the events it
    does not wait for resume nothing. *)
Definition switchEvents (m : machine) (targetId : option string) (env : switch_env)
    : list event :=
  let known := if decide (length (discoveredInstances (vars m)) = 0%nat)
               then sw_discoverAll env else discoveredInstances (vars m) in
  [Post targetId (sw_close env);
   Resume (nextId m) (GotTargets (Normal (sw_discoverAll env)));
   Resume (nextId m)
     (GotConnection
        match find (λ i, bool_decide (Some (i_id i) = targetId)) known with
        | Some target => sw_connect env (i_url target)
        | None => Abrupt notFound
        end)].

(** *** Observations on a run *)

(** An event that lets a capture end: it resumes a tick that waits for
    its capture. *)
Definition lands (m : machine) (ev : event) : bool :=
  match ev with
  | Resume i (GotSnapshot _ _ _) =>
      match pending m !! i with Some AwaitCapture => true | _ => false end
  | _ => false
  end.

(** The number of captures that end during a run. *)
Fixpoint landed (maxFails : Z) (m : machine) (evs : list event) : nat :=
  match evs with
  | [] => 0
  | ev :: rest =>
      ((if lands m ev then 1 else 0) + landed maxFails (step maxFails m ev) rest)%nat
  end.

(** An event with which no reconnect and no switch goes on: no
    [POST /instance] arrives, no [connectCDP] resolves and no
    [discoverAllTargets()] of [initCDP] or [POST /instance] settles. *)
Definition quiet (ev : event) : bool :=
  match ev with
  | Post _ _ => false
  | Resume _ (GotTargets _) => false
  | Resume _ (GotConnection (Normal _)) => false
  | _ => true
  end.

(** An event that carries no capture, or an unsuccessful one: [null],
    or a payload with a truthy [error]. *)
Definition unsuccessful (ev : event) : bool :=
  match ev with
  | Resume _ (GotSnapshot (Normal r) _ _) => captureFailed r
  | Resume _ (GotSnapshot (Abrupt _) _ _) => false
  | _ => true
  end.

(** An event that carries a capture the polling loop can store: a
    payload without truthy [error] that has [html]. *)
Definition storable (ev : event) : bool :=
  match ev with
  | Resume _ (GotSnapshot (Normal (Some snap)) _ _) =>
      negb (truthy (error snap)) && bool_decide (is_Some (html snap))
  | _ => false
  end.

(** The outcomes of the captures in a list of events. *)
Definition captureOf (ev : event) : option (completion (option snapshot)) :=
  match ev with
  | Resume _ (GotSnapshot c _ _) => Some c
  | _ => None
  end.

Definition capturesIn (evs : list event) : list (completion (option snapshot)) :=
  omap captureOf evs.

Definition captureFailedC (c : completion (option snapshot)) : bool :=
  match c with
  | Normal r => captureFailed r
  | Abrupt _ => false
  end.

End Async.

(** ** Sample environments, used to run the embedding on concrete input *)

Module Samples.
Import JS Wire Discovery.

Definition page (i title ws : string) : target :=
  Target i (Some "vscode-file://vscode-app/workbench/workbench.html")
    (Some title) (Some "page") (Some ws).

(** Only the third port answers, with one workbench page. *)
Definition third_port_only : probe := λ p,
  if decide (p = 9222) then
    Some [page "A1" "Antigravity" "ws://127.0.0.1:9222/devtools/page/A1"]
  else None.

(** Ports 9001 and 9003 answer; 9003 lists a page that 9001 lists too,
    and a worker. *)
Definition two_ports : probe := λ p,
  if decide (p = 9001) then
    Some [page "B1" "Antigravity - a" "ws://127.0.0.1:9001/devtools/page/B1";
          page "B2" "Antigravity - b" "ws://127.0.0.1:9001/devtools/page/B2"]
  else if decide (p = 9003) then
    Some [Target "W" (Some "workbench.html") None (Some "worker") (Some "ws://w");
          page "B2" "Antigravity - b" "ws://127.0.0.1:9001/devtools/page/B2";
          page "C1" "Antigravity - c" "ws://127.0.0.1:9003/devtools/page/C1"]
  else None.

(** The probes resolve last port first. *)
Definition last_first : list nat := [4; 3; 2; 1; 0]%nat.

(** Frames pushed by the target. *)
Definition created (i : Z) (name : string) : frame :=
  Frame None (Some "Runtime.executionContextCreated")
    (Some (Params (Some (Context i name "vscode-file://vscode-app")) None)) None None.
Definition destroyed (i : Z) : frame :=
  Frame None (Some "Runtime.executionContextDestroyed")
    (Some (Params None (Some i))) None None.
Definition cleared : frame :=
  Frame None (Some "Runtime.executionContextsCleared") (Some (Params None None)) None None.
Definition consoleCall : frame :=
  Frame None (Some "Runtime.consoleAPICalled") (Some (Params None None)) None None.
Definition reply (i : Z) (result : string) : frame :=
  Frame (Some i) None None (Some result) None.
Definition failure (i : Z) (err : string) : frame :=
  Frame (Some i) None None None (Some err).

(** A created-frame whose [params] hold no [context]: not a frame of
    the protocol. *)
Definition createdBare : frame :=
  Frame None (Some "Runtime.executionContextCreated") (Some (Params None None)) None None.

(** A connected server with one context and nothing captured yet. *)
Definition editor : Server.connection :=
  Server.Connection 1 [Context 1 "top" "vscode-file://vscode-app"].

Definition online : Server.globals :=
  Server.Globals (Some editor) None None [] (Some "A1") 0 0.

(** Ticks: two browser clients, one of them open, and a network on which
    every reconnect attempt fails. *)
Definition unreachable : nat → Server.attempt := λ _,
  Server.Attempt (Abrupt notFound) (λ _, Abrupt (Error "refused")) (Normal []).

Definition tick (c : completion (option Server.snapshot)) : Polling.tick_env :=
  Polling.TickEnv c [Polling.Client 7 1; Polling.Client 8 3]
    "2026-01-01T00:00:00.000Z" unreachable.

Definition shot (h c : string) : Server.snapshot :=
  Server.Snapshot (Some h) (Some c) (Some "rgb(0, 0, 0)") (Some "white") (Some "sans") None.

Definition nothing : Polling.tick_env := tick (Normal None).
Definition broken : Polling.tick_env :=
  tick (Normal (Some (Server.Snapshot None None None None None (Some "x")))).
Definition seen (h c : string) : Polling.tick_env := tick (Normal (Some (shot h c))).
Definition dropped : Polling.tick_env :=
  tick (Abrupt (Error "WebSocket is not open: readyState 3 (CLOSED)")).
Definition confused : Polling.tick_env := tick (Abrupt (Error "Unexpected token")).

(** The socket of the connection has closed: every call rejects. *)
Definition closedSocket : exn := Error "WebSocket is not open: readyState 3 (CLOSED)".
Definition dead : Capture.evaluations :=
  Capture.Evaluations (λ _, Abrupt closedSocket) (λ _, Abrupt closedSocket).
Definition deadTick : Polling.tick_env := tick (Capture.captureSnapshot dead editor).

(** A page with a conversation, and the agent manager. *)
Definition chat : Capture.info :=
  Capture.Info 3 true false true false 5400 "Antigravity" "vscode-file:".
Definition manager : Capture.info :=
  Capture.Info 9 false false false true 900 "Agent Manager" "vscode-file:".

(** A switch to the second of two known targets, whose socket reports
    two contexts, while closing the old socket throws. *)
Definition known : list instance :=
  [Instance "A1" 9000 "ws://127.0.0.1:9000/devtools/page/A1" "Antigravity - a" None;
   Instance "B1" 9001 "ws://127.0.0.1:9001/devtools/page/B1" "Antigravity - b" None].

Definition other : Server.connection :=
  Server.Connection 2 [Context 1 "top" "b"; Context 2 "frame" "b"].

Definition switching : Instances.switch_env :=
  Instances.SwitchEnv known (Some (Error "already closed")) (λ _, Normal other).

Definition refused : Instances.switch_env :=
  Instances.SwitchEnv known None (λ _, Abrupt (Error "ECONNREFUSED")).

End Samples.

(** ** Further sample environments *)

Module MoreSamples.
Import JS Wire Discovery Samples.

(** Out of retries: the state [initCDP] leaves behind after sixty
    failed rounds. *)
Definition exhausted : Server.globals :=
  Server.Globals None None None [] None 60 0.

(** The editor comes up during the third round of [initCDP]. *)
Definition found : cdpInfo :=
  CdpInfo 9000 "ws://127.0.0.1:9000/devtools/page/A1" "A1".

Definition thirdRound : nat → Server.attempt := λ j,
  if (j <? 2)%nat then unreachable j
  else Server.Attempt (Normal found) (λ _, Normal editor) (Normal known).

(** A server that has a payload stored. *)
Definition serving : Server.globals :=
  Server.Globals (Some editor) (Some (shot "<p>hi</p>" "css"))
    (Some (Server.hashString "<p>hi</p>")) [] (Some "A1") 0 0.

(** A network on which the first round of [initCDP] succeeds, and a
    tick on it. *)
Definition reachable : nat → Server.attempt := λ _,
  Server.Attempt (Normal found) (λ _, Normal editor) (Normal known).

Definition backTick : Polling.tick_env :=
  Polling.TickEnv (Normal None) [] "2026-01-01T00:00:05.000Z" reachable.

(** Two contexts; in the first the click script finds no button, in
    the second it would. *)
Definition top : context := Wire.Context 1 "top" "vscode-file://vscode-app".
Definition panel : context := Wire.Context 2 "panel" "vscode-webview://chat".

Definition twoContexts : Server.connection := Server.Connection 1 [top; panel].

Definition notFoundThere : Page.json :=
  Page.JObj [("ok", Page.JBool false); ("reason", Page.JStr "button_not_found")].

Definition clicked : Page.json :=
  Page.JObj [("ok", Page.JBool true); ("success", Page.JBool true)].

Definition clicks : Page.evaluate := λ i,
  if decide (i = 1) then Normal (Page.Response (Some (Some notFoundThere)) None)
  else Normal (Page.Response (Some (Some clicked)) None).

Definition returns (v : Page.json) : Page.evaluate := λ _,
  Normal (Page.Response (Some (Some v)) None).

(** The editor's context shows up after three sleeps. *)
Definition slow : Page.page :=
  Page.Page (λ k, if (k <? 3)%nat then [] else [top])
    (λ _, returns (Page.JBool false))
    (returns (Page.JObj [("isValid", Page.JBool true)]))
    (returns (Page.JObj [("ok", Page.JBool true); ("method", Page.JStr "click_submit")])).

(** The editor keeps generating: the cancel button never goes away. *)
Definition stuck : Page.page :=
  Page.Page (λ _, [top; panel])
    (λ _, returns (Page.JBool true))
    (returns (Page.JObj [("isValid", Page.JBool true)]))
    (returns (Page.JObj [("ok", Page.JBool true)])).

End MoreSamples.

Module DialSamples.
Import JS Wire Samples.

(** The target answers the first [Runtime.enable], refuses
    [Runtime.disable], and announces its first context during the
    third sleep. *)
Definition late : Connect.dial :=
  Connect.Dial None (Normal tt) (Abrupt (Error "disable refused")) (Normal tt)
    (λ k, if (k <? 3)%nat then [consoleCall] else [consoleCall; created 1 "top"]).

End DialSamples.

Module AsyncSamples.
Import JS Wire Discovery Samples MoreSamples Async.

(** A capture that ends with [null]. *)
Definition nullCapture (i : nat) : event :=
  Resume i (GotSnapshot (Normal None) [] "2026-01-01T00:00:00.000Z").

(** A round of the [initCDP] of function [i] that finds the editor and
    connects to it. *)
Definition connects (i : nat) : list event :=
  [Resume i (GotEndpoint (Normal found));
   Resume i (GotConnection (Normal editor));
   Resume i (GotTargets (Normal known))].

(** The server after a start-up that found the editor at once. *)
Definition connected : machine := run 5 start (Boot :: connects 0).

(** Five ticks whose captures are under way together and end out of
    order, each with [null]. *)
Definition overlapping : list event :=
  [Fire; Fire; Fire; nullCapture 3; nullCapture 1; Fire; Fire;
   nullCapture 2; nullCapture 5; nullCapture 4].

(** Start-up, then five null captures, which tear the session down.
    The next tick calls [initCDP], whose discovery fails, so that it
    sleeps; the tick after it, three seconds later, still finds no
    connection and calls [initCDP] too, and this one connects. *)
Definition outage : list event :=
  Boot :: connects 0 ++
  [Fire; nullCapture 1; Fire; nullCapture 2; Fire; nullCapture 3;
   Fire; nullCapture 4; Fire; nullCapture 5] ++
  [Fire; Resume 6 (GotEndpoint (Abrupt Discovery.notFound)); Fire] ++
  connects 7.

(** The [initCDP] of the earlier tick wakes up, finds the editor too
    and opens a second socket, whose [connectCDP] is slow.  Four ticks
    go by, each with a null capture; then that connect resolves, and
    four more ticks go by with null captures. *)
Definition staleLoop : list event :=
  [Resume 6 TimerFired; Resume 6 (GotEndpoint (Normal found))] ++
  [Fire; nullCapture 8; Fire; nullCapture 9; Fire; nullCapture 10;
   Fire; nullCapture 11] ++
  [Resume 6 (GotConnection (Normal editor)); Resume 6 (GotTargets (Normal known))] ++
  [Fire; nullCapture 12; Fire; nullCapture 13; Fire; nullCapture 14;
   Fire; nullCapture 15].



(** A capture of the page shown before. *)
Definition sameCapture (i : nat) : event :=
  Resume i (GotSnapshot (Normal (Some (shot "<p>hi</p>" "css")))
              [Polling.Client 7 1; Polling.Client 8 3] "2026-01-01T00:00:09.000Z").

(** The server has stored a capture of the editor; the next tick has
    begun its capture. *)
Definition capturing : machine :=
  run 5 connected [Fire; sameCapture 1; Fire].

(** While the switch waits, its connect resolves and a tick begins a
    capture on the new target; nothing that can be stored comes in. *)
Definition meanwhile : list event :=
  [Resume 3 (GotConnection (Normal other)); Fire].

(** The instance B1 of [known]. *)
Definition second : instance :=
  Instance "B1" 9001 "ws://127.0.0.1:9001/devtools/page/B1" "Antigravity - b" None.

End AsyncSamples.

(* ================================================================== *)
(** * Part II: properties *)
(* ================================================================== *)

(** ** [Promise.all] *)

Section PromiseAll.
Import JS.
Context {A : Type}.
Implicit Types (vals : list A) (slots : list (option A)) (order : list nat).

Lemma resolve_slot_length vals slots i :
  length (resolve_slot vals slots i) = length slots.
Proof. unfold resolve_slot. destruct (vals !! i); [apply length_insert | done]. Qed.

Lemma foldl_resolve_length vals order slots :
  length (foldl (resolve_slot vals) slots order) = length slots.
Proof.
  revert slots. induction order as [|j order IH]; intros slots; simpl; [done|].
  by rewrite IH, resolve_slot_length.
Qed.

(** A slot is filled with its task's value as soon as the task occurs in
    the resolution order, and stays filled. *)
Lemma foldl_resolve_filled vals order slots i v :
  length slots = length vals →
  vals !! i = Some v →
  slots !! i = Some (Some v) ∨ i ∈ order →
  foldl (resolve_slot vals) slots order !! i = Some (Some v).
Proof.
  intros Hlen Hv. revert slots Hlen.
  induction order as [|j order IH]; intros slots Hlen [Hfilled|Hin]; simpl.
  - done.
  - by apply elem_of_nil in Hin.
  - apply IH; [by rewrite resolve_slot_length|]. left.
    unfold resolve_slot. destruct (vals !! j) as [w|] eqn:Hj; [|done].
    destruct (decide (j = i)) as [->|Hne].
    + rewrite Hv in Hj. injection Hj as ->.
      apply list_lookup_insert_eq. apply lookup_lt_Some in Hfilled. lia.
    + by rewrite list_lookup_insert_ne.
  - apply IH; [by rewrite resolve_slot_length|].
    apply elem_of_cons in Hin as [->|Hin]; [left|by right].
    unfold resolve_slot. rewrite Hv.
    apply list_lookup_insert_eq. apply lookup_lt_Some in Hv. lia.
Qed.

(** A slot whose task never resolves stays empty. *)
Lemma foldl_resolve_empty vals order slots i :
  slots !! i = Some None → i ∉ order →
  foldl (resolve_slot vals) slots order !! i = Some None.
Proof.
  revert slots. induction order as [|j order IH]; intros slots Hi Hnot; simpl; [done|].
  apply not_elem_of_cons in Hnot as [Hne Hnot].
  apply IH; [|done]. unfold resolve_slot.
  destruct (vals !! j); [|done]. by rewrite list_lookup_insert_ne.
Qed.

Lemma promise_slots_resolved vals order :
  all_resolved (length vals) order → promise_slots vals order = Some <$> vals.
Proof.
  intros Hall. apply list_eq. intros i. unfold promise_slots.
  rewrite list_lookup_fmap.
  destruct (vals !! i) as [v|] eqn:Hv; simpl.
  - apply foldl_resolve_filled; [by rewrite length_replicate|done|]. right.
    unfold all_resolved in Hall. rewrite Forall_forall in Hall. apply Hall.
    apply elem_of_seq. apply lookup_lt_Some in Hv. lia.
  - apply lookup_ge_None. rewrite foldl_resolve_length, length_replicate.
    by apply lookup_ge_None.
Qed.

(** Once every task has resolved, [Promise.all] yields the values in
    task order, whatever the resolution order was. *)
Lemma promise_all_resolved vals order :
  all_resolved (length vals) order → promise_all vals order = Some vals.
Proof.
  intros Hall. unfold promise_all. rewrite promise_slots_resolved by done.
  by apply mapM_fmap_Some.
Qed.

(** Until then it stays pending. *)
Lemma promise_all_pending vals order :
  ¬ all_resolved (length vals) order → promise_all vals order = None.
Proof.
  intros Hnot. unfold all_resolved in Hnot.
  apply not_Forall_Exists in Hnot; [|apply _].
  apply Exists_exists in Hnot as (i & Hi & Hout).
  apply elem_of_seq in Hi.
  unfold promise_all. apply eq_None_not_Some. intros [l Hl].
  apply mapM_Some in Hl.
  assert (promise_slots vals order !! i = Some None) as Hslot.
  { apply foldl_resolve_empty; [|done]. apply lookup_replicate. split; [done|lia]. }
  destruct (Forall2_lookup_l _ _ _ _ _ Hl Hslot) as (y & _ & Hy). done.
Qed.

End PromiseAll.

(** ** Target discovery *)

Section DiscoveryFacts.
Import JS Discovery.
Implicit Types (getJson : probe) (ports : list Z) (order : list nat).

Lemma checkPort_port getJson p m : checkPort getJson p = Some m → c_port m = p.
Proof.
  unfold checkPort. intros H.
  destruct (getJson p) as [l|]; [|done].
  destruct (find isWorkbench l) as [t|]; [|done].
  destruct (t_webSocketDebuggerUrl t) as [[|a u]|]; [done| |done].
  by injection H as <-.
Qed.

(** [results.find(r => r !== null)] picks the first port, in list order,
    whose probe produced a match. *)
Lemma find_first_match (f : Z → option candidate) ports :
  match find isMatch (f <$> ports) with
  | Some (Some m) =>
      ∃ i p, ports !! i = Some p ∧ f p = Some m ∧
             ∀ j q, (j < i)%nat → ports !! j = Some q → f q = None
  | Some None => False
  | None => ∀ p, p ∈ ports → f p = None
  end.
Proof.
  induction ports as [|p ports IH].
  - intros p Hp. by apply elem_of_nil in Hp.
  - rewrite fmap_cons. cbn [find].
    destruct (f p) as [m|] eqn:Hfp; cbn [isMatch].
    + exists 0%nat, p. split; [done|]. split; [done|]. intros j q Hj. lia.
    + destruct (find isMatch (f <$> ports)) as [[m|]|]; [| done |].
      * destruct IH as (i & q & Hi & Hq & Hbefore).
        exists (S i), q. split; [done|]. split; [done|].
        intros [|j] r Hj Hr; simpl in Hr; [congruence|].
        apply (Hbefore j); [lia|done].
      * intros q Hq. apply elem_of_cons in Hq as [->|Hq]; [done|by apply IH].
Qed.

Lemma discoverOver_priority ports getJson order :
  all_resolved (length ports) order →
  discoverOver ports getJson order = Some (selectFirst (checkPort getJson <$> ports)).
Proof.
  intros Hall. unfold discoverOver.
  rewrite promise_all_resolved; [done|by rewrite length_fmap].
Qed.

Lemma discoverOver_pending ports getJson order :
  ¬ all_resolved (length ports) order → discoverOver ports getJson order = None.
Proof.
  intros Hnot. unfold discoverOver.
  rewrite promise_all_pending; [done|by rewrite length_fmap].
Qed.

(** C1.  [discoverCDP] selects only once every probe has resolved
    (before that the joined promise is pending); whatever the order in
    which the probes resolved, it then returns the match of the earliest
    port of [PORTS] whose probe produced one, and throws the not-found
    error exactly when no port produced a match. *)
Theorem discoverCDP_earliest_port getJson order :
  (¬ all_resolved (length PORTS) order → discoverCDP getJson order = None) ∧
  (all_resolved (length PORTS) order →
   ∃ r, discoverCDP getJson order = Some r ∧
        ((∃ i p m,
            PORTS !! i = Some p ∧ checkPort getJson p = Some m ∧
            (∀ j q, (j < i)%nat → PORTS !! j = Some q → checkPort getJson q = None) ∧
            r = Normal (CdpInfo p (c_url m) (c_id m)))
         ∨ (r = Abrupt notFound ∧ ∀ p, p ∈ PORTS → checkPort getJson p = None))).
Proof.
  split; [apply discoverOver_pending|].
  intros Hall. eexists. split; [by apply discoverOver_priority|].
  unfold selectFirst.
  pose proof (find_first_match (checkPort getJson) PORTS) as Hfind.
  destruct (find isMatch (checkPort getJson <$> PORTS)) as [[m|]|].
  - left. destruct Hfind as (i & p & Hi & Hp & Hbefore).
    exists i, p, m. repeat split; try done.
    by rewrite (checkPort_port _ _ _ Hp).
  - done.
  - right. done.
Qed.

(** *** [discoverAllTargets] *)

Lemma collect_flat (results : list (list instance)) :
  collect results = (foldl visit ([], ∅) (mjoin results)).1.
Proof.
  unfold collect. generalize (([], ∅) : list instance * gset string).
  induction results as [|r results IH]; intros acc; simpl; [done|].
  by rewrite foldl_app, IH.
Qed.

(** The loop keeps [seen] equal to the URLs of [allTargets], never
    stores a URL twice, stores only what it visits, and leaves no
    visited URL out. *)
Lemma visit_all_inv (xs : list instance) (acc : list instance) (seen : gset string) :
  (∀ u, u ∈ seen ↔ u ∈ i_url <$> acc) →
  NoDup (i_url <$> acc) →
  let r := foldl visit (acc, seen) xs in
  (∀ u, u ∈ r.2 ↔ u ∈ i_url <$> r.1) ∧
  NoDup (i_url <$> r.1) ∧
  (∀ t, t ∈ r.1 → t ∈ acc ∨ t ∈ xs) ∧
  (∀ t, t ∈ acc ∨ t ∈ xs → i_url t ∈ i_url <$> r.1).
Proof.
  revert acc seen. induction xs as [|x xs IH]; intros acc seen Hseen Hnd; simpl.
  - split; [done|]. split; [done|]. split; [by left|].
    intros t [Ht|Ht]; [by apply list_elem_of_fmap_2|by apply elem_of_nil in Ht].
  - destruct (decide (i_url x ∈ seen)) as [Hin|Hout].
    + assert (visit (acc, seen) x = (acc, seen)) as ->
        by (unfold visit; simpl; by rewrite decide_True).
      destruct (IH acc seen Hseen Hnd) as (H1 & H2 & H3 & H4).
      split; [done|]. split; [done|]. split.
      * intros t Ht. destruct (H3 t Ht); [by left|right; by apply elem_of_cons; right].
      * intros t [Ht|Ht]; [apply H4; by left|].
        apply elem_of_cons in Ht as [->|Ht]; [|apply H4; by right].
        apply Hseen in Hin. apply list_elem_of_fmap in Hin as (y & -> & Hy).
        apply H4. by left.
    + assert (visit (acc, seen) x = (acc ++ [x], {[i_url x]} ∪ seen)) as ->
        by (unfold visit; simpl; by rewrite decide_False).
      destruct (IH (acc ++ [x]) ({[i_url x]} ∪ seen)) as (H1 & H2 & H3 & H4).
      * intros u. rewrite fmap_app, elem_of_app, elem_of_union, Hseen. simpl.
        rewrite elem_of_singleton, list_elem_of_singleton. tauto.
      * rewrite fmap_app. apply NoDup_app. split; [done|]. split.
        -- intros u Hu Hx. simpl in Hx. apply list_elem_of_singleton in Hx as ->.
           by apply Hseen in Hu.
        -- simpl. apply NoDup_singleton.
      * split; [done|]. split; [done|]. split.
        -- intros t Ht. destruct (H3 t Ht) as [Hacc|Hxs].
           ++ apply elem_of_app in Hacc as [?|Hx]; [by left|right].
              apply list_elem_of_singleton in Hx as ->. apply elem_of_cons; by left.
           ++ right. apply elem_of_cons; by right.
        -- intros t [Ht|Ht]; apply H4.
           ++ left. apply elem_of_app; by left.
           ++ apply elem_of_cons in Ht as [->|Ht]; [left|by right].
              apply elem_of_app; right. by apply list_elem_of_singleton.
Qed.

Lemma elem_of_checkPortAll getJson p t :
  t ∈ checkPortAll getJson p ↔
  ∃ list raw, getJson p = Some list ∧ raw ∈ list ∧ isListed raw = true ∧
              t = describe p raw.
Proof.
  unfold checkPortAll. destruct (getJson p) as [l|]; split.
  - intros Ht. apply list_elem_of_fmap in Ht as (raw & -> & Hraw).
    apply list_elem_of_filter in Hraw as [Hl Hraw]. by exists l, raw.
  - intros (l' & raw & [= <-] & Hraw & Hl & ->).
    apply list_elem_of_fmap_2. by apply list_elem_of_filter.
  - intros Ht. by apply elem_of_nil in Ht.
  - intros (l' & raw & ? & _). done.
Qed.

(** C8.  Once every probe has resolved, [discoverAllTargets] returns,
    whatever the resolution order: no debugger URL twice; only matches
    that some port of [PORTS] listed, each carrying the port whose list
    it was taken from; and, for every match listed by any port, an entry
    with that match's debugger URL.  The de-duplication key is the
    target's own debugger URL ([t.url]), not the port. *)
Theorem discoverAllTargets_dedup getJson order :
  all_resolved (length PORTS) order →
  ∃ all, discoverAllTargets getJson order = Some all ∧
    NoDup (i_url <$> all) ∧
    (∀ t, t ∈ all →
       i_port t ∈ PORTS ∧
       ∃ list raw, getJson (i_port t) = Some list ∧ raw ∈ list ∧
                   isListed raw = true ∧ t = describe (i_port t) raw) ∧
    (∀ p list raw,
       p ∈ PORTS → getJson p = Some list → raw ∈ list → isListed raw = true →
       ∃ t, t ∈ all ∧ Some (i_url t) = t_webSocketDebuggerUrl raw).
Proof.
  intros Hall. unfold discoverAllTargets, discoverAllOver.
  rewrite promise_all_resolved by (by rewrite length_fmap).
  eexists. split; [done|]. rewrite collect_flat.
  destruct (visit_all_inv (mjoin (checkPortAll getJson <$> PORTS)) [] ∅)
    as (_ & Hnd & Hfrom & Hcover).
  { intros u. simpl. rewrite elem_of_empty. split; [done|]. apply elem_of_nil. }
  { simpl. apply NoDup_nil_2. }
  split; [done|]. split.
  - intros t Ht. destruct (Hfrom t Ht) as [Hnil|Hin]; [by apply elem_of_nil in Hnil|].
    apply list_elem_of_join in Hin as (l & Hl & Hports).
    apply list_elem_of_fmap in Hports as (p & -> & Hp).
    pose proof Hl as Hl'. apply elem_of_checkPortAll in Hl' as (list & raw & Hg & Hraw & Hok & ->).
    simpl. split; [done|]. by exists list, raw.
  - intros p list raw Hp Hg Hraw Hok.
    assert (describe p raw ∈ mjoin (checkPortAll getJson <$> PORTS)) as Hin.
    { apply list_elem_of_join. exists (checkPortAll getJson p). split.
      - apply elem_of_checkPortAll. by exists list, raw.
      - by apply list_elem_of_fmap_2. }
    pose proof (Hcover (describe p raw) (or_intror Hin)) as Hurl.
    apply list_elem_of_fmap in Hurl as (t & Heq & Ht).
    exists t. split; [done|]. rewrite <- Heq. simpl.
    unfold isListed in Hok. apply andb_true_iff in Hok as [_ Htruthy].
    destruct (t_webSocketDebuggerUrl raw) as [[|a u]|]; done.
Qed.

End DiscoveryFacts.

(** Discharges a decidable closed proposition by evaluation. *)
Ltac by_evaluation :=
  match goal with
  | |- ?P => exact (bool_decide_unpack P ltac:(vm_compute; exact I))
  end.

Section DiscoveryRuns.
Import JS Discovery Samples.

Example discoverCDP_third_port :
  discoverCDP third_port_only last_first =
    Some (Normal (CdpInfo 9222 "ws://127.0.0.1:9222/devtools/page/A1" "A1")).
Proof. reflexivity. Qed.

Example discoverCDP_prefers_9001 :
  discoverCDP two_ports last_first =
    Some (Normal (CdpInfo 9001 "ws://127.0.0.1:9001/devtools/page/B1" "B1")).
Proof. reflexivity. Qed.

Example discoverCDP_waits_for_all :
  discoverCDP two_ports [4; 3; 1; 0]%nat = None.
Proof. reflexivity. Qed.

Example discoverCDP_nothing_found :
  discoverCDP (λ _, None) last_first = Some (Abrupt notFound).
Proof. reflexivity. Qed.

Example discoverAllTargets_two_ports :
  (λ l : list instance, (i_id <$> l, i_port <$> l)) <$> discoverAllTargets two_ports last_first =
    Some (["B1"; "B2"; "C1"], [9001; 9001; 9003]).
Proof. vm_compute. reflexivity. Qed.

Lemma discoverCDP_earliest_port_witness :
  all_resolved (length PORTS) last_first ∧
  ∃ r, discoverCDP two_ports last_first = Some r ∧
       ((∃ i p m,
           PORTS !! i = Some p ∧ checkPort two_ports p = Some m ∧
           (∀ j q, (j < i)%nat → PORTS !! j = Some q → checkPort two_ports q = None) ∧
           r = Normal (CdpInfo p (c_url m) (c_id m)))
        ∨ (r = Abrupt notFound ∧ ∀ p, p ∈ PORTS → checkPort two_ports p = None)).
Proof.
  assert (all_resolved (length PORTS) last_first) as H by by_evaluation.
  split; [exact H|].
  exact (proj2 (discoverCDP_earliest_port two_ports last_first) H).
Defined.

Lemma discoverAllTargets_dedup_witness :
  all_resolved (length PORTS) last_first ∧
  ∃ all, discoverAllTargets two_ports last_first = Some all ∧
         NoDup (i_url <$> all).
Proof.
  assert (all_resolved (length PORTS) last_first) as H by by_evaluation.
  split; [exact H|].
  destruct (discoverAllTargets_dedup two_ports last_first H) as (all & Hall & Hnd & _).
  by exists all.
Defined.

End DiscoveryRuns.

(** ** Execution-context registry *)

Section RegistryFacts.
Import Wire Registry.
Implicit Types (l : list context) (data : frame).

Lemma as_set_keys l : ((λ c, (ctx_id c, c)) <$> l).*1 = ctx_id <$> l.
Proof. rewrite <- list_fmap_compose. done. Qed.

Lemma as_set_cons c l : as_set (c :: l) = <[ctx_id c := c]> (as_set l).
Proof. done. Qed.

Lemma as_set_lookup_None l i : as_set l !! i = None ↔ i ∉ ctx_id <$> l.
Proof.
  unfold as_set. rewrite <- not_elem_of_list_to_map. by rewrite as_set_keys.
Qed.

Lemma as_set_lookup_None_inv l i : i ∈ ctx_id <$> l → is_Some (as_set l !! i).
Proof.
  intros Hin. destruct (as_set l !! i) eqn:Hl; [by eexists|].
  by apply as_set_lookup_None in Hl.
Qed.

(** [contexts.find(c => c.id === ctx.id)] finds nothing exactly when the
    id is not in the list. *)
Lemma find_by_id l i :
  match find (λ c, bool_decide (ctx_id c = i)) l with
  | Some _ => i ∈ ctx_id <$> l
  | None => i ∉ ctx_id <$> l
  end.
Proof.
  induction l as [|c l IH]; [apply not_elem_of_nil|].
  rewrite fmap_cons. cbn [find].
  destruct (decide (ctx_id c = i)) as [<-|Hne].
  - rewrite bool_decide_true by done. apply elem_of_cons. by left.
  - rewrite bool_decide_false by done.
    destruct (find (λ c0, bool_decide (ctx_id c0 = i)) l).
    + apply elem_of_cons. by right.
    + apply not_elem_of_cons. split; [congruence|done].
Qed.

(** [contexts.filter(c => c.id !== id)] is removal of the key. *)
Lemma as_set_filter l i :
  as_set (filter (λ c, Some (ctx_id c) ≠ Some i) l) = delete i (as_set l).
Proof.
  induction l as [|c l IH]; [symmetry; apply delete_empty|].
  rewrite as_set_cons. destruct (decide (ctx_id c = i)) as [<-|Hne].
  - rewrite filter_cons_False by (intros H; by apply H).
    by rewrite IH, delete_insert_eq.
  - rewrite filter_cons_True by congruence.
    by rewrite as_set_cons, IH, delete_insert_ne.
Qed.

Lemma filter_keeps_all (P : context → Prop) `{∀ c, Decision (P c)} l :
  (∀ c, P c) → filter P l = l.
Proof.
  intros HP. induction l as [|c l IH]; [done|].
  rewrite filter_cons_True by done. by rewrite IH.
Qed.

Lemma NoDup_ids_filter (P : context → Prop) `{∀ c, Decision (P c)} l :
  NoDup (ctx_id <$> l) → NoDup (ctx_id <$> filter P l).
Proof.
  intros Hnd. eapply sublist_NoDup; [exact Hnd|].
  apply fmap_sublist, sublist_filter.
Qed.

(** On a list without [undefined] the two callbacks do not throw:
    [find] tells whether the id is present, [filter] removes it. *)
Lemma lookFor_defined l x :
  lookFor (Some x) (Some <$> l) = Some (bool_decide (ctx_id x ∈ ctx_id <$> l)).
Proof.
  induction l as [|c l IH]; [done|]. rewrite !fmap_cons. cbn [lookFor].
  destruct (decide (ctx_id c = ctx_id x)) as [Heq|Hne].
  - rewrite !bool_decide_true; [done| |done]. apply elem_of_cons. by left.
  - rewrite (bool_decide_false (ctx_id c = ctx_id x)) by done.
    rewrite IH. f_equal. apply bool_decide_ext. rewrite elem_of_cons.
    split; [by right|]. intros [?|?]; [congruence|done].
Qed.

Lemma without_defined l id :
  without id (Some <$> l) = Some (Some <$> filter (λ c, Some (ctx_id c) ≠ id) l).
Proof.
  induction l as [|c l IH]; [done|]. rewrite fmap_cons. cbn [without]. rewrite IH.
  destruct (decide (Some (ctx_id c) ≠ id)) as [Hne|Heq].
  - by rewrite filter_cons_True.
  - by rewrite filter_cons_False.
Qed.

(** One frame of the protocol: the listener does to the list what the
    rule for the frame's event does to the set, keeps ids unique and
    stores no [undefined]. *)
Lemma onMessage_refines l data :
  wellFormed data = true → NoDup (ctx_id <$> l) →
  ∃ l', onMessage (Some <$> l) data = Some <$> l' ∧
        as_set l' = spec_rule (as_set l) (classify data) ∧
        NoDup (ctx_id <$> l').
Proof.
  intros Hwf Hnd. unfold onMessage, classify, wellFormed in *.
  repeat case_decide.
  - destruct (m_params data) as [[[ctx|] ?]|]; [| |by exists l].
    + cbn [p_context spec_rule]. rewrite lookFor_defined. clear Hwf.
      destruct (decide (ctx_id ctx ∈ ctx_id <$> l)) as [Hin|Hin];
        [rewrite bool_decide_true by done|rewrite bool_decide_false by done].
      * exists l. split; [done|]. split; [|done].
        apply as_set_lookup_None_inv in Hin as [c' Hc']. by rewrite Hc'.
      * exists (l ++ [ctx]). split; [by rewrite fmap_app|].
        pose proof Hin as Hnone. apply as_set_lookup_None in Hnone. rewrite Hnone.
        split.
        -- unfold as_set. rewrite fmap_app. simpl.
           apply list_to_map_snoc. by rewrite as_set_keys.
        -- rewrite fmap_app. apply NoDup_app. split; [done|]. split.
           ++ intros i Hi Hin'. simpl in Hin'.
              apply list_elem_of_singleton in Hin' as ->. done.
           ++ apply NoDup_singleton.
    + rewrite H in Hwf. by vm_compute in Hwf.
  - destruct (m_params data) as [[? [i|]]|]; [| |by exists l].
    + cbn [p_executionContextId]. rewrite without_defined. cbn [default].
      eexists. split; [reflexivity|]. split; [apply as_set_filter|by apply NoDup_ids_filter].
    + cbn [p_executionContextId]. rewrite without_defined. cbn [default].
      rewrite filter_keeps_all by done. by exists l.
  - exists []. split; [done|]. split; [done|]. apply NoDup_nil_2.
  - by exists l.
Qed.

Lemma onMessage_other l data :
  wellFormed data = true → classify data = Other →
  onMessage (Some <$> l) data = Some <$> l.
Proof.
  unfold classify, onMessage, wellFormed. intros Hwf. repeat case_decide; try done.
  - destruct (m_params data) as [[[ctx|] ?]|]; [done| |done]. intros _.
    rewrite H in Hwf. by vm_compute in Hwf.
  - destruct (m_params data) as [[? [i|]]|]; [done| |done]. intros _.
    cbn [p_executionContextId]. rewrite without_defined. cbn [default].
    by rewrite filter_keeps_all.
Qed.

Lemma replay_from l frames :
  Forall (λ data, wellFormed data = true) frames →
  NoDup (ctx_id <$> l) →
  ∃ l', foldl onMessage (Some <$> l) frames = Some <$> l' ∧
        as_set l' = foldl spec_rule (as_set l) (classify <$> frames) ∧
        NoDup (ctx_id <$> l').
Proof.
  revert l. induction frames as [|data frames IH]; intros l Hwf Hnd; [by exists l|].
  apply Forall_cons in Hwf as [Hdata Hwf].
  destruct (onMessage_refines l data Hdata Hnd) as (l1 & Hstep & Hset & Hnd1).
  rewrite fmap_cons. cbn [foldl]. rewrite Hstep, <- Hset. by apply IH.
Qed.

Lemma as_set_size l : NoDup (ctx_id <$> l) → size (as_set l) = length l.
Proof.
  induction l as [|c l IH]; [done|].
  rewrite fmap_cons, NoDup_cons. intros [Hnew Hnd].
  rewrite as_set_cons, map_size_insert_None by (by apply as_set_lookup_None).
  cbn [length]. by rewrite IH.
Qed.

(** C3.  After any sequence of frames of the protocol (the [params] of
    a created-frame hold its context), the registry holds contexts
    only, and its list stands for the set obtained by folding the three
    rules over the frames' events: cleared empties it, destroyed
    removes the matching id, created adds the context unless its id is
    present.  No id occurs twice in the list, so its length is the size
    of that set, and a frame of any other kind leaves the list as it
    was. *)
Theorem registry_replay_is_fold (frames : list frame) :
  Forall (λ data, wellFormed data = true) frames →
  ∃ l, replay frames = Some <$> l ∧
       as_set l = spec_replay (classify <$> frames) ∧
       NoDup (ctx_id <$> l) ∧
       length (replay frames) = size (spec_replay (classify <$> frames)) ∧
       ∀ data, wellFormed data = true → classify data = Other →
               replay (frames ++ [data]) = replay frames.
Proof.
  intros Hwf.
  destruct (replay_from [] frames Hwf (NoDup_nil_2 : NoDup (ctx_id <$> [])))
    as (l & Hrun & Hset & Hnd).
  exists l. split; [exact Hrun|]. split; [exact Hset|]. split; [exact Hnd|]. split.
  - change (replay frames) with (foldl onMessage (Some <$> []) frames).
    rewrite Hrun, length_fmap. unfold spec_replay.
    change (∅ : gmap Z context) with (as_set []).
    rewrite <- Hset. symmetry. by apply as_set_size.
  - intros data Hdata Hother.
    change (replay (frames ++ [data]))
      with (foldl onMessage (Some <$> []) (frames ++ [data])).
    change (replay frames) with (foldl onMessage (Some <$> []) frames).
    rewrite foldl_snoc, Hrun. by apply onMessage_other.
Qed.

(** A created-frame whose [params] hold no [context] is outside the
    protocol.  On the empty registry the listener pushes [undefined]
    for it, and from then on every created- and destroyed-frame throws
    inside the listener: the registry stays at that one element until a
    cleared-frame arrives. *)
Lemma undefined_entry_sticks data :
  m_method data ≠ Some "Runtime.executionContextsCleared" →
  onMessage [None] data = [None].
Proof.
  intros Hne. unfold onMessage. repeat case_decide; try done.
  - by destruct (m_params data).
  - by destruct (m_params data).
Qed.

End RegistryFacts.

Section RegistryRuns.
Import Wire Registry Samples.

Example replay_sample :
  replay [created 1 "a"; created 2 "b"; consoleCall; created 1 "again";
          destroyed 2; created 3 "c"] =
    [Some (Context 1 "a" "vscode-file://vscode-app");
     Some (Context 3 "c" "vscode-file://vscode-app")].
Proof. reflexivity. Qed.

Example replay_cleared :
  replay [created 1 "a"; created 2 "b"; cleared; created 2 "c"] =
    [Some (Context 2 "c" "vscode-file://vscode-app")].
Proof. reflexivity. Qed.

Example replay_createdBare_first :
  replay [createdBare; created 1 "a"; destroyed 1] = [None].
Proof. reflexivity. Qed.

Example replay_createdBare_later :
  replay [created 1 "a"; createdBare] = [Some (Context 1 "a" "vscode-file://vscode-app")].
Proof. reflexivity. Qed.

End RegistryRuns.

(** ** RPC transport *)

Section TransportFacts.
Import JS Wire Transport.
Implicit Types (t : transport) (i j : Z) (data : frame) (s : settlement).

(** *** Calls do not interfere *)

Lemma settlements_of_snoc i j s log :
  snd <$> filter (λ p : Z * settlement, p.1 = i) (log ++ [(j, s)]) =
  (snd <$> filter (λ p : Z * settlement, p.1 = i) log) ++ (if decide (j = i) then [s] else []).
Proof.
  rewrite filter_app, fmap_app. f_equal.
  destruct (decide (j = i)) as [->|Hne].
  - by rewrite filter_cons_True.
  - by rewrite filter_cons_False.
Qed.

Lemma view_settle_other i j s t : j ≠ i → view j (settle i s t) = view j t.
Proof.
  intros Hne. unfold settle. destruct (promises t !! i) as [[|]|]; try done.
  unfold view, settlements_of. simpl.
  rewrite lookup_insert_ne by done. rewrite settlements_of_snoc.
  rewrite decide_False by done. by rewrite app_nil_r.
Qed.

Lemma view_release_other i j t : j ≠ i → view j (off i (clearTimeout i t)) = view j t.
Proof.
  intros Hne. unfold view, settlements_of. simpl.
  rewrite lookup_delete_ne by done. do 3 f_equal.
  apply bool_decide_ext. rewrite list_elem_of_filter. tauto.
Qed.

Lemma view_handler_other i j data t : j ≠ i → view j (handler i data t) = view j t.
Proof.
  intros Hne. unfold handler. case_decide; [|done].
  destruct (m_error data); rewrite view_settle_other by done;
    by apply view_release_other.
Qed.

Lemma view_timeout_other i j t : j ≠ i → view j (timeout i t) = view j t.
Proof.
  intros Hne. unfold timeout. destruct (timers t !! i); [|done].
  rewrite view_settle_other by done. by apply view_release_other.
Qed.

Lemma view_call_other method params sendThrows j t :
  j ≠ idCounter t → view j (call method params sendThrows t).2 = view j t.
Proof.
  intros Hne. unfold call. destruct sendThrows as [e|]; simpl.
  - rewrite view_settle_other by done. unfold view, settlements_of. simpl.
    rewrite !lookup_insert_ne by done. do 3 f_equal.
    apply bool_decide_ext. rewrite elem_of_app, list_elem_of_singleton. tauto.
  - unfold view, settlements_of. simpl.
    rewrite !lookup_insert_ne by done. do 3 f_equal.
    apply bool_decide_ext. rewrite elem_of_app, list_elem_of_singleton. tauto.
Qed.

(** *** What an emit runs *)

Lemma handler_miss i data t : m_id data ≠ Some i → handler i data t = t.
Proof. intros Hne. unfold handler. by rewrite decide_False. Qed.

Lemma foldl_handler_miss data (l : list Z) t :
  (∀ j, j ∈ l → m_id data ≠ Some j) →
  foldl (λ t' j, handler j data t') t l = t.
Proof.
  revert t. induction l as [|j l IH]; intros t Hmiss; [done|]. cbn [foldl].
  rewrite handler_miss by (apply Hmiss, elem_of_cons; by left).
  apply IH. intros k Hk. apply Hmiss, elem_of_cons. by right.
Qed.

Lemma foldl_handler_hit data (l : list Z) i t :
  NoDup l → i ∈ l → m_id data = Some i →
  foldl (λ t' j, handler j data t') t l = handler i data t.
Proof.
  revert t. induction l as [|j l IH]; intros t Hnd Hin Hid.
  - by apply elem_of_nil in Hin.
  - apply NoDup_cons in Hnd as [Hj Hnd]. cbn [foldl].
    destruct (decide (j = i)) as [->|Hne].
    + apply foldl_handler_miss. intros k Hk Heq. rewrite Hid in Heq.
      injection Heq as ->. done.
    + rewrite (handler_miss j) by (rewrite Hid; congruence).
      apply IH; [done| |done]. apply elem_of_cons in Hin as [?|?]; [congruence|done].
Qed.

(** A frame whose id has no handler registered changes nothing. *)
Lemma emit_unheard data t :
  (∀ j, m_id data = Some j → j ∉ listeners t) → emit data t = t.
Proof.
  intros Hmiss. apply foldl_handler_miss. intros j Hj Hid. by apply (Hmiss j).
Qed.

Lemma emit_heard data i t :
  NoDup (listeners t) → i ∈ listeners t → m_id data = Some i →
  emit data t = handler i data t.
Proof. apply foldl_handler_hit. Qed.

(** *** The invariant *)

Lemma wf_fresh : wf fresh.
Proof.
  unfold wf, fresh. simpl. split; [apply NoDup_nil_2|].
  split; [intros j Hj; by apply elem_of_nil in Hj|].
  split; [intros j [x Hx]; by rewrite lookup_empty in Hx|].
  split; [intros j [x Hx]; by rewrite lookup_empty in Hx|].
  intros j s Hj. by apply elem_of_nil in Hj.
Qed.

Lemma wf_settle i s t : wf t → wf (settle i s t).
Proof.
  intros (Hnd & Hl & Ht & Hp & Hs). unfold settle.
  destruct (promises t !! i) as [[|]|] eqn:Hi; try done.
  unfold wf. simpl. repeat split; try done.
  - intros j [x Hx]. destruct (decide (i = j)) as [<-|Hne]; [apply Hp; by eexists|].
    rewrite lookup_insert_ne in Hx by done. apply Hp. by eexists.
  - intros j s' Hj. apply elem_of_app in Hj as [Hj|Hj]; [by eapply Hs|].
    apply list_elem_of_singleton in Hj as [= -> ->]. apply Hp. by eexists.
Qed.

Lemma wf_release i t : wf t → wf (off i (clearTimeout i t)).
Proof.
  intros (Hnd & Hl & Ht & Hp & Hs). unfold wf. simpl. repeat split; try done.
  - by apply NoDup_filter.
  - intros j Hj. apply list_elem_of_filter in Hj as [_ Hj]. by apply Hl.
  - intros j [x Hx]. destruct (decide (i = j)) as [<-|Hne].
    + by rewrite lookup_delete_eq in Hx.
    + rewrite lookup_delete_ne in Hx by done. apply Ht. by eexists.
Qed.

Lemma wf_handler i data t : wf t → wf (handler i data t).
Proof.
  intros Hwf. unfold handler. case_decide; [|done].
  destruct (m_error data); by apply wf_settle, wf_release.
Qed.

Lemma wf_timeout i t : wf t → wf (timeout i t).
Proof.
  intros Hwf. unfold timeout. destruct (timers t !! i); [|done].
  by apply wf_settle, wf_release.
Qed.

Lemma wf_emit data t : wf t → wf (emit data t).
Proof.
  unfold emit. generalize (listeners t) as l. intros l. revert t.
  induction l as [|j l IH]; intros t Hwf; [done|].
  cbn [foldl]. by apply IH, wf_handler.
Qed.

Lemma wf_call method params sendThrows t :
  wf t → wf (call method params sendThrows t).2.
Proof.
  intros (Hnd & Hl & Ht & Hp & Hs).
  assert (wf (Transport (idCounter t + 1) (listeners t ++ [idCounter t])
                (<[idCounter t := method]> (timers t))
                (<[idCounter t := Pending]> (promises t)) (outbox t) (settlements t)))
    as Hwf1.
  { unfold wf. simpl. repeat split.
    - apply NoDup_app. split; [done|]. split; [|apply NoDup_singleton].
      intros j Hj Hnew. apply list_elem_of_singleton in Hnew as ->.
      apply Hl in Hj. lia.
    - intros j Hj. apply elem_of_app in Hj as [Hj|Hj].
      + apply Hl in Hj. lia.
      + apply list_elem_of_singleton in Hj as ->. lia.
    - intros j [x Hx]. destruct (decide (idCounter t = j)) as [<-|Hne]; [lia|].
      rewrite lookup_insert_ne in Hx by done.
      assert (j < idCounter t) by (apply Ht; by eexists). lia.
    - intros j [x Hx]. destruct (decide (idCounter t = j)) as [<-|Hne]; [lia|].
      rewrite lookup_insert_ne in Hx by done.
      assert (j < idCounter t) by (apply Hp; by eexists). lia.
    - intros j s Hj. apply Hs in Hj. lia. }
  unfold call. destruct sendThrows as [e|]; simpl.
  - by apply wf_settle.
  - destruct Hwf1 as (? & ? & ? & ? & ?). unfold wf. simpl. done.
Qed.

Lemma wf_step t ev : wf t → wf (step t ev).
Proof.
  destruct ev; simpl; [apply wf_call|apply wf_emit|apply wf_timeout].
Qed.

Lemma wf_run t evs : wf t → wf (run t evs).
Proof.
  revert t. induction evs as [|ev evs IH]; intros t Hwf; [done|].
  apply IH. by apply wf_step.
Qed.

(** The counter never goes down. *)
Lemma idCounter_settle i s t : idCounter (settle i s t) = idCounter t.
Proof. unfold settle. by destruct (promises t !! i) as [[|]|]. Qed.

Lemma idCounter_handler i data t : idCounter (handler i data t) = idCounter t.
Proof.
  unfold handler. case_decide; [|done].
  destruct (m_error data); by rewrite idCounter_settle.
Qed.

Lemma idCounter_step t ev : idCounter t ≤ idCounter (step t ev).
Proof.
  destruct ev as [method params [e|]|data|j]; simpl.
  - rewrite idCounter_settle. simpl. lia.
  - lia.
  - unfold emit. generalize (listeners t) as l. intros l. revert t.
    induction l as [|k l IH]; intros t; [done|]. cbn [foldl].
    etransitivity; [|apply IH]. by rewrite idCounter_handler.
  - unfold timeout. destruct (timers t !! j); [|done].
    by rewrite idCounter_settle.
Qed.

(** *** The life of one call *)

Lemma view_release_own i t :
  view i (off i (clearTimeout i t)) = (promises t !! i, false, None, settlements_of i t).
Proof.
  unfold view, settlements_of. simpl. rewrite lookup_delete_eq.
  rewrite bool_decide_false; [done|].
  intros Hin. apply list_elem_of_filter in Hin as [Hne _]. done.
Qed.

Lemma view_settle_pending i s t b tm log :
  view i t = (Some Pending, b, tm, log) →
  view i (settle i s t) = (Some (Settled s), b, tm, log ++ [s]).
Proof.
  unfold view. intros [= Hp Hb Ht Hlog]. unfold settle. rewrite Hp.
  unfold settlements_of in *. simpl.
  rewrite lookup_insert_eq, settlements_of_snoc, decide_True by done.
  by rewrite Hb, Ht, Hlog.
Qed.

Lemma view_handler_pending i data t method :
  view i t = (Some Pending, true, Some method, []) →
  m_id data = Some i →
  view i (handler i data t) =
    (Some (Settled (verdict method (Recv data))), false, None,
     [verdict method (Recv data)]).
Proof.
  intros Hview Hid. unfold handler. rewrite decide_True by done.
  pose proof (view_release_own i t) as Hrel.
  injection Hview as Hp _ _ Hlog. rewrite Hp, Hlog in Hrel.
  simpl. destruct (m_error data); by rewrite (view_settle_pending _ _ _ _ _ _ Hrel).
Qed.

Lemma view_timeout_pending i t method :
  view i t = (Some Pending, true, Some method, []) →
  view i (timeout i t) =
    (Some (Settled (CallTimeout method)), false, None, [CallTimeout method]).
Proof.
  intros Hview. unfold timeout.
  pose proof (view_release_own i t) as Hrel.
  injection Hview as Hp _ Ht Hlog. rewrite Hp, Hlog in Hrel. rewrite Ht.
  by rewrite (view_settle_pending _ _ _ _ _ _ Hrel).
Qed.

Lemma view_emit_other i data t :
  wf t → m_id data ≠ Some i → view i (emit data t) = view i t.
Proof.
  intros Hwf Hne. destruct (m_id data) as [j|] eqn:Hid.
  - destruct (decide (j ∈ listeners t)) as [Hin|Hout].
    + rewrite (emit_heard data j) by (done || apply Hwf).
      apply view_handler_other. congruence.
    + rewrite emit_unheard; [done|]. intros k Hk. congruence.
  - rewrite emit_unheard; [done|]. intros k Hk. congruence.
Qed.

(** A fresh call is pending, listening and timed. *)
Lemma view_call_new method params t :
  wf t →
  view (idCounter t) (call method params None t).2 =
    (Some Pending, true, Some method, []).
Proof.
  intros (Hnd & Hl & Ht & Hp & Hs). unfold view, settlements_of. simpl.
  rewrite !lookup_insert_eq. rewrite bool_decide_true.
  2:{ apply elem_of_app. right. by apply list_elem_of_singleton. }
  do 2 f_equal.
  destruct (filter (λ p : Z * settlement, p.1 = idCounter t) (settlements t))
    as [|[j s] rest] eqn:Hf; [done|].
  assert ((j, s) ∈ filter (λ p : Z * settlement, p.1 = idCounter t) (settlements t))
    as Hin by (rewrite Hf; apply elem_of_cons; by left).
  apply list_elem_of_filter in Hin as [Heq Hin]. simpl in Heq. subst j.
  apply Hs in Hin. lia.
Qed.

(** While the call is pending, the only events that change what the
    transport holds about it are a frame with its id and its timer; each
    settles it and releases both registrations. *)
Lemma view_step_pending i method t ev :
  wf t → i < idCounter t →
  view i t = (Some Pending, true, Some method, []) →
  view i (step t ev) =
    if concerns i ev
    then (Some (Settled (verdict method ev)), false, None, [verdict method ev])
    else (Some Pending, true, Some method, []).
Proof.
  intros Hwf Hlt Hview. destruct ev as [m p st|data|j]; cbn [step concerns].
  - rewrite view_call_other by lia. done.
  - case_bool_decide as Hid.
    + rewrite (emit_heard data i); [by apply view_handler_pending|apply Hwf| |done].
      injection Hview as _ Hb _ _. by apply bool_decide_eq_true in Hb.
    + by rewrite view_emit_other.
  - case_bool_decide as Hj.
    + subst j. by apply view_timeout_pending.
    + by rewrite view_timeout_other.
Qed.

(** Once it has settled, nothing changes it any more. *)
Lemma view_step_settled i s t ev :
  wf t → i < idCounter t →
  view i t = (Some (Settled s), false, None, [s]) →
  view i (step t ev) = view i t.
Proof.
  intros Hwf Hlt Hview. destruct ev as [m p st|data|j]; simpl.
  - apply view_call_other. lia.
  - destruct (decide (m_id data = Some i)) as [Hid|Hne].
    + rewrite emit_unheard; [done|]. intros k Hk. rewrite Hid in Hk.
      injection Hk as <-. injection Hview as _ Hb _ _.
      by apply bool_decide_eq_false in Hb.
    + by apply view_emit_other.
  - destruct (decide (j = i)) as [->|Hne].
    + unfold timeout. injection Hview as _ _ Ht _. by rewrite Ht.
    + by apply view_timeout_other.
Qed.

Lemma view_run_settled i s evs t :
  wf t → i < idCounter t →
  view i t = (Some (Settled s), false, None, [s]) →
  view i (run t evs) = (Some (Settled s), false, None, [s]).
Proof.
  revert t. induction evs as [|ev evs IH]; intros t Hwf Hlt Hview; [done|].
  cbn [run foldl]. apply IH.
  - by apply wf_step.
  - pose proof (idCounter_step t ev). lia.
  - by rewrite (view_step_settled i s t ev Hwf Hlt Hview).
Qed.

Lemma view_run_pending i method evs t :
  wf t → i < idCounter t →
  view i t = (Some Pending, true, Some method, []) →
  view i (run t evs) =
    match find (concerns i) evs with
    | Some ev => (Some (Settled (verdict method ev)), false, None, [verdict method ev])
    | None => (Some Pending, true, Some method, [])
    end.
Proof.
  revert t. induction evs as [|ev evs IH]; intros t Hwf Hlt Hview; [done|].
  cbn [run foldl find].
  pose proof (view_step_pending i method t ev Hwf Hlt Hview) as Hstep.
  pose proof (idCounter_step t ev) as Hmono.
  destruct (concerns i ev).
  - apply view_run_settled; [by apply wf_step|lia|done].
  - apply IH; [by apply wf_step|lia|done].
Qed.

Lemma idCounter_call method params sendThrows t :
  (call method params sendThrows t).1 = idCounter t ∧
  idCounter (call method params sendThrows t).2 = idCounter t + 1.
Proof.
  unfold call. destruct sendThrows; simpl; [|done].
  by rewrite idCounter_settle.
Qed.

(** C5.  Take any transport reached from [let idCounter = 1] by calls,
    frames and timer firings, issue a call on it whose [ws.send] goes
    through, and let any further events follow.  If no frame with the
    call's id and no firing of its timer is among them, the call is
    pending, with its handler registered and its timer armed.
    Otherwise the first such event alone settled it (with the result
    for a frame without [error], with the error payload for a frame with
    one, with the timeout error for the timer), the log holds exactly
    that one settlement, neither the handler nor the timer is registered
    any more, and a later frame with the same id or a later firing
    leaves the whole transport as it is. *)
Theorem call_settles_once (before after : list event) (method : string) (params : payload) :
  let issued := call method params None (run fresh before) in
  let i := issued.1 in
  let t := run issued.2 after in
  match find (concerns i) after with
  | None =>
      promises t !! i = Some Pending ∧ settlements_of i t = [] ∧
      i ∈ listeners t ∧ timers t !! i = Some method
  | Some ev =>
      promises t !! i = Some (Settled (verdict method ev)) ∧
      settlements_of i t = [verdict method ev] ∧
      (i ∉ listeners t) ∧ timers t !! i = None ∧
      (∀ data, m_id data = Some i → emit data t = t) ∧
      timeout i t = t
  end.
Proof.
  intros issued i t.
  assert (wf (run fresh before)) as Hwf0 by (apply wf_run, wf_fresh).
  destruct (idCounter_call method params None (run fresh before)) as [Hi Hnext].
  fold issued in Hi, Hnext. fold i in Hi.
  assert (wf issued.2) as Hwf1 by (by apply wf_call).
  assert (view i issued.2 = (Some Pending, true, Some method, [])) as Hview.
  { rewrite Hi. by apply view_call_new. }
  pose proof (view_run_pending i method after issued.2 Hwf1 ltac:(lia) Hview) as Hrun.
  fold t in Hrun. unfold view in Hrun.
  destruct (find (concerns i) after) as [ev|]; injection Hrun as Hp Hb Ht Hlog.
  - apply bool_decide_eq_false in Hb.
    repeat split; try done.
    + intros data Hid. apply emit_unheard. intros k Hk. congruence.
    + unfold timeout. by rewrite Ht.
  - apply bool_decide_eq_true in Hb. done.
Qed.

End TransportFacts.

Section TransportRuns.
Import JS Wire Transport Samples.

Example call_resolved_once :
  let t := run fresh [Call "Runtime.enable" "{}" None; Recv (reply 1 "ok");
                      Recv (reply 1 "again"); Fire 1] in
  (promises t !! 1, listeners t, timers t !! 1, settlements t) =
  (Some (Settled (Resolved (Some "ok"))), [], None, [(1, Resolved (Some "ok"))]).
Proof. vm_compute. reflexivity. Qed.

Example call_timed_out_once :
  let t := run fresh [Call "Runtime.enable" "{}" None; Call "Runtime.evaluate" "{}" None;
                      Fire 2; Recv (reply 2 "late"); Recv (failure 1 "boom")] in
  (promises t !! 1, promises t !! 2, listeners t, settlements t) =
  (Some (Settled (RpcError "boom")), Some (Settled (CallTimeout "Runtime.evaluate")), [],
   [(2, CallTimeout "Runtime.evaluate"); (1, RpcError "boom")]).
Proof. vm_compute. reflexivity. Qed.

Lemma call_settles_once_witness :
  let t := run (call "Runtime.evaluate" "{}" None (run fresh [Call "Runtime.enable" "{}" None])).2
               [Recv (reply 2 "ok"); Fire 2] in
  promises t !! 2 = Some (Settled (Resolved (Some "ok"))) ∧
  emit (reply 2 "again") t = t.
Proof.
  pose proof (call_settles_once [Call "Runtime.enable" "{}" None]
                [Recv (reply 2 "ok"); Fire 2] "Runtime.evaluate" "{}") as H.
  cbv zeta in H. destruct H as (Hp & _ & _ & _ & Hignored & _).
  split; [exact Hp|]. apply Hignored. reflexivity.
Defined.

End TransportRuns.

(** ** [hashString] *)

Section HashFacts.
Import JS Server.

Lemma toInt32_range z : - 2^31 ≤ toInt32 z < 2^31.
Proof.
  unfold toInt32. pose proof (Z.mod_pos_bound (z + 2^31) (2^32)). lia.
Qed.

Lemma toInt32_id z : - 2^31 ≤ z < 2^31 → toInt32 z = z.
Proof.
  intros Hz. unfold toInt32. rewrite Z.mod_small by lia. lia.
Qed.

(** After every round the hash is a 32-bit integer, namely
    [31 * hash + char] wrapped around. *)
Lemma hashRound_wraps hash c :
  - 2^31 ≤ hash < 2^31 →
  hashRound hash c = toInt32 (31 * hash + charCode c).
Proof.
  intros Hh. unfold hashRound. rewrite Z.land_diag, (toInt32_id hash) by done.
  rewrite Z.shiftl_mul_pow2 by lia.
  rewrite (toInt32_id (toInt32 _)) by apply toInt32_range.
  unfold toInt32. f_equal.
  replace ((hash * 2^5 + 2^31) mod 2^32 - 2^31 - hash + charCode c + 2^31)
    with ((hash * 2^5 + 2^31) mod 2^32 + (charCode c - hash)) by lia.
  rewrite Zplus_mod_idemp_l. f_equal. lia.
Qed.

Lemma hashCode_range str : - 2^31 ≤ hashCode str < 2^31.
Proof.
  unfold hashCode. generalize (list_ascii_of_string str) as l. intros l.
  induction l as [|c l IH] using rev_ind; [cbn; lia|].
  rewrite foldl_snoc. unfold hashRound. apply toInt32_range.
Qed.

Lemma digits36_S fuel n acc :
  digits36 (S fuel) n acc =
    if n / 36 =? 0 then String (digit36 (n mod 36)) acc
    else digits36 fuel (n / 36) (String (digit36 (n mod 36)) acc).
Proof. reflexivity. Qed.

(** Seven base-36 digits are enough for a 32-bit magnitude: more fuel
    gives the same digits. *)
Lemma digits36_fuel fuel n acc :
  0 ≤ n < 36 ^ Z.of_nat fuel → (0 < fuel)%nat →
  digits36 (S fuel) n acc = digits36 fuel n acc.
Proof.
  revert n acc. induction fuel as [|fuel IH]; intros n acc Hn Hpos; [lia|].
  rewrite (digits36_S (S fuel) n acc), (digits36_S fuel n acc).
  destruct (n / 36 =? 0) eqn:Hq; [done|]. apply Z.eqb_neq in Hq.
  rewrite Nat2Z.inj_succ, Z.pow_succ_r in Hn by lia.
  destruct fuel as [|fuel].
  - exfalso. apply Hq. apply Z.div_small. cbn in Hn. lia.
  - apply IH; [|lia].
    split; [apply Z.div_pos; lia|]. apply Z.div_lt_upper_bound; lia.
Qed.

Lemma toString36_fuel str :
  hashString str =
    if hashCode str <? 0 then "-" +:+ digits36 8 (- hashCode str) EmptyString
    else digits36 8 (hashCode str) EmptyString.
Proof.
  unfold hashString, toString36. pose proof (hashCode_range str) as Hr.
  destruct (hashCode str <? 0) eqn:Hneg.
  - apply Z.ltb_lt in Hneg. rewrite (digits36_fuel 7); [done| |lia].
    change (36 ^ Z.of_nat 7) with 78364164096. lia.
  - apply Z.ltb_ge in Hneg. rewrite (digits36_fuel 7); [done| |lia].
    change (36 ^ Z.of_nat 7) with 78364164096. lia.
Qed.

End HashFacts.

(** ** The polling loop *)

Section PollingFacts.
Import JS Wire Server Polling.
Implicit Types (g : globals) (env : tick_env) (cdp : connection) (N : Z).

(** Evaluates the monadic code on a state given by its fields. *)
Ltac run_server :=
  cbv [pollTickWith pollBody pollCatch try_catch mbind M_bind bind mret M_ret ret
       get modify emit log await throw bumpFailCount hashString_of
       after effectsOf resultOf
       set_cdpConnection set_lastSnapshot set_lastSnapshotHash set_discoveredInstances
       set_activeTargetId set_cdpRetryCount set_snapshotFailCount
       cdpConnection lastSnapshot lastSnapshotHash discoveredInstances activeTargetId
       cdpRetryCount snapshotFailCount fst snd]; cbn [app].

Lemma broadcast_run cs ts g : broadcast cs ts g = (Normal tt, g, notices cs ts).
Proof.
  unfold notices. induction cs as [|c cs IH]; [done|].
  cbn [broadcast foldr]. fold (broadcast cs ts).
  cbv [mbind M_bind bind]. destruct (decide (readyState c = OPEN)) as [Hopen|Hshut].
  - rewrite filter_cons_True by done. cbv [emit]. rewrite IH. done.
  - rewrite filter_cons_False by done. cbv [ret]. rewrite IH. done.
Qed.

(** A failed capture: the counter goes up by one; at the threshold the
    connection is dropped and the counter starts over. *)
Lemma tick_failed N env r cdp ls lh di at' rc fc :
  capture env = Normal r → captureFailed r = true →
  pollTickWith N env (Globals (Some cdp) ls lh di at' rc fc) =
    if N <=? fc + 1
    then (Normal tt, Globals None ls lh di at' rc 0,
          [Console (failureLine r (fc + 1)); Console TooManyFailures])
    else (Normal tt, Globals (Some cdp) ls lh di at' rc (fc + 1),
          [Console (failureLine r (fc + 1))]).
Proof.
  intros Hc Hfail. run_server. rewrite Hc.
  destruct r as [snap|]; simpl in Hfail.
  - rewrite Hfail. run_server. by destruct (N <=? fc + 1).
  - run_server. by destruct (N <=? fc + 1).
Qed.

(** A successful capture: the counter is reset; payload and fingerprint
    are stored, and the clients notified, only for a new fingerprint. *)
Lemma tick_succeeded N env snap h cdp ls lh di at' rc fc :
  capture env = Normal (Some snap) → truthy (error snap) = false → html snap = Some h →
  0 < N →
  pollTickWith N env (Globals (Some cdp) ls lh di at' rc fc) =
    if decide (Some (hashString h) ≠ lh)
    then (Normal tt, Globals (Some cdp) (Some snap) (Some (hashString h)) di at' rc 0,
          notices (clients env) (now env) ++ [Console (SnapshotUpdated (hashString h))])
    else (Normal tt, Globals (Some cdp) ls lh di at' rc 0, []).
Proof.
  intros Hc Herr Hhtml HN. run_server. rewrite Hc, Herr, Hhtml.
  assert ((N <=? 0) = false) as HN0 by (apply Z.leb_gt; lia).
  run_server. destruct (decide (Some (hashString h) ≠ lh)).
  - rewrite broadcast_run. rewrite HN0. by rewrite !app_nil_r.
  - rewrite HN0. done.
Qed.

(** A payload that passes for a success but has no [html]: the counter
    is reset, [hashString] throws, and the [catch] clause counts one
    failure. *)
Lemma tick_without_html N env snap cdp ls lh di at' rc fc :
  capture env = Normal (Some snap) → truthy (error snap) = false → html snap = None →
  pollTickWith N env (Globals (Some cdp) ls lh di at' rc fc) =
    (Normal tt, Globals (Some cdp) ls lh di at' rc 1,
     [Console (PollError (Some "Cannot read properties of undefined (reading 'length')"))]).
Proof.
  intros Hc Herr Hhtml. run_server. rewrite Hc, Herr, Hhtml. run_server.
  change (isSocketError (Error "Cannot read properties of undefined (reading 'length')"))
    with false.
  reflexivity.
Qed.

(** A capture that throws: the counter goes up by one, and the
    connection is dropped at once if the message names the socket. *)
Lemma tick_threw N env e cdp ls lh di at' rc fc :
  capture env = Abrupt e →
  pollTickWith N env (Globals (Some cdp) ls lh di at' rc fc) =
    if isSocketError e
    then (Normal tt, Globals None ls lh di at' rc (fc + 1),
          [Console (PollError (message e)); Console SocketDisconnected])
    else (Normal tt, Globals (Some cdp) ls lh di at' rc (fc + 1),
          [Console (PollError (message e))]).
Proof.
  intros Hc. run_server. rewrite Hc. run_server. by destruct (isSocketError e).
Qed.

Lemma bind_get {A} (k : globals → M A) g : (g' ← get; k g') g = k g g.
Proof. cbv [mbind M_bind bind get]. by destruct (k g g) as [[r g2] w2]. Qed.

(** Without a connection a tick captures nothing: it runs [initCDP]. *)
Lemma tick_disconnected N env g :
  cdpConnection g = None →
  pollTickWith N env g = (log NoConnection;; _ ← initCDP (reconnect env); ret tt) g.
Proof. intros Hnone. unfold pollTickWith. by rewrite bind_get, Hnone. Qed.

(** *** Reconnecting *)

(** One round of [initCDP] never throws.  When discovery and connect
    succeed it stores the connection and zeroes both counters; when
    either fails it counts a retry and keeps the connection slot. *)
Lemma attemptOnce_run a conn0 ls lh di at' rc fc :
  ∃ w, attemptOnce a (Globals conn0 ls lh di at' rc fc) =
    match a_discover a with
    | Normal info =>
        match a_connect a (Discovery.url info) with
        | Normal cdp =>
            (Normal true,
             Globals (Some cdp) ls lh
               (match a_discoverAll a with Normal l => l | Abrupt _ => di end)
               (if truthy (Some (Discovery.id info)) then Some (Discovery.id info) else None)
               0 0, w)
        | Abrupt _ => (Normal false, Globals conn0 ls lh di at' (rc + 1) fc, w)
        end
    | Abrupt _ => (Normal false, Globals conn0 ls lh di at' (rc + 1) fc, w)
    end.
Proof.
  unfold attemptOnce, connectCDP. run_server.
  destruct (a_discover a) as [info|e]; run_server; [|by eexists].
  destruct (a_connect a (Discovery.url info)) as [cdp|e]; run_server; [|by eexists].
  destruct (a_discoverAll a) as [l|e]; run_server; by eexists.
Qed.

Lemma initCDP_loop_normal fuel reconnect k g :
  ∃ b g' w, initCDP_loop fuel reconnect k g = (Normal b, g', w).
Proof.
  revert k g. induction fuel as [|fuel IH]; intros k g.
  - cbn [initCDP_loop]. rewrite bind_get.
    destruct (cdpRetryCount g <? MAX_CDP_RETRIES); by eexists _, _, _.
  - cbn [initCDP_loop]. rewrite bind_get.
    destruct (cdpRetryCount g <? MAX_CDP_RETRIES); [|by eexists _, _, _].
    destruct g as [conn0 ls lh di at' rc fc].
    destruct (attemptOnce_run (reconnect k) conn0 ls lh di at' rc fc) as [w Hrun].
    cbv [mbind M_bind bind]. rewrite Hrun.
    destruct (a_discover (reconnect k)) as [info|e].
    + destruct (a_connect (reconnect k) (Discovery.url info)) as [cdp|e].
      * by eexists _, _, _.
      * destruct (IH (S k) (Globals conn0 ls lh di at' (rc + 1) fc)) as (b & g' & w' & ->).
        by eexists _, _, _.
    + destruct (IH (S k) (Globals conn0 ls lh di at' (rc + 1) fc)) as (b & g' & w' & ->).
      by eexists _, _, _.
Qed.

Lemma initCDP_normal reconnect g : ∃ b g' w, initCDP reconnect g = (Normal b, g', w).
Proof. unfold initCDP. rewrite bind_get. apply initCDP_loop_normal. Qed.

(** The fuel [initCDP] starts its loop with is never used up: more
    fuel changes nothing, so the loop always ends through its own
    condition or its [return true]. *)
Lemma initCDP_loop_fuel fuel fuel' reconnect k g :
  MAX_CDP_RETRIES - cdpRetryCount g ≤ Z.of_nat fuel →
  MAX_CDP_RETRIES - cdpRetryCount g ≤ Z.of_nat fuel' →
  initCDP_loop fuel reconnect k g = initCDP_loop fuel' reconnect k g.
Proof.
  revert fuel' k g. induction fuel as [|fuel IH]; intros fuel' k g Hfuel Hfuel'.
  - assert ((cdpRetryCount g <? MAX_CDP_RETRIES) = false) as Hltb
      by (apply Z.ltb_ge; lia).
    destruct fuel'; cbn [initCDP_loop]; by rewrite !bind_get, Hltb.
  - destruct (cdpRetryCount g <? MAX_CDP_RETRIES) eqn:Hltb.
    + apply Z.ltb_lt in Hltb. destruct fuel' as [|fuel']; [lia|].
      cbn [initCDP_loop]. rewrite !bind_get.
      assert ((cdpRetryCount g <? MAX_CDP_RETRIES) = true) as -> by (apply Z.ltb_lt; lia).
      destruct g as [conn0 ls lh di at' rc fc].
      destruct (attemptOnce_run (reconnect k) conn0 ls lh di at' rc fc) as [w Hrun].
      cbv [mbind M_bind bind]. rewrite Hrun. cbn [cdpRetryCount] in *.
      assert (initCDP_loop fuel reconnect (S k) (Globals conn0 ls lh di at' (rc + 1) fc) =
              initCDP_loop fuel' reconnect (S k) (Globals conn0 ls lh di at' (rc + 1) fc))
        as Hrest by (apply IH; cbn [cdpRetryCount]; lia).
      destruct (a_discover (reconnect k)) as [info|e]; [|by rewrite Hrest].
      destruct (a_connect (reconnect k) (Discovery.url info)) as [cdp|e]; [done|].
      by rewrite Hrest.
    + destruct fuel'; cbn [initCDP_loop]; by rewrite !bind_get, Hltb.
Qed.

(** With the retries used up, [initCDP] gives up without an attempt. *)
Lemma initCDP_exhausted reconnect g :
  MAX_CDP_RETRIES ≤ cdpRetryCount g →
  initCDP reconnect g = (Normal false, g, [Console GaveUp]).
Proof.
  intros Hmax. unfold initCDP. rewrite bind_get.
  assert ((cdpRetryCount g <? MAX_CDP_RETRIES) = false) as Hltb by (apply Z.ltb_ge; lia).
  destruct (Z.to_nat (MAX_CDP_RETRIES - cdpRetryCount g)); cbn [initCDP_loop];
    rewrite bind_get, Hltb; reflexivity.
Qed.

(** A tick never throws, whatever the probe and the network do. *)
Lemma pollTick_never_throws N env g : ∃ g' w, pollTickWith N env g = (Normal tt, g', w).
Proof.
  destruct (cdpConnection g) as [cdp|] eqn:Hconn.
  - destruct g as [conn ls lh di at' rc fc]. cbn in Hconn. subst conn.
    destruct (capture env) as [r|e] eqn:Hc.
    + destruct (captureFailed r) eqn:Hr.
      * rewrite (tick_failed N env r cdp ls lh di at' rc fc Hc Hr).
        destruct (N <=? fc + 1); by eexists _, _.
      * destruct r as [snap|]; [|done]. cbn in Hr. run_server. rewrite Hc, Hr.
        destruct (html snap) as [h|]; run_server.
        -- destruct (decide (Some (hashString h) ≠ lh)); [rewrite broadcast_run|];
             destruct (N <=? 0); by eexists _, _.
        -- destruct (isSocketError _); by eexists _, _.
    + rewrite (tick_threw N env e cdp ls lh di at' rc fc Hc).
      destruct (isSocketError e); by eexists _, _.
  - rewrite (tick_disconnected N env g Hconn).
    destruct (initCDP_normal (reconnect env) g) as (b & g' & w & Hrun).
    cbv [mbind M_bind bind log emit ret]. rewrite Hrun. by eexists _, _.
Qed.

(** *** Runs of ticks *)

Lemma pollTicks_cons N env envs g g1 w1 :
  pollTickWith N env g = (Normal tt, g1, w1) →
  pollTicks N (env :: envs) g =
    match pollTicks N envs g1 with
    | (r, g2, w2) => (r, g2, w1 ++ w2)
    end.
Proof.
  intros Htick. cbn [pollTicks foldr]. fold (pollTicks N envs).
  cbv [mbind M_bind bind]. by rewrite Htick.
Qed.

Lemma pollTicks_app N envs1 envs2 g g1 w1 :
  pollTicks N envs1 g = (Normal tt, g1, w1) →
  pollTicks N (envs1 ++ envs2) g =
    match pollTicks N envs2 g1 with
    | (r, g2, w2) => (r, g2, w1 ++ w2)
    end.
Proof.
  revert g w1. induction envs1 as [|env envs1 IH]; intros g w1 Hrun.
  - injection Hrun as <- <-. cbn [app]. by destruct (pollTicks N envs2 g) as [[r g2] w2].
  - cbn [pollTicks foldr] in Hrun. fold (pollTicks N envs1) in Hrun.
    cbv [mbind M_bind bind] in Hrun.
    destruct (pollTickWith N env g) as [[[[]|e] g0] w0] eqn:Htick; [|done].
    destruct (pollTicks N envs1 g0) as [[r' g'] w'] eqn:Hrest.
    injection Hrun as -> -> <-.
    rewrite <- app_comm_cons, (pollTicks_cons _ _ _ _ _ _ Htick).
    rewrite (IH _ _ Hrest).
    destruct (pollTicks N envs2 g1) as [[r2 g2] w2]. by rewrite app_assoc.
Qed.

Lemma teardownsIn_app w1 w2 :
  teardownsIn (w1 ++ w2) = (teardownsIn w1 + teardownsIn w2)%nat.
Proof. unfold teardownsIn. by rewrite List.filter_app, length_app. Qed.

Lemma sendsIn_app w1 w2 : sendsIn (w1 ++ w2) = sendsIn w1 ++ sendsIn w2.
Proof. apply List.filter_app. Qed.

Lemma fails_inv env :
  fails env = true → ∃ r, capture env = Normal r ∧ captureFailed r = true.
Proof. unfold fails. destruct (capture env) as [r|e]; [by exists r|done]. Qed.

Lemma succeeds_inv env :
  succeeds env = true →
  ∃ snap h, capture env = Normal (Some snap) ∧ truthy (error snap) = false ∧
            html snap = Some h.
Proof.
  unfold succeeds. destruct (capture env) as [[snap|]|e]; try done.
  intros [Herr Hhtml]%andb_true_iff.
  apply negb_true_iff in Herr. apply bool_decide_eq_true in Hhtml as [h Hh].
  by exists snap, h.
Qed.

Lemma failureLine_quiet r n w :
  teardownsIn (Console (failureLine r n) :: w) = teardownsIn w ∧
  sendsIn (Console (failureLine r n) :: w) = sendsIn w.
Proof. by destruct r. Qed.

(** Fewer failures in a row than the threshold allows: the counter
    counts them and nothing else happens. *)
Lemma failures_below N envs cdp ls lh di at' rc fc :
  Forall (λ env, fails env = true) envs →
  fc + Z.of_nat (length envs) < N →
  ∃ w, pollTicks N envs (Globals (Some cdp) ls lh di at' rc fc) =
         (Normal tt, Globals (Some cdp) ls lh di at' rc (fc + Z.of_nat (length envs)), w) ∧
       teardownsIn w = 0%nat ∧ sendsIn w = [].
Proof.
  intros Hall. revert fc. induction Hall as [|env envs Hfail _ IH]; intros fc Hlt.
  - exists []. cbn [length]. by rewrite Z.add_0_r.
  - cbn [length] in *. apply fails_inv in Hfail as (r & Hc & Hr).
    pose proof (tick_failed N env r cdp ls lh di at' rc fc Hc Hr) as Htick.
    assert ((N <=? fc + 1) = false) as Hleb by (apply Z.leb_gt; lia).
    rewrite Hleb in Htick.
    destruct (IH (fc + 1)) as (w & Hrun & Htd & Hsend); [lia|].
    eexists. rewrite (pollTicks_cons _ _ _ _ _ _ Htick), Hrun.
    split; [do 3 f_equal; lia|].
    cbn [app]. destruct (failureLine_quiet r (fc + 1) w) as [-> ->]. done.
Qed.

(** Exactly as many failures in a row as the threshold: the last one
    drops the connection and resets the counter. *)
Lemma failures_reach N envs cdp ls lh di at' rc :
  0 < N →
  Forall (λ env, fails env = true) envs →
  Z.of_nat (length envs) = N →
  ∃ w, pollTicks N envs (Globals (Some cdp) ls lh di at' rc 0) =
         (Normal tt, Globals None ls lh di at' rc 0, w) ∧
       teardownsIn w = 1%nat ∧ sendsIn w = [].
Proof.
  intros HN Hall Hlen.
  destruct envs as [|env0 envs0] using rev_ind; [cbn [length] in Hlen; lia|].
  clear IHenvs0. rewrite length_app in Hlen. cbn [length] in Hlen.
  apply Forall_app in Hall as [Hall Hlast]. apply Forall_inv in Hlast.
  destruct (failures_below N envs0 cdp ls lh di at' rc 0 Hall) as (w & Hrun & Htd & Hsend);
    [lia|].
  apply fails_inv in Hlast as (r & Hc & Hr).
  pose proof (tick_failed N env0 r cdp ls lh di at' rc
                (0 + Z.of_nat (length envs0)) Hc Hr) as Htick.
  assert ((N <=? 0 + Z.of_nat (length envs0) + 1) = true) as Hleb
    by (apply Z.leb_le; lia).
  rewrite Hleb in Htick.
  eexists. rewrite (pollTicks_app _ _ _ _ _ _ Hrun).
  rewrite (pollTicks_cons _ _ [] _ _ _ Htick). cbn [pollTicks foldr]. cbv [ret].
  split; [done|].
  rewrite teardownsIn_app, sendsIn_app, Htd, Hsend, app_nil_r.
  destruct (failureLine_quiet r (0 + Z.of_nat (length envs0) + 1)
              [Console TooManyFailures]) as [-> ->]. done.
Qed.

(** Ticks that run one after the other, each ended before the next
    begins, with threshold [N] and a connection in place: a failed
    capture (null, or a payload with a truthy [error]) raises the
    counter by one, and at the threshold drops the connection, logs the
    teardown once and resets the counter; a successful capture resets
    the counter and tears nothing down.  Hence, starting from counter
    zero, fewer than [N] failures in a row tear nothing down, exactly
    [N] tear down exactly once, on the last of them, after which the
    next tick runs [initCDP] instead of a capture; and up to [N-1]
    failures, a success and up to [N-1] failures again tear nothing
    down.  Part III has the ticks that overlap. *)
Theorem failure_threshold_teardown N g cdp :
  0 < N → cdpConnection g = Some cdp →
  (∀ env, fails env = true →
     let g' := after (pollTickWith N env) g in
     let w := effectsOf (pollTickWith N env) g in
     if N <=? snapshotFailCount g + 1
     then cdpConnection g' = None ∧ snapshotFailCount g' = 0 ∧ teardownsIn w = 1%nat
     else cdpConnection g' = Some cdp ∧
          snapshotFailCount g' = snapshotFailCount g + 1 ∧ teardownsIn w = 0%nat) ∧
  (∀ env, succeeds env = true →
     let g' := after (pollTickWith N env) g in
     cdpConnection g' = Some cdp ∧ snapshotFailCount g' = 0 ∧
     teardownsIn (effectsOf (pollTickWith N env) g) = 0%nat) ∧
  (snapshotFailCount g = 0 →
   ∀ envs, Forall (λ env, fails env = true) envs →
     let g' := after (pollTicks N envs) g in
     let w := effectsOf (pollTicks N envs) g in
     (Z.of_nat (length envs) < N →
        cdpConnection g' = Some cdp ∧
        snapshotFailCount g' = Z.of_nat (length envs) ∧ teardownsIn w = 0%nat) ∧
     (Z.of_nat (length envs) = N →
        cdpConnection g' = None ∧ snapshotFailCount g' = 0 ∧ teardownsIn w = 1%nat ∧
        ∀ env, pollTickWith N env g' =
                 (log NoConnection;; _ ← initCDP (reconnect env); ret tt) g')) ∧
  (snapshotFailCount g = 0 →
   ∀ envs1 ok envs2,
     Forall (λ env, fails env = true) envs1 → succeeds ok = true →
     Forall (λ env, fails env = true) envs2 →
     Z.of_nat (length envs1) < N → Z.of_nat (length envs2) < N →
     cdpConnection (after (pollTicks N (envs1 ++ ok :: envs2)) g) = Some cdp ∧
     teardownsIn (effectsOf (pollTicks N (envs1 ++ ok :: envs2)) g) = 0%nat).
Proof.
  intros HN Hconn. destruct g as [conn ls lh di at' rc fc]. cbn in Hconn. subst conn.
  cbn [snapshotFailCount]. split; [|split; [|split]].
  - intros env (r & Hc & Hr)%fails_inv.
    unfold after, effectsOf. rewrite (tick_failed N env r cdp ls lh di at' rc fc Hc Hr).
    destruct (N <=? fc + 1); cbn [fst snd cdpConnection snapshotFailCount];
      destruct (failureLine_quiet r (fc + 1) [Console TooManyFailures]) as [Ha _];
      destruct (failureLine_quiet r (fc + 1) []) as [Hb _]; by rewrite ?Ha, ?Hb.
  - intros env (snap & h & Hc & Herr & Hhtml)%succeeds_inv.
    unfold after, effectsOf.
    rewrite (tick_succeeded N env snap h cdp ls lh di at' rc fc Hc Herr Hhtml HN).
    destruct (decide (Some (hashString h) ≠ lh)); cbn [fst snd cdpConnection snapshotFailCount];
      repeat split; try done.
    rewrite teardownsIn_app. unfold notices, teardownsIn.
    induction (filter (λ c, readyState c = OPEN) (clients env)) as [|c cs IH]; [done|].
    done.
  - intros -> envs Hall. unfold after, effectsOf. split.
    + intros Hlt.
      destruct (failures_below N envs cdp ls lh di at' rc 0 Hall) as (w & -> & Htd & _);
        [lia|]. done.
    + intros Hlen.
      destruct (failures_reach N envs cdp ls lh di at' rc HN Hall Hlen) as (w & -> & Htd & _).
      cbn [fst snd cdpConnection snapshotFailCount].
      split; [done|]. split; [done|]. split; [done|]. intros env.
      by apply tick_disconnected.
  - intros -> envs1 ok envs2 Hall1 Hok Hall2 Hlen1 Hlen2.
    unfold after, effectsOf.
    destruct (failures_below N envs1 cdp ls lh di at' rc 0 Hall1) as (w1 & Hrun1 & Htd1 & _);
      [lia|].
    apply succeeds_inv in Hok as (snap & h & Hc & Herr & Hhtml).
    pose proof (tick_succeeded N ok snap h cdp ls lh di at' rc
                  (0 + Z.of_nat (length envs1)) Hc Herr Hhtml HN) as Htick.
    rewrite (pollTicks_app _ _ _ _ _ _ Hrun1).
    destruct (decide (Some (hashString h) ≠ lh)).
    + rewrite (pollTicks_cons _ _ _ _ _ _ Htick).
      destruct (failures_below N envs2 cdp (Some snap) (Some (hashString h)) di at' rc 0 Hall2)
        as (w2 & -> & Htd2 & _); [lia|].
      cbn [fst snd cdpConnection]. split; [done|].
      rewrite !teardownsIn_app, Htd1, Htd2. unfold notices, teardownsIn.
      induction (filter (λ c, readyState c = OPEN) (clients ok)) as [|c cs IH]; done.
    + rewrite (pollTicks_cons _ _ _ _ _ _ Htick).
      destruct (failures_below N envs2 cdp ls lh di at' rc 0 Hall2)
        as (w2 & -> & Htd2 & _); [lia|].
      cbn [fst snd cdpConnection]. split; [done|].
      by rewrite !teardownsIn_app, Htd1, Htd2.
Qed.

(** *** Change detection *)

Lemma sendsIn_notices cs ts : sendsIn (notices cs ts) = notices cs ts.
Proof.
  unfold notices. induction (filter (λ c, readyState c = OPEN) cs) as [|c l IH]; [done|].
  rewrite fmap_cons. cbn [sendsIn List.filter isSend]. f_equal. exact IH.
Qed.

Lemma elem_of_notices e cs ts :
  e ∈ notices cs ts ↔
  ∃ c, c ∈ cs ∧ readyState c = OPEN ∧
       e = ClientSend (cl_id c) (Notification "snapshot_update" ts).
Proof.
  unfold notices. rewrite list_elem_of_fmap. split.
  - intros (c & -> & Hc). apply list_elem_of_filter in Hc as [Hopen Hc]. by exists c.
  - intros (c & Hc & Hopen & ->). exists c. split; [done|]. by apply list_elem_of_filter.
Qed.



(** What the [catch] clause of the tick is there for: should the awaited
    capture throw an error whose message names the socket (it contains
    'WebSocket' or 'close'), the connection is dropped on that very
    tick, whatever the failure counter says; the counter only goes up by
    one, and the next tick runs [initCDP]. *)
Lemma socket_error_disconnects_at_once g cdp env e :
  cdpConnection g = Some cdp →
  capture env = Abrupt e → isSocketError e = true →
  let g' := after (pollTick env) g in
  cdpConnection g' = None ∧
  snapshotFailCount g' = snapshotFailCount g + 1 ∧
  effectsOf (pollTick env) g =
    [Console (PollError (message e)); Console SocketDisconnected] ∧
  ∀ env', pollTick env' g' = (log NoConnection;; _ ← initCDP (reconnect env'); ret tt) g'.
Proof.
  intros Hconn Hc Hsock. destruct g as [conn ls lh di at' rc fc].
  cbn in Hconn. subst conn. unfold after, effectsOf, pollTick.
  rewrite (tick_threw MAX_SNAPSHOT_FAILS env e cdp ls lh di at' rc fc Hc), Hsock.
  cbn [fst snd cdpConnection snapshotFailCount].
  split; [done|]. split; [done|]. split; [done|].
  intros env'. by apply tick_disconnected.
Qed.

(** *** The loop with the probe of [server.js] *)

Lemma sweep_keeps_clean ev (acc : option snapshot * Z) ctx :
  (∀ snap, acc.1 = Some snap → truthy (error snap) = false) →
  ∀ snap, (Capture.sweep ev acc ctx).1 = Some snap → truthy (error snap) = false.
Proof.
  intros Hacc snap. unfold Capture.sweep.
  destruct (Capture.probeResult ev (ctx_id ctx)) as [[i|]|e]; try apply Hacc.
  destruct (Capture.snapResult ev (ctx_id ctx)) as [[snap'|]|e]; try apply Hacc.
  destruct (truthy (error snap')) eqn:Herr; [apply Hacc|].
  destruct (acc.2 <? Capture.score i); [|apply Hacc].
  cbn [fst]. by intros [= <-].
Qed.

(** [captureSnapshot] never throws, and never returns a payload with a
    truthy [error]: it returns [null] or a clean payload. *)
Lemma captureSnapshot_returns ev cdp :
  ∃ r, Capture.captureSnapshot ev cdp = Normal r ∧
       ∀ snap, r = Some snap → truthy (error snap) = false.
Proof.
  unfold Capture.captureSnapshot. eexists. split; [reflexivity|].
  generalize (contexts cdp) as l. intros l.
  assert (∀ snap, ((None, -1000) : option snapshot * Z).1 = Some snap →
                  truthy (error snap) = false) as Hinit by done.
  revert Hinit. generalize ((None, -1000) : option snapshot * Z) as acc.
  induction l as [|ctx l IH]; intros acc Hacc; [exact Hacc|].
  cbn [foldl]. apply IH. by apply sweep_keeps_clean.
Qed.

(** On a socket whose every call rejects it returns [null]. *)
Lemma captureSnapshot_dead ev cdp :
  (∀ i, ∃ e, Capture.probeResult ev i = Abrupt e) →
  Capture.captureSnapshot ev cdp = Normal None.
Proof.
  intros Hdead. unfold Capture.captureSnapshot. f_equal.
  generalize (-1000) as m. induction (contexts cdp) as [|ctx l IH]; intros m; [done|].
  cbn [foldl]. unfold Capture.sweep at 2.
  destruct (Hdead (ctx_id ctx)) as [e ->]. apply IH.
Qed.

(** So, with [captureSnapshot] as the probe, the [catch] clause of the
    tick is not reached: the connection is dropped by a tick exactly
    when the capture is [null] and the counter reaches the threshold. *)
Lemma tick_with_captureSnapshot N env ev cdp' g cdp :
  0 < N → cdpConnection g = Some cdp →
  capture env = Capture.captureSnapshot ev cdp' →
  (cdpConnection (after (pollTickWith N env) g) = None ↔
   capture env = Normal None ∧ N ≤ snapshotFailCount g + 1) ∧
  Console SocketDisconnected ∉ effectsOf (pollTickWith N env) g.
Proof.
  intros HN Hconn Hprobe. destruct g as [conn ls lh di at' rc fc].
  cbn in Hconn. subst conn. cbn [snapshotFailCount].
  destruct (captureSnapshot_returns ev cdp') as (r & Hr & Hclean).
  rewrite Hr in Hprobe. unfold after, effectsOf.
  destruct r as [snap|].
  - pose proof (Hclean snap eq_refl) as Herr.
    destruct (html snap) as [h|] eqn:Hhtml.
    + rewrite (tick_succeeded N env snap h cdp ls lh di at' rc fc Hprobe Herr Hhtml HN).
      destruct (decide (Some (hashString h) ≠ lh)); cbn [fst snd cdpConnection].
      * split; [split; [done|by intros [? _]; congruence]|].
        rewrite elem_of_app, elem_of_notices, list_elem_of_singleton.
        intros [(c & _ & _ & ?)|?]; done.
      * split; [split; [done|by intros [? _]; congruence]|]. apply not_elem_of_nil.
    + rewrite (tick_without_html N env snap cdp ls lh di at' rc fc Hprobe Herr Hhtml).
      cbn [fst snd cdpConnection].
      split; [split; [done|by intros [? _]; congruence]|].
      rewrite !elem_of_cons. intros [?|?%elem_of_nil]; done.
  - rewrite (tick_failed N env None cdp ls lh di at' rc fc Hprobe eq_refl).
    destruct (Z.leb_spec N (fc + 1)); cbn [fst snd cdpConnection].
    + split; [by split|].
      rewrite !elem_of_cons. intros [?|[?|?%elem_of_nil]]; done.
    + split; [split; [done|intros [_ ?]; lia]|].
      rewrite !elem_of_cons. intros [?|?%elem_of_nil]; done.
Qed.

End PollingFacts.

(** ** Status query and instance switch *)

Section SessionFacts.
Import JS Wire Server Discovery Instances.
Implicit Types (g : globals) (env : switch_env).

Ltac run_handler :=
  cbv [postInstance closeSocket connectCDP getCDPStatus
       try_catch mbind M_bind bind mret M_ret ret get modify emit log await throw
       set_cdpConnection set_lastSnapshot set_lastSnapshotHash set_discoveredInstances
       set_activeTargetId set_cdpRetryCount set_snapshotFailCount
       cdpConnection lastSnapshot lastSnapshotHash discoveredInstances activeTargetId
       cdpRetryCount snapshotFailCount fst snd]; cbn [app].

(** What [getCDPStatus] evaluates to. *)
Lemma getCDPStatus_run g :
  getCDPStatus g =
    (Normal (Status (bool_decide (is_Some (cdpConnection g)))
               (from_option (λ cdp, Z.of_nat (length (contexts cdp))) 0 (cdpConnection g))
               (cdpRetryCount g)),
     g, []).
Proof.
  destruct g as [[cdp|] ls lh di at' rc fc]; run_handler; cbn [from_option]; [|done].
  destruct (Z.of_nat (length (contexts cdp)) =? 0) eqn:Hz; [|done].
  apply Z.eqb_eq in Hz. by rewrite Hz.
Qed.

(** C9.  [getCDPStatus] returns in every state, without throwing and
    without touching the state: [connected] tells whether a connection
    is stored, [contextCount] is the number of contexts of the stored
    connection and [0] without one, [retryCount] is the retry counter.
    Without a connection the record is [{connected: false,
    contextCount: 0, retryCount}]; no error is passed on. *)
Theorem getCDPStatus_total g :
  ∃ st, getCDPStatus g = (Normal st, g, []) ∧
        connected st = bool_decide (is_Some (cdpConnection g)) ∧
        contextCount st =
          from_option (λ cdp, Z.of_nat (length (contexts cdp))) 0 (cdpConnection g) ∧
        retryCount st = cdpRetryCount g ∧
        0 ≤ contextCount st ∧
        (cdpConnection g = None → st = Status false 0 (cdpRetryCount g)).
Proof.
  eexists. split; [apply getCDPStatus_run|]. cbn [connected contextCount retryCount].
  split; [done|]. split; [done|]. split; [done|]. split.
  - destruct (cdpConnection g); cbn [from_option]; lia.
  - by intros ->.
Qed.

(** The instance list [POST /instance] searches: the stored one, or a
    fresh discovery when nothing is stored. *)
Lemma postInstance_found g env targetId target :
  truthy targetId = true →
  find (λ i, bool_decide (Some (i_id i) = targetId))
       (if decide (length (discoveredInstances g) = 0%nat)
        then sw_discoverAll env else discoveredInstances g) = Some target →
  postInstance targetId env g =
    let known := if decide (length (discoveredInstances g) = 0%nat)
                 then sw_discoverAll env else discoveredInstances g in
    let closing := match cdpConnection g with
                   | Some old => [WsClose (ws old)]
                   | None => []
                   end in
    let opening := [Console (Switching (i_title target)); WsOpen (i_url target)] in
    match sw_connect env (i_url target) with
    | Normal new =>
        (Normal (Response 200 (SuccessBody (Some (i_id target)) (i_title target))),
         Globals (Some new) None None known (Some (i_id target)) 0 0,
         closing ++ opening ++ [Console (SwitchedTo (i_title target))])
    | Abrupt e =>
        (Normal (Response 500 (ErrorBody (message e))),
         Globals None None None known (activeTargetId g)
           (cdpRetryCount g) (snapshotFailCount g),
         closing ++ opening ++ [Console SwitchError])
    end.
Proof.
  intros Hid Hfind. destruct g as [conn ls lh di at' rc fc].
  cbn [discoveredInstances cdpConnection activeTargetId cdpRetryCount snapshotFailCount] in *.
  unfold postInstance. rewrite Hid. cbn [negb].
  destruct (decide (length di = 0%nat)) as [Hempty|Hknown].
  - run_handler. rewrite decide_True by done. run_handler. rewrite Hfind.
    destruct conn as [old|]; [destruct (sw_close env)|];
      destruct (sw_connect env (i_url target)); reflexivity.
  - run_handler. rewrite decide_False by done. run_handler. rewrite Hfind.
    destruct conn as [old|]; [destruct (sw_close env)|];
      destruct (sw_connect env (i_url target)); reflexivity.
Qed.

(** [POST /instance] for a target id that is found, run from its
    start to its answer with no other function of the server in
    between, in any state and whatever [ws.close()] does: the handler
    does not throw; if a
    connection is stored its socket is closed, and that happens before
    the new socket is opened, while without one nothing is closed; the
    stored connection, payload and fingerprint are dropped before the
    connect.  When the connect succeeds, the new connection is stored,
    both counters are zero, and [getCDPStatus] reports the context count
    of the new connection.  When it fails, no connection is stored and
    the status says so. *)
Theorem switch_replaces_session g env targetId target :
  truthy targetId = true →
  find (λ i, bool_decide (Some (i_id i) = targetId))
       (if decide (length (discoveredInstances g) = 0%nat)
        then sw_discoverAll env else discoveredInstances g) = Some target →
  let outcome := postInstance targetId env g in
  let g' := outcome.1.2 in
  (∃ resp tail,
     outcome.1.1 = Normal resp ∧
     outcome.2 = match cdpConnection g with
              | Some old => [WsClose (ws old)]
              | None => []
              end ++ Console (Switching (i_title target)) :: WsOpen (i_url target) :: tail ∧
     ∀ e, e ∈ tail → ∃ l, e = Console l) ∧
  (∀ new, sw_connect env (i_url target) = Normal new →
     cdpConnection g' = Some new ∧
     cdpRetryCount g' = 0 ∧ snapshotFailCount g' = 0 ∧
     lastSnapshot g' = None ∧ lastSnapshotHash g' = None ∧
     Server.activeTargetId g' = Some (i_id target) ∧
     getCDPStatus g' =
       (Normal (Status true (Z.of_nat (length (contexts new))) 0), g', [])) ∧
  (∀ e, sw_connect env (i_url target) = Abrupt e →
     cdpConnection g' = None ∧
     lastSnapshot g' = None ∧ lastSnapshotHash g' = None ∧
     getCDPStatus g' = (Normal (Status false 0 (cdpRetryCount g)), g', [])).
Proof.
  intros Hid Hfind. cbv zeta. rewrite (postInstance_found g env targetId target Hid Hfind).
  cbv zeta. split; [|split].
  - destruct (sw_connect env (i_url target)) as [new|e]; cbn [fst snd];
      eexists _, [_]; (split; [reflexivity|]); (split; [reflexivity|]);
      intros e' ->%list_elem_of_singleton; by eexists.
  - intros new ->. cbn [fst snd cdpConnection cdpRetryCount snapshotFailCount
                        lastSnapshot lastSnapshotHash Server.activeTargetId].
    repeat split; try done.
    by rewrite getCDPStatus_run.
  - intros e ->. cbn [fst snd cdpConnection lastSnapshot lastSnapshotHash].
    repeat split; try done.
Qed.

End SessionFacts.

(** ** The embedding run on the samples *)

Section ServerRuns.
Import JS Wire Server Polling Instances Samples.

Example hashString_abc : hashString "abc" = "22ci".
Proof. reflexivity. Qed.

(** The 32-bit wrap-around: this string hashes to the least 32-bit
    integer. *)
Example hashString_wraps : hashString "polygenelubricants" = "-zik0zk".
Proof. vm_compute. reflexivity. Qed.

(** Scenario B: two identical captures, one notice, to the open client. *)
Example identical_captures_one_broadcast :
  effectsOf (pollTicks MAX_SNAPSHOT_FAILS [seen "<p>hi</p>" "a"; seen "<p>hi</p>" "a"]) online =
    [ClientSend 7 (Notification "snapshot_update" "2026-01-01T00:00:00.000Z");
     Console (SnapshotUpdated (hashString "<p>hi</p>"))].
Proof. vm_compute. reflexivity. Qed.

(** Same [html], other [css]: the second payload is not stored. *)
Example restyled_capture_not_stored :
  lastSnapshot (after (pollTicks MAX_SNAPSHOT_FAILS
                         [seen "<p>hi</p>" "a"; seen "<p>hi</p>" "b"]) online) =
    Some (shot "<p>hi</p>" "a").
Proof. vm_compute. reflexivity. Qed.

(** Scenario C: five error payloads tear the session down on the fifth
    tick; the sixth tick tries to reconnect. *)
Example five_errors_then_reconnect :
  effectsOf (pollTicks MAX_SNAPSHOT_FAILS [broken; broken; broken; broken; broken; broken])
    online =
    [Console (SnapshotError "x" 1); Console (SnapshotError "x" 2);
     Console (SnapshotError "x" 3); Console (SnapshotError "x" 4);
     Console (SnapshotError "x" 5); Console TooManyFailures;
     Console NoConnection; Console Discovering; Console (NotReady 1); Sleep 5000] ++
    mjoin ((λ k, [Console Discovering; Console (NotReady k); Sleep 5000])
             <$> (Z.of_nat <$> seq 2 59)) ++
    [Console GaveUp].
Proof. vm_compute. reflexivity. Qed.

(** An error that does not name the socket only counts as a failure. *)
Example other_error_keeps_connection :
  (λ g, (cdpConnection g, snapshotFailCount g)) (after (pollTick confused) online) =
    (Some editor, 1).
Proof. vm_compute. reflexivity. Qed.

(** A payload object with an empty [error] and no [html] takes the
    success branch, where [hashString] throws: the counter, just reset,
    ends at one. *)
Example empty_error_payload :
  snapshotFailCount
    (after (pollTick (tick (Normal (Some (Snapshot None None None None None
                                             (Some EmptyString))))))
       (set_snapshotFailCount 3 online)) = 1.
Proof. vm_compute. reflexivity. Qed.

Example switch_sample :
  (postInstance (Some "B1") switching (set_discoveredInstances known online)).2 =
    [WsClose 1; Console (Switching "Antigravity - b");
     WsOpen "ws://127.0.0.1:9001/devtools/page/B1"; Console (SwitchedTo "Antigravity - b")].
Proof. vm_compute. reflexivity. Qed.

Example switch_unknown_target :
  postInstance (Some "Z9") switching (set_discoveredInstances known online) =
    (Normal (Response 404 (ErrorBody (Some "Target not found"))),
     set_discoveredInstances known online, []).
Proof. vm_compute. reflexivity. Qed.

Lemma failure_threshold_teardown_witness :
  let envs := [nothing; broken; nothing; broken; nothing] in
  cdpConnection (after (pollTicks 5 envs) online) = None ∧
  snapshotFailCount (after (pollTicks 5 envs) online) = 0 ∧
  teardownsIn (effectsOf (pollTicks 5 envs) online) = 1%nat.
Proof.
  intros envs.
  assert (0 < 5) as HN by lia.
  assert (cdpConnection online = Some editor) as Hconn by reflexivity.
  assert (Forall (λ env, fails env = true) envs) as Hall
    by (repeat constructor).
  destruct (failure_threshold_teardown 5 online editor HN Hconn) as (_ & _ & Hruns & _).
  destruct (Hruns eq_refl envs Hall) as [_ Hreach].
  destruct (Hreach eq_refl) as (H1 & H2 & H3 & _). done.
Defined.



(** C7.  With the probe of [server.js] a dead transport is not dropped
    on the tick that meets it.  The socket has closed and every call
    rejects with 'WebSocket is not open'; [captureSnapshot] catches the
    rejections and returns [null]; the tick counts one failure and
    keeps the connection.  Four such ticks in a row keep it; only the
    fifth drops it, through the failure threshold. *)
Theorem dead_socket_waits_for_threshold :
  capture deadTick = Normal None ∧
  pollTick deadTick online =
    (Normal tt, set_snapshotFailCount 1 online, [Console (SnapshotNull 1)]) ∧
  cdpConnection (after (pollTicks MAX_SNAPSHOT_FAILS (replicate 4 deadTick)) online) =
    Some editor ∧
  effectsOf (pollTicks MAX_SNAPSHOT_FAILS (replicate 5 deadTick)) online =
    [Console (SnapshotNull 1); Console (SnapshotNull 2); Console (SnapshotNull 3);
     Console (SnapshotNull 4); Console (SnapshotNull 5); Console TooManyFailures].
Proof. vm_compute. repeat split. Qed.

(** The probe picks the best-scoring clean payload and skips contexts
    whose calls fail. *)
Example captureSnapshot_picks_chat :
  Capture.captureSnapshot
    (Capture.Evaluations
       (λ i, if decide (i = 1) then Normal (Some manager)
             else if decide (i = 2) then Normal (Some chat)
             else Abrupt (Error "CDP call timeout: Runtime.evaluate"))
       (λ i, Normal (Some (shot (if decide (i = 1) then "<m/>" else "<c/>") "css"))))
    (Connection 1 [Context 1 "m" "o"; Context 2 "c" "o"; Context 3 "x" "o"]) =
  Normal (Some (shot "<c/>" "css")).
Proof. vm_compute. reflexivity. Qed.

Lemma socket_error_disconnects_at_once_run :
  isSocketError (Error "WebSocket is not open: readyState 3 (CLOSED)") = true ∧
  cdpConnection (after (pollTick dropped) online) = None ∧
  snapshotFailCount (after (pollTick dropped) online) = 1.
Proof.
  assert (isSocketError (Error "WebSocket is not open: readyState 3 (CLOSED)") = true)
    as Hsock by reflexivity.
  destruct (socket_error_disconnects_at_once online editor dropped _ eq_refl eq_refl Hsock)
    as (Hgone & Hcount & _).
  split; [exact Hsock|]. split; [exact Hgone|exact Hcount].
Defined.

Lemma getCDPStatus_total_witness :
  ∃ st, getCDPStatus boot = (Normal st, boot, []) ∧ st = Status false 0 0.
Proof.
  destruct (getCDPStatus_total boot) as (st & Hrun & _ & _ & _ & _ & Hnone).
  exists st. split; [exact Hrun|]. apply Hnone. reflexivity.
Defined.

Lemma switch_replaces_session_witness :
  let g := set_discoveredInstances known online in
  let g' := (postInstance (Some "B1") switching g).1.2 in
  cdpConnection g' = Some other ∧
  cdpRetryCount g' = 0 ∧ snapshotFailCount g' = 0 ∧
  getCDPStatus g' = (Normal (Status true 2 0), g', []).
Proof.
  intros g g'.
  assert (truthy (Some "B1") = true) as Hid by reflexivity.
  destruct (switch_replaces_session g switching (Some "B1")
              (Discovery.Instance "B1" 9001 "ws://127.0.0.1:9001/devtools/page/B1"
                 "Antigravity - b" None) Hid eq_refl)
    as (_ & Hok & _).
  destruct (Hok other eq_refl) as (H1 & H2 & H3 & _ & _ & _ & H4).
  split; [exact H1|]. split; [exact H2|]. split; [exact H3|exact H4].
Defined.

Lemma registry_replay_is_fold_witness :
  Registry.replay [created 1 "a"; created 2 "b"; consoleCall] =
  Registry.replay [created 1 "a"; created 2 "b"].
Proof.
  assert (Forall (λ data, Registry.wellFormed data = true)
            [created 1 "a"; created 2 "b"]) as Hwf by (repeat constructor).
  destruct (registry_replay_is_fold [created 1 "a"; created 2 "b"] Hwf)
    as (l & _ & _ & _ & _ & Hother).
  apply (Hother consoleCall); reflexivity.
Defined.

End ServerRuns.

(* ================================================================== *)
(** * Part III: further properties of the code *)
(* ================================================================== *)

(** Evaluates monadic server code on a state given by its fields. *)
Ltac run_M :=
  cbv [Server.try_catch mbind Server.M_bind Server.bind mret Server.M_ret Server.ret
       Server.get Server.modify Server.emit Server.log Server.await Server.throw
       Server.set_cdpConnection Server.set_lastSnapshot Server.set_lastSnapshotHash
       Server.set_discoveredInstances Server.set_activeTargetId
       Server.set_cdpRetryCount Server.set_snapshotFailCount
       Server.cdpConnection Server.lastSnapshot Server.lastSnapshotHash
       Server.discoveredInstances Server.activeTargetId
       Server.cdpRetryCount Server.snapshotFailCount fst snd]; cbn [app].

(** ** The retry loop [initCDP] *)

Section InitFacts.
Import JS Wire Server Polling Observe.
Implicit Types (g : globals) (reconnect : nat → attempt).

Lemma bind_get' {A} (k : globals → M A) g : (g' ← get; k g') g = k g g.
Proof. cbv [mbind M_bind bind get]. by destruct (k g g) as [[r g2] w2]. Qed.

(** A failed round counts one retry, sleeps once and changes nothing
    else. *)
Lemma attemptOnce_failed a conn0 ls lh di at' rc fc :
  roundFails a = true →
  ∃ w, attemptOnce a (Globals conn0 ls lh di at' rc fc) =
         (Normal false, Globals conn0 ls lh di at' (rc + 1) fc, w) ∧
       sleepsIn w = 1%nat ∧ (length (opensIn w) ≤ 1)%nat.
Proof.
  unfold roundFails, attemptOnce, connectCDP. intros Hfail.
  destruct (a_discover a) as [info|e] eqn:Hd; run_M; rewrite ?Hd; run_M.
  - destruct (a_connect a (Discovery.url info)) as [cdp|e]; [done|].
    run_M. eexists. split; [reflexivity|]. split; [reflexivity|]. cbn. lia.
  - eexists. split; [reflexivity|]. split; [reflexivity|]. cbn. lia.
Qed.

(** A round whose discovery and connect succeed stores the connection
    and the target id, takes over the discovered instances if that
    listing succeeds, and zeroes both counters.  The stored payload and
    fingerprint stay. *)
Lemma attemptOnce_connected a info cdp conn0 ls lh di at' rc fc :
  a_discover a = Normal info → a_connect a (Discovery.url info) = Normal cdp →
  attemptOnce a (Globals conn0 ls lh di at' rc fc) =
    (Normal true,
     Globals (Some cdp) ls lh
       (match a_discoverAll a with Normal l => l | Abrupt _ => di end)
       (if truthy (Some (Discovery.id info)) then Some (Discovery.id info) else None)
       0 0,
     [Console Discovering; Console Connecting; WsOpen (Discovery.url info);
      Console (Connected (length (contexts cdp)))]).
Proof.
  intros Hd Hc. unfold attemptOnce, connectCDP. run_M. rewrite Hd. run_M.
  rewrite Hc. run_M. destruct (a_discoverAll a); reflexivity.
Qed.

Lemma initCDP_loop_S fuel reconnect k g :
  initCDP_loop (S fuel) reconnect k g =
    (if cdpRetryCount g <? MAX_CDP_RETRIES
     then ok ← attemptOnce (reconnect k);
          if ok : bool then ret true else initCDP_loop fuel reconnect (S k)
     else log GaveUp;; ret false) g.
Proof. cbn [initCDP_loop]. by rewrite bind_get'. Qed.

(** [n] failing rounds in a row, within the retry budget: [n] retries
    counted, [n] sleeps, nothing else changed, and the loop goes on. *)
Lemma initCDP_loop_failures reconnect n :
  ∀ fuel k conn0 ls lh di at' rc fc,
    (∀ j, (k ≤ j < k + n)%nat → roundFails (reconnect j) = true) →
    rc + Z.of_nat n ≤ MAX_CDP_RETRIES →
    ∃ w, sleepsIn w = n ∧ (length (opensIn w) ≤ n)%nat ∧
         initCDP_loop (n + fuel) reconnect k (Globals conn0 ls lh di at' rc fc) =
           match initCDP_loop fuel reconnect (k + n)
                   (Globals conn0 ls lh di at' (rc + Z.of_nat n) fc) with
           | (r, g', w') => (r, g', w ++ w')
           end.
Proof.
  induction n as [|n IH]; intros fuel k conn0 ls lh di at' rc fc Hfail Hbudget.
  - exists []. split; [done|]. split; [done|].
    rewrite Nat.add_0_r, Z.add_0_r. cbn [Nat.add app].
    by destruct (initCDP_loop fuel reconnect k _) as [[r g'] w'].
  - destruct (attemptOnce_failed (reconnect k) conn0 ls lh di at' rc fc)
      as (w1 & Hrun & Hsleep & Hopen); [apply Hfail; lia|].
    destruct (IH fuel (S k) conn0 ls lh di at' (rc + 1) fc)
      as (w2 & Hsleeps & Hopens & Hrest); [intros j Hj; apply Hfail; lia|lia|].
    exists (w1 ++ w2). split; [|split].
    + unfold sleepsIn in *. rewrite List.filter_app, length_app. lia.
    + unfold opensIn in *. rewrite List.filter_app, length_app. lia.
    + cbn [Nat.add]. rewrite initCDP_loop_S. cbn [cdpRetryCount].
      assert ((rc <? MAX_CDP_RETRIES) = true) as -> by (apply Z.ltb_lt; lia).
      cbv [mbind M_bind bind]. rewrite Hrun, Hrest.
      replace (rc + 1 + Z.of_nat n) with (rc + Z.of_nat (S n)) by lia.
      replace (S k + n)%nat with (k + S n)%nat by lia.
      match goal with
      | |- context [initCDP_loop fuel reconnect ?k' ?g0] =>
          destruct (initCDP_loop fuel reconnect k' g0) as [[r g'] w']
      end.
      by rewrite <- app_assoc.
Qed.

(** An [initCDP] that runs from its start to its end with no other
    function of the server in between: when every round that fits in
    the retry budget fails, it returns [false] after exactly [MAX_CDP_RETRIES -
    cdpRetryCount] rounds, one sleep each; it leaves the retry counter
    at [MAX_CDP_RETRIES] and everything else (connection slot, payload,
    failure counter) as it was. *)
Theorem initCDP_gives_up reconnect g :
  cdpRetryCount g ≤ MAX_CDP_RETRIES →
  (∀ j, Z.of_nat j < MAX_CDP_RETRIES - cdpRetryCount g → roundFails (reconnect j) = true) →
  ∃ w, initCDP reconnect g = (Normal false, set_cdpRetryCount MAX_CDP_RETRIES g, w) ∧
       sleepsIn w = Z.to_nat (MAX_CDP_RETRIES - cdpRetryCount g) ∧
       (length (opensIn w) ≤ Z.to_nat (MAX_CDP_RETRIES - cdpRetryCount g))%nat.
Proof.
  intros Hle Hfail. destruct g as [conn0 ls lh di at' rc fc]. cbn [cdpRetryCount] in *.
  unfold initCDP. rewrite bind_get'. cbn [cdpRetryCount].
  set (n := Z.to_nat (MAX_CDP_RETRIES - rc)).
  destruct (initCDP_loop_failures reconnect n 0 0 conn0 ls lh di at' rc fc)
    as (w & Hsleeps & Hopens & Hrun); [intros j Hj; apply Hfail; lia|lia|].
  rewrite Nat.add_0_r in Hrun. rewrite Hrun.
  replace (rc + Z.of_nat n) with MAX_CDP_RETRIES by lia.
  cbn [initCDP_loop]. rewrite bind_get'. cbn [cdpRetryCount].
  rewrite Z.ltb_irrefl. run_M.
  exists (w ++ [Console GaveUp]). split; [done|]. split.
  - unfold sleepsIn in *. rewrite List.filter_app, length_app. cbn. lia.
  - unfold opensIn in *. rewrite List.filter_app, length_app. cbn. lia.
Qed.

Lemma initCDP_gives_up_witness :
  ∃ w, initCDP Samples.unreachable boot = (Normal false, MoreSamples.exhausted, w) ∧
       sleepsIn w = 60%nat.
Proof.
  assert (cdpRetryCount boot ≤ MAX_CDP_RETRIES) as Hle by (vm_compute; discriminate).
  destruct (initCDP_gives_up Samples.unreachable boot Hle (λ j _, eq_refl))
    as (w & Hrun & Hsleeps & _).
  exists w. split; [exact Hrun|exact Hsleeps].
Defined.


(** An [initCDP] that runs with no other function of the server in
    between: when round [k] is the first whose discovery and connect
    succeed, and it still fits in the retry budget, it returns
    [true] after [k] sleeps with that round's connection stored and both
    counters at zero; the payload and fingerprint stored before are
    kept. *)
Theorem initCDP_connects reconnect g k info cdp :
  (∀ j, (j < k)%nat → roundFails (reconnect j) = true) →
  a_discover (reconnect k) = Normal info →
  a_connect (reconnect k) (Discovery.url info) = Normal cdp →
  cdpRetryCount g + Z.of_nat k < MAX_CDP_RETRIES →
  ∃ g' w, initCDP reconnect g = (Normal true, g', w) ∧
          cdpConnection g' = Some cdp ∧
          cdpRetryCount g' = 0 ∧ snapshotFailCount g' = 0 ∧
          lastSnapshot g' = lastSnapshot g ∧ lastSnapshotHash g' = lastSnapshotHash g ∧
          sleepsIn w = k.
Proof.
  intros Hfail Hd Hc Hbudget. destruct g as [conn0 ls lh di at' rc fc].
  cbn [cdpRetryCount lastSnapshot lastSnapshotHash] in *.
  unfold initCDP. rewrite bind_get'. cbn [cdpRetryCount].
  destruct (Z.to_nat (MAX_CDP_RETRIES - rc) - k)%nat as [|fuel] eqn:Hfuel; [lia|].
  replace (Z.to_nat (MAX_CDP_RETRIES - rc)) with (k + S fuel)%nat by lia.
  destruct (initCDP_loop_failures reconnect k (S fuel) 0 conn0 ls lh di at' rc fc)
    as (w & Hsleeps & _ & Hrun); [intros j Hj; apply Hfail; lia|lia|].
  rewrite Hrun. cbn [Nat.add]. rewrite initCDP_loop_S. cbn [cdpRetryCount].
  assert ((rc + Z.of_nat k <? MAX_CDP_RETRIES) = true) as -> by (apply Z.ltb_lt; lia).
  cbv [mbind M_bind bind].
  rewrite (attemptOnce_connected _ info cdp _ _ _ _ _ _ _ Hd Hc). cbv [ret].
  eexists _, _. split; [reflexivity|].
  cbn [cdpConnection cdpRetryCount snapshotFailCount lastSnapshot lastSnapshotHash].
  repeat split; try done.
  unfold sleepsIn in *. rewrite !List.filter_app, !length_app. cbn. lia.
Qed.

Lemma initCDP_connects_witness :
  ∃ g' w, initCDP MoreSamples.thirdRound boot = (Normal true, g', w) ∧
          cdpConnection g' = Some Samples.editor ∧ sleepsIn w = 2%nat.
Proof.
  assert (∀ j, (j < 2)%nat → roundFails (MoreSamples.thirdRound j) = true) as Hfail.
  { intros [|[|j]] Hj; [reflexivity|reflexivity|lia]. }
  assert (cdpRetryCount boot + Z.of_nat 2 < MAX_CDP_RETRIES) as Hlt by (vm_compute; reflexivity).
  destruct (initCDP_connects MoreSamples.thirdRound boot 2 MoreSamples.found Samples.editor
              Hfail eq_refl eq_refl Hlt) as (g' & w & Hrun & Hconn & _ & _ & _ & _ & Hsleeps).
  exists g', w. split; [exact Hrun|split; [exact Hconn|exact Hsleeps]].
Defined.


(** X3.  Once the retries are used up and no connection is stored, the
    polling loop is idle for good: any number of ticks leave the state
    as it is and open no socket.  Only a switch of instance, which
    resets the counter, gets out of this. *)
Theorem exhausted_ticks_idle N envs g :
  cdpConnection g = None → MAX_CDP_RETRIES ≤ cdpRetryCount g →
  ∃ w, pollTicks N envs g = (Normal tt, g, w) ∧ opensIn w = [] ∧ sleepsIn w = 0%nat.
Proof.
  intros Hnone Hmax. induction envs as [|env envs IH].
  - by exists [].
  - destruct IH as (w & Hrun & Hopens & Hsleeps).
    assert (pollTickWith N env g =
            (Normal tt, g, [Console NoConnection; Console GaveUp])) as Htick.
    { rewrite (tick_disconnected N env g Hnone). cbv [mbind M_bind bind log emit ret].
      by rewrite (initCDP_exhausted _ g Hmax). }
    rewrite (pollTicks_cons _ _ _ _ _ _ Htick), Hrun.
    eexists. split; [reflexivity|]. split.
    + unfold opensIn in *. rewrite List.filter_app, Hopens. done.
    + unfold sleepsIn in *. rewrite List.filter_app, length_app, Hsleeps. done.
Qed.

Lemma exhausted_ticks_idle_witness :
  ∃ w, pollTicks 5 [Samples.nothing; Samples.dropped; Samples.nothing] MoreSamples.exhausted
         = (Normal tt, MoreSamples.exhausted, w) ∧ opensIn w = [].
Proof.
  assert (MAX_CDP_RETRIES ≤ cdpRetryCount MoreSamples.exhausted) as Hle
    by (vm_compute; discriminate).
  destruct (exhausted_ticks_idle 5 [Samples.nothing; Samples.dropped; Samples.nothing]
              MoreSamples.exhausted eq_refl Hle) as (w & Hrun & Hopens & _).
  exists w. split; [exact Hrun|exact Hopens].
Defined.


End InitFacts.

(** ** The polling loop and the capture probe, continued *)

Section CaptureFacts.
Import JS Wire Server Capture Polling Offer.

(** X4.  No run of ticks throws, whatever the capture probe, the
    clients and the network do: every tick ends normally, so the
    interval callback never rejects. *)
Theorem pollTicks_never_throw N envs g :
  ∃ g' w, pollTicks N envs g = (Normal tt, g', w).
Proof.
  revert g. induction envs as [|env envs IH]; intros g; [by eexists _, _|].
  destruct (pollTick_never_throws N env g) as (g1 & w1 & Htick).
  destruct (IH g1) as (g2 & w2 & Hrest).
  rewrite (pollTicks_cons _ _ _ _ _ _ Htick), Hrest. by eexists _, _.
Qed.

Lemma sweep_offer ev (acc : option snapshot * Z) ctx :
  sweep ev acc ctx =
    match offer ev ctx with
    | Some (snap, s) => if acc.2 <? s then (Some snap, s) else acc
    | None => acc
    end.
Proof.
  unfold sweep, offer.
  destruct (probeResult ev (ctx_id ctx)) as [[i|]|e]; try done.
  destruct (snapResult ev (ctx_id ctx)) as [[snap|]|e]; try done.
  by destruct (truthy (error snap)).
Qed.

Lemma sweep_inv_snoc ev l acc ctx :
  sweep_inv ev l acc → sweep_inv ev (l ++ [ctx]) (sweep ev acc ctx).
Proof.
  intros Hinv. rewrite sweep_offer. destruct acc as [b m]. unfold sweep_inv in *.
  cbn [fst snd] in *.
  assert (∀ j c, (l ++ [ctx]) !! j = Some c →
            l !! j = Some c ∨ (j = length l ∧ c = ctx)) as Hsnoc.
  { intros j c Hj. apply lookup_app_Some in Hj as [?|[Hge Hj]]; [by left|right].
    apply list_lookup_singleton_Some in Hj as [? ->]. split; [lia|done]. }
  destruct (offer ev ctx) as [[snap s]|] eqn:Hoffer.
  - destruct (Z.ltb_spec m s) as [Hlt|Hge]; cbn [fst snd].
    + destruct b as [best|].
      * destruct Hinv as (Hm & i & c & Hi & Hc & Hmax). split; [lia|].
        exists (length l), ctx. split; [by apply list_lookup_middle|]. split; [done|].
        intros j c' snap' s' Hj Hc'. destruct (Hsnoc j c' Hj) as [Hold|[-> ->]].
        -- destruct (Hmax j c' snap' s' Hold Hc'). split; [lia|]. intros _. lia.
        -- rewrite Hoffer in Hc'. injection Hc' as <- <-. split; [lia|]. lia.
      * destruct Hinv as (-> & Hlow). split; [lia|].
        exists (length l), ctx. split; [by apply list_lookup_middle|]. split; [done|].
        intros j c' snap' s' Hj Hc'. destruct (Hsnoc j c' Hj) as [Hold|[-> ->]].
        -- pose proof (Hlow j c' snap' s' Hold Hc'). split; [lia|]. intros _. lia.
        -- rewrite Hoffer in Hc'. injection Hc' as <- <-. split; [lia|]. lia.
    + destruct b as [best|].
      * destruct Hinv as (Hm & i & c & Hi & Hc & Hmax). split; [done|].
        exists i, c. split; [by apply lookup_app_l_Some|]. split; [done|].
        intros j c' snap' s' Hj Hc'. destruct (Hsnoc j c' Hj) as [Hold|[-> ->]].
        -- by apply (Hmax j c' snap' s').
        -- rewrite Hoffer in Hc'. injection Hc' as <- <-. split; [lia|].
           apply lookup_lt_Some in Hi. lia.
      * destruct Hinv as (-> & Hlow). split; [done|].
        intros j c' snap' s' Hj Hc'. destruct (Hsnoc j c' Hj) as [Hold|[-> ->]].
        -- by apply (Hlow j c' snap' s').
        -- rewrite Hoffer in Hc'. by injection Hc' as <- <-.
  - destruct b as [best|].
    + destruct Hinv as (Hm & i & c & Hi & Hc & Hmax). split; [done|].
      exists i, c. split; [by apply lookup_app_l_Some|]. split; [done|].
      intros j c' snap' s' Hj Hc'. destruct (Hsnoc j c' Hj) as [Hold|[-> ->]].
      * by apply (Hmax j c' snap' s').
      * by rewrite Hoffer in Hc'.
    + destruct Hinv as (-> & Hlow). split; [done|].
      intros j c' snap' s' Hj Hc'. destruct (Hsnoc j c' Hj) as [Hold|[-> ->]].
      * by apply (Hlow j c' snap' s').
      * by rewrite Hoffer in Hc'.
Qed.

Lemma sweep_inv_all ev l : sweep_inv ev l (foldl (sweep ev) (None, -1000) l).
Proof.
  induction l as [|ctx l IH] using rev_ind.
  - split; [done|]. intros j ctx snap s Hj. done.
  - rewrite foldl_snoc. by apply sweep_inv_snoc.
Qed.

(** X5.  [captureSnapshot] never throws.  It returns the payload of the
    context with the highest score among those whose two calls returned
    a payload without truthy [error], the earliest of them when several
    share that score; and it returns [null] exactly when no such
    context scores above the initial [maxScore] of [-1].  (Scores are
    compared as exact numbers, scaled by 1000.) *)
Theorem captureSnapshot_best ev cdp :
  ∃ r, captureSnapshot ev cdp = Normal r ∧
    match r with
    | None =>
        ∀ ctx snap s, ctx ∈ contexts cdp → offer ev ctx = Some (snap, s) → s ≤ -1000
    | Some best =>
        ∃ i ctx s, contexts cdp !! i = Some ctx ∧ offer ev ctx = Some (best, s) ∧
          -1000 < s ∧
          ∀ j ctx' snap' s', contexts cdp !! j = Some ctx' →
            offer ev ctx' = Some (snap', s') → s' ≤ s ∧ ((j < i)%nat → s' < s)
    end.
Proof.
  unfold captureSnapshot. eexists. split; [reflexivity|].
  pose proof (sweep_inv_all ev (contexts cdp)) as Hinv. unfold sweep_inv in Hinv.
  destruct (foldl (sweep ev) (None, -1000) (contexts cdp)) as [[best|] m]; cbn [fst snd] in *.
  - destruct Hinv as (Hm & i & ctx & Hi & Hc & Hmax). by exists i, ctx, m.
  - destruct Hinv as (_ & Hlow). intros ctx snap s Hin Hc.
    apply list_elem_of_lookup in Hin as [j Hj]. by apply (Hlow j ctx snap s).
Qed.

End CaptureFacts.

(** ** [hashString], continued *)

Section HashMore.
Import JS Server Polling Poly.

Lemma toInt32_congr a b : a mod 2^32 = b mod 2^32 → toInt32 a = toInt32 b.
Proof.
  intros Hab. unfold toInt32. f_equal.
  rewrite <- (Zplus_mod_idemp_l a), <- (Zplus_mod_idemp_l b). by rewrite Hab.
Qed.

Lemma toInt32_mod z : toInt32 z mod 2^32 = z mod 2^32.
Proof.
  unfold toInt32. rewrite <- Zminus_mod_idemp_l, Z.mod_mod by lia.
  rewrite Zminus_mod_idemp_l. f_equal. lia.
Qed.




Lemma hashCode_snoc_list l c :
  foldl hashRound 0 (l ++ [c]) = toInt32 (31 * foldl hashRound 0 l + charCode c).
Proof.
  rewrite foldl_snoc. apply hashRound_wraps.
  induction l as [|c' l _] using rev_ind; [cbn; lia|].
  rewrite foldl_snoc. unfold hashRound. apply toInt32_range.
Qed.



(** X6.  [hashString] computes the polynomial hash of the code units
    with multiplier 31, wrapped to 32 bits (the hash Java uses for
    strings), whatever the length of the string. *)
Theorem hashCode_is_poly31 str : hashCode str = toInt32 (poly31 str).
Proof.
  unfold hashCode, poly31. induction (list_ascii_of_string str) as [|c l IH] using rev_ind.
  - reflexivity.
  - rewrite hashCode_snoc_list, foldl_snoc, IH. apply toInt32_congr.
    rewrite <- Zplus_mod_idemp_l, <- Zmult_mod_idemp_r, toInt32_mod.
    by rewrite Zmult_mod_idemp_r, Zplus_mod_idemp_l.
Qed.







End HashMore.

Section Base36Facts.
Import JS Server Base36.

Lemma digit36_value d :
  0 ≤ d < 36 → digitValue (digit36 d) = d ∧ Ascii.eqb (digit36 d) "-" = false.
Proof.
  intros Hd. rewrite <- (Z2Nat.id d) by lia.
  assert (Z.to_nat d < 36)%nat as Hk by lia. revert Hk.
  generalize (Z.to_nat d) as k. intros k Hk.
  do 36 (destruct k as [|k]; [by vm_compute|]). lia.
Qed.

Lemma valueFrom_cons v c s : valueFrom v (String c s) = valueFrom (v * 36 + digitValue c) s.
Proof. reflexivity. Qed.

(** With enough fuel the digits written for [n] read back as [n]. *)
Lemma valueFrom_digits36 fuel n acc :
  0 ≤ n < 36 ^ Z.of_nat fuel → (0 < fuel)%nat →
  valueFrom 0 (digits36 fuel n acc) = valueFrom n acc.
Proof.
  revert n acc. induction fuel as [|fuel IH]; intros n acc Hn Hpos; [lia|].
  rewrite digits36_S. rewrite Nat2Z.inj_succ, Z.pow_succ_r in Hn by lia.
  assert (0 ≤ n mod 36 < 36) as Hmod by (apply Z.mod_pos_bound; lia).
  destruct (digit36_value (n mod 36) Hmod) as [Hval _].
  destruct (n / 36 =? 0) eqn:Hq.
  - apply Z.eqb_eq in Hq. rewrite valueFrom_cons, Hval. f_equal.
    rewrite (Z.div_mod n 36) at 2 by lia. lia.
  - apply Z.eqb_neq in Hq. destruct fuel as [|fuel].
    + exfalso. apply Hq, Z.div_small. cbn in Hn. lia.
    + rewrite IH; [|split; [apply Z.div_pos; lia|apply Z.div_lt_upper_bound; lia]|lia].
      rewrite valueFrom_cons, Hval. f_equal.
      rewrite (Z.div_mod n 36) at 3 by lia. lia.
Qed.

(** The digits of a number never start with the minus sign. *)
Lemma digits36_head fuel n acc :
  0 ≤ n → (0 < fuel)%nat →
  ∃ c rest, digits36 fuel n acc = String c rest ∧ Ascii.eqb c "-" = false.
Proof.
  revert n acc. induction fuel as [|fuel IH]; intros n acc Hn Hpos; [lia|].
  rewrite digits36_S.
  assert (0 ≤ n mod 36 < 36) as Hmod by (apply Z.mod_pos_bound; lia).
  destruct (digit36_value (n mod 36) Hmod) as [_ Hnot].
  destruct (n / 36 =? 0); [by eexists _, _|].
  destruct fuel as [|fuel]; [by eexists _, _|].
  apply IH; [apply Z.div_pos; lia|lia].
Qed.

Lemma parse36_toString36 n : - 2^31 ≤ n < 2^31 → parse36 (toString36 n) = n.
Proof.
  intros Hn. unfold toString36. destruct (Z.ltb_spec n 0) as [Hneg|Hpos].
  - change (parse36 ("-" +:+ digits36 7 (- n) EmptyString))
      with (- valueFrom 0 (digits36 7 (- n) EmptyString)).
    rewrite valueFrom_digits36; [|change (36 ^ Z.of_nat 7) with 78364164096; lia|lia].
    cbn. lia.
  - destruct (digits36_head 7 n EmptyString Hpos) as (c & rest & Heq & Hnot); [lia|].
    unfold parse36. rewrite Heq, Hnot, <- Heq.
    rewrite valueFrom_digits36; [|change (36 ^ Z.of_nat 7) with 78364164096; lia|lia].
    reflexivity.
Qed.

(** X8.  Writing the hash in base 36 loses nothing: two strings have
    the same fingerprint exactly when their 32-bit hashes are equal. *)
Theorem hashString_eq_iff s1 s2 :
  hashString s1 = hashString s2 ↔ hashCode s1 = hashCode s2.
Proof.
  split; [|by unfold hashString; intros ->].
  unfold hashString. intros Heq.
  rewrite <- (parse36_toString36 (hashCode s1)), <- (parse36_toString36 (hashCode s2))
    by apply hashCode_range.
  by rewrite Heq.
Qed.

End Base36Facts.

(** ** More on the RPC transport *)

Section TransportMore.
Import JS Wire Transport Traffic.
Implicit Types (t : transport) (i j : Z) (data : frame) (s : settlement).

Lemma settle_settled i s s' t :
  promises t !! i = Some (Settled s) → settle i s' t = t.
Proof. intros Hp. unfold settle. by rewrite Hp. Qed.

(** A call whose [ws.send] threw is rejected at once, with its handler
    registered and its timer armed. *)
Lemma view_call_failed method params e t :
  wf t →
  view (idCounter t) (call method params (Some e) t).2 =
    (Some (Settled (SendThrew e)), true, Some method, [SendThrew e]).
Proof.
  intros Hwf. pose proof (view_call_new method params t Hwf) as Hnew.
  unfold call. cbn [snd].
  set (t1 := Transport _ _ _ _ (outbox t) _).
  assert (view (idCounter t) t1 = (Some Pending, true, Some method, [])) as H1
    by (rewrite <- Hnew; reflexivity).
  exact (view_settle_pending _ (SendThrew e) _ _ _ _ H1).
Qed.

Lemma view_step_leaked i s method t ev :
  wf t → i < idCounter t →
  view i t = (Some (Settled s), true, Some method, [s]) →
  view i (step t ev) =
    if concerns i ev then (Some (Settled s), false, None, [s])
    else (Some (Settled s), true, Some method, [s]).
Proof.
  intros Hwf Hlt Hview. destruct ev as [m p st|data|j]; cbn [step concerns].
  - rewrite view_call_other by lia. done.
  - case_bool_decide as Hid.
    + rewrite (emit_heard data i); [|apply Hwf| |done].
      2:{ injection Hview as _ Hb _ _. by apply bool_decide_eq_true in Hb. }
      unfold handler. rewrite decide_True by done.
      pose proof (view_release_own i t) as Hrel.
      injection Hview as Hp _ _ Hlog. rewrite Hp, Hlog in Hrel.
      assert (promises (off i (clearTimeout i t)) !! i = Some (Settled s)) as Hp' by done.
      destruct (m_error data); by rewrite (settle_settled _ _ _ _ Hp').
    + rewrite view_emit_other by done. done.
  - case_bool_decide as Hj.
    + subst j. unfold timeout.
      pose proof (view_release_own i t) as Hrel.
      injection Hview as Hp _ Ht Hlog. rewrite Hp, Hlog in Hrel. rewrite Ht.
      assert (promises (off i (clearTimeout i t)) !! i = Some (Settled s)) as Hp' by done.
      by rewrite (settle_settled _ _ _ _ Hp').
    + rewrite view_timeout_other by done. done.
Qed.

Lemma view_run_leaked i s method evs t :
  wf t → i < idCounter t →
  view i t = (Some (Settled s), true, Some method, [s]) →
  view i (run t evs) =
    if existsb (concerns i) evs then (Some (Settled s), false, None, [s])
    else (Some (Settled s), true, Some method, [s]).
Proof.
  revert t. induction evs as [|ev evs IH]; intros t Hwf Hlt Hview; [done|].
  cbn [run foldl existsb].
  pose proof (view_step_leaked i s method t ev Hwf Hlt Hview) as Hstep.
  pose proof (idCounter_step t ev) as Hmono.
  destruct (concerns i ev); cbn [orb].
  - apply view_run_settled; [by apply wf_step|lia|done].
  - apply IH; [by apply wf_step|lia|done].
Qed.

(** *** What the socket is asked to send *)

Lemma outbox_settle i s t : outbox (settle i s t) = outbox t.
Proof. unfold settle. by destruct (promises t !! i) as [[|]|]. Qed.

Lemma outbox_handler i data t : outbox (handler i data t) = outbox t.
Proof.
  unfold handler. case_decide; [|done].
  destruct (m_error data); by rewrite outbox_settle.
Qed.

Lemma quiet_emit data t :
  outbox (emit data t) = outbox t ∧ idCounter (emit data t) = idCounter t.
Proof.
  unfold emit. generalize (listeners t) as l. intros l. revert t.
  induction l as [|k l IH]; intros t; [done|]. cbn [foldl].
  destruct (IH (handler k data t)) as [-> ->].
  by rewrite outbox_handler, idCounter_handler.
Qed.

Lemma quiet_timeout i t :
  outbox (timeout i t) = outbox t ∧ idCounter (timeout i t) = idCounter t.
Proof.
  unfold timeout. destruct (timers t !! i); [|done].
  by rewrite outbox_settle, idCounter_settle.
Qed.

Lemma numbered_step t ev : numbered t → numbered (step t ev).
Proof.
  intros (Hsorted & Hbelow & Hpos). destruct ev as [m p [e|]|data|j]; cbn [step].
  - unfold call. cbn [snd]. unfold numbered.
    rewrite outbox_settle, idCounter_settle. cbn [outbox idCounter].
    split; [done|]. split; [|lia].
    eapply Forall_impl; [exact Hbelow|]. intros r Hr. simpl in Hr. lia.
  - unfold call, numbered. cbn [snd outbox idCounter].
    split; [|split; [|lia]].
    + rewrite fmap_app. apply StronglySorted_app_2.
      * intros x1 x2 Hx1 Hx2. apply list_elem_of_singleton in Hx2 as ->.
        apply list_elem_of_fmap in Hx1 as (r & -> & Hr).
        rewrite Forall_forall in Hbelow. apply Hbelow in Hr. cbn. lia.
      * done.
      * repeat constructor.
    + apply Forall_app. split.
      * eapply Forall_impl; [exact Hbelow|]. intros r Hr. simpl in Hr. lia.
      * apply Forall_singleton. cbn. lia.
  - unfold numbered. by destruct (quiet_emit data t) as [-> ->].
  - unfold numbered. by destruct (quiet_timeout j t) as [-> ->].
Qed.

Lemma numbered_run t evs : numbered t → numbered (run t evs).
Proof.
  revert t. induction evs as [|ev evs IH]; intros t Hn; [done|].
  apply IH. by apply numbered_step.
Qed.

Lemma numbered_fresh : numbered fresh.
Proof.
  unfold numbered, fresh; cbn. split; [constructor|]. split; [constructor|lia].
Qed.

Lemma counts_run t evs :
  idCounter (run t evs) = idCounter t + Z.of_nat (length (List.filter isCall evs)) ∧
  length (outbox (run t evs)) = (length (outbox t) + length (List.filter isSent evs))%nat.
Proof.
  revert t. induction evs as [|ev evs IH]; intros t; [cbn; split; lia|].
  cbn [run foldl]. destruct (IH (step t ev)) as [Hc Ho].
  fold (run (step t ev) evs). rewrite Hc, Ho.
  destruct ev as [m p [e|]|data|j]; cbn [step List.filter isCall isSent length].
  - unfold call. cbn [snd]. rewrite outbox_settle, idCounter_settle. cbn. split; lia.
  - unfold call. cbn [snd outbox idCounter]. rewrite length_app. cbn. split; lia.
  - destruct (quiet_emit data t) as [-> ->]. split; lia.
  - destruct (quiet_timeout j t) as [-> ->]. split; lia.
Qed.

Lemma outbox_avoids_run i t evs :
  i < idCounter t → (∀ r, r ∈ outbox t → r_id r ≠ i) →
  ∀ r, r ∈ outbox (run t evs) → r_id r ≠ i.
Proof.
  revert t. induction evs as [|ev evs IH]; intros t Hlt Hout; [done|].
  cbn [run foldl]. apply IH.
  - pose proof (idCounter_step t ev). lia.
  - destruct ev as [m p [e|]|data|j]; cbn [step].
    + unfold call. cbn [snd]. by rewrite outbox_settle.
    + unfold call. cbn [snd outbox]. intros r Hr.
      apply elem_of_app in Hr as [Hr|Hr]; [by apply Hout|].
      apply list_elem_of_singleton in Hr as ->. cbn. lia.
    + by destruct (quiet_emit data t) as [-> _].
    + by destruct (quiet_timeout j t) as [-> _].
Qed.

(** X10.  On one socket the requests leave in call order with ids that
    increase strictly from 1: no two requests share an id.  The counter
    is one more than the number of calls made, whether or not their
    send went through, and only a call whose send went through adds a
    request; frames and timers send nothing. *)
Theorem request_ids_increase (evs : list event) :
  let t := run fresh evs in
  idCounter t = 1 + Z.of_nat (length (List.filter isCall evs)) ∧
  length (outbox t) = length (List.filter isSent evs) ∧
  StronglySorted Z.lt (r_id <$> outbox t) ∧
  Forall (λ r, 1 ≤ r_id r < idCounter t) (outbox t).
Proof.
  intros t. destruct (counts_run fresh evs) as [Hc Ho].
  destruct (numbered_run fresh evs numbered_fresh) as (Hs & Hb & _).
  done.
Qed.

(** X11.  Frames without an id, the target's event notifications,
    are invisible to the calls: taking them out of any sequence of
    calls, frames and timer firings leaves the same transport. *)
Theorem notifications_invisible t (evs : list event) :
  run t (List.filter (λ ev, negb (isNotification ev)) evs) = run t evs.
Proof.
  revert t. induction evs as [|ev evs IH]; intros t; [done|].
  cbn [List.filter]. destruct (isNotification ev) eqn:Hn; cbn [negb].
  - destruct ev as [m p st|data|j]; try discriminate. cbn in Hn.
    apply bool_decide_eq_true in Hn. cbn [run foldl step].
    rewrite (emit_unheard data t); [apply IH|]. intros j Hj. congruence.
  - cbn [run foldl]. apply IH.
Qed.

(** X9.  A call whose [ws.send] throws puts nothing on the wire and is
    rejected with the error of [send], once; but its handler and its
    timer were registered before the send and stay registered until a
    frame with its id arrives or the timer fires, which removes both
    and leaves the rejection as it is. *)
Theorem failed_send_stays_registered (before after : list event)
    (method : string) (params : payload) (e : exn) :
  let issued := call method params (Some e) (run fresh before) in
  let i := issued.1 in
  let t := run issued.2 after in
  outbox issued.2 = outbox (run fresh before) ∧
  (∀ r, r ∈ outbox t → r_id r ≠ i) ∧
  promises t !! i = Some (Settled (SendThrew e)) ∧
  settlements_of i t = [SendThrew e] ∧
  if existsb (concerns i) after
  then (i ∉ listeners t) ∧ timers t !! i = None
  else i ∈ listeners t ∧ timers t !! i = Some method.
Proof.
  intros issued i t.
  assert (wf (run fresh before)) as Hwf0 by (apply wf_run, wf_fresh).
  destruct (idCounter_call method params (Some e) (run fresh before)) as [Hi Hnext].
  fold issued in Hi, Hnext. fold i in Hi.
  assert (wf issued.2) as Hwf1 by (by apply wf_call).
  assert (outbox issued.2 = outbox (run fresh before)) as Hout.
  { unfold issued, call. cbn [snd]. by rewrite outbox_settle. }
  split; [exact Hout|]. split.
  { apply outbox_avoids_run; [lia|]. intros r Hr. rewrite Hout in Hr.
    assert (numbered (run fresh before)) as (_ & Hb0 & _)
      by apply numbered_run, numbered_fresh.
    rewrite Forall_forall in Hb0. apply Hb0 in Hr. lia. }
  assert (view i issued.2 = (Some (Settled (SendThrew e)), true, Some method, [SendThrew e]))
    as Hview by (rewrite Hi; by apply view_call_failed).
  pose proof (view_run_leaked i _ method after issued.2 Hwf1 ltac:(lia) Hview) as Hrun.
  fold t in Hrun. unfold view in Hrun.
  destruct (existsb (concerns i) after); injection Hrun as Hp Hb Ht Hlog.
  - apply bool_decide_eq_false in Hb. done.
  - apply bool_decide_eq_true in Hb. done.
Qed.

End TransportMore.

(** ** More on target discovery *)

Section DiscoveryMore.
Import JS Discovery.
Implicit Types (getJson : probe) (ports : list Z) (order : list nat).

(** A resolved [discoverCDP] is the selection over the five probes. *)
Lemma discoverCDP_resolved getJson order r :
  discoverCDP getJson order = Some r →
  r = selectFirst (checkPort getJson <$> PORTS).
Proof.
  intros Hr. destruct (decide (all_resolved (length PORTS) order)) as [Hall|Hnot].
  - unfold discoverCDP in Hr. rewrite discoverOver_priority in Hr by done. congruence.
  - unfold discoverCDP in Hr. rewrite discoverOver_pending in Hr by done. done.
Qed.

(** What [checkPort] of [discoverCDP] returns is a page [checkPort] of
    [discoverAllTargets] keeps. *)
Lemma checkPort_listed getJson p m :
  checkPort getJson p = Some m →
  ∃ list raw, getJson p = Some list ∧ raw ∈ list ∧ isListed raw = true ∧
              t_webSocketDebuggerUrl raw = Some (c_url m) ∧ t_id raw = c_id m.
Proof.
  unfold checkPort. intros H.
  destruct (getJson p) as [l|]; [|done].
  destruct (find isWorkbench l) as [t|] eqn:Hfind; [|done].
  destruct (t_webSocketDebuggerUrl t) as [[|a u]|] eqn:Hurl; [done| |done].
  injection H as <-. apply find_some in Hfind as [Hin Hwb].
  exists l, t. split; [done|]. split; [by apply list_elem_of_In|].
  split; [|done]. unfold isListed. by rewrite Hwb, Hurl.
Qed.

(** X12.  The endpoint [discoverCDP] returns is among the targets
    [discoverAllTargets] lists for the same answers of the ports, under
    its debugger URL; so when the list of all targets is empty,
    [discoverCDP] throws. *)
Theorem discoverCDP_pick_is_listed getJson order order' info :
  discoverCDP getJson order = Some (Normal info) →
  all_resolved (length PORTS) order' →
  ∃ all t, discoverAllTargets getJson order' = Some all ∧
           t ∈ all ∧ i_url t = url info.
Proof.
  intros Hpick Hall. apply discoverCDP_resolved in Hpick.
  unfold selectFirst in Hpick.
  pose proof (find_first_match (checkPort getJson) PORTS) as Hfind.
  destruct (find isMatch (checkPort getJson <$> PORTS)) as [[m|]|]; [|done|done].
  destruct Hfind as (i & p & Hi & Hp & _). injection Hpick as ->.
  destruct (checkPort_listed _ _ _ Hp) as (list & raw & Hg & Hraw & Hok & Hurl & _).
  unfold discoverAllTargets, discoverAllOver.
  rewrite promise_all_resolved by (by rewrite length_fmap).
  exists (collect (checkPortAll getJson <$> PORTS)). rewrite collect_flat.
  destruct (visit_all_inv (mjoin (checkPortAll getJson <$> PORTS)) [] ∅)
    as (_ & _ & _ & Hcover).
  { intros u. simpl. rewrite elem_of_empty. split; [done|]. apply elem_of_nil. }
  { simpl. apply NoDup_nil_2. }
  assert (describe p raw ∈ mjoin (checkPortAll getJson <$> PORTS)) as Hin.
  { apply list_elem_of_join. exists (checkPortAll getJson p). split.
    - apply elem_of_checkPortAll. by exists list, raw.
    - apply list_elem_of_fmap_2. by apply list_elem_of_lookup_2 in Hi. }
  pose proof (Hcover (describe p raw) (or_intror Hin)) as Hcov.
  apply list_elem_of_fmap in Hcov as (t & Heq & Ht).
  exists t. split; [cbn [fmap option_fmap option_map]; by rewrite collect_flat|].
  split; [exact Ht|].
  rewrite <- Heq. cbn. by rewrite Hurl.
Qed.

(** One turn of the sequential loop, in terms of the parallel
    [checkPort]. *)
Lemma scan_cons getJson p rest :
  DebugDom.scan getJson (p :: rest) =
    match checkPort getJson p with
    | Some m => (Normal (DebugDom.Endpoint p (c_url m)), [p])
    | None => ((DebugDom.scan getJson rest).1, p :: (DebugDom.scan getJson rest).2)
    end.
Proof.
  cbn [DebugDom.scan]. unfold checkPort.
  destruct (getJson p) as [l|]; [|done].
  destruct (find isWorkbench l) as [t|]; [|done].
  by destruct (t_webSocketDebuggerUrl t) as [[|a u]|].
Qed.

Lemma scan_selectFirst getJson ports :
  match selectFirst (checkPort getJson <$> ports), (DebugDom.scan getJson ports).1 with
  | Normal info, Normal e =>
      DebugDom.e_port e = port info ∧ DebugDom.e_url e = url info ∧
      last (DebugDom.scan getJson ports).2 = Some (port info)
  | Abrupt _, Abrupt _ => (DebugDom.scan getJson ports).2 = ports
  | _, _ => False
  end ∧ (DebugDom.scan getJson ports).2 `prefix_of` ports.
Proof.
  induction ports as [|p ports IH]; [done|].
  rewrite scan_cons, fmap_cons. unfold selectFirst. cbn [find].
  destruct (checkPort getJson p) as [m|] eqn:Hp; cbn [isMatch fst snd].
  - rewrite (checkPort_port _ _ _ Hp). cbn.
    split; [done|]. by exists ports.
  - fold (selectFirst (checkPort getJson <$> ports)).
    destruct IH as [IH Hpre]. split; [|by apply prefix_cons].
    destruct (selectFirst (checkPort getJson <$> ports)) as [info|e],
      (DebugDom.scan getJson ports).1 as [e'|e'] eqn:Hscan; try done.
    + destruct IH as (H1 & H2 & H3). split; [done|]. split; [done|].
      destruct ((DebugDom.scan getJson ports).2); [done|]. exact H3.
    + by rewrite IH.
Qed.

(** X13.  The parallel [discoverCDP] of [server.js] and the sequential
    one of [debug-dom.js] find the same endpoint: whatever the order in
    which the parallel probes resolve, both return the same port and
    debugger URL, or both throw.  The sequential one requests the ports
    in list order and none after the one it returns. *)
Theorem discoverCDP_parallel_is_sequential getJson order :
  all_resolved (length PORTS) order →
  ∃ r, discoverCDP getJson order = Some r ∧
    match r, (DebugDom.discoverCDP getJson).1 with
    | Normal info, Normal e =>
        DebugDom.e_port e = port info ∧ DebugDom.e_url e = url info ∧
        last (DebugDom.discoverCDP getJson).2 = Some (port info)
    | Abrupt _, Abrupt _ => (DebugDom.discoverCDP getJson).2 = PORTS
    | _, _ => False
    end ∧ (DebugDom.discoverCDP getJson).2 `prefix_of` PORTS.
Proof.
  intros Hall. eexists. split; [by apply discoverOver_priority|].
  apply (scan_selectFirst getJson PORTS).
Qed.

End DiscoveryMore.

Section DiscoveryMoreRuns.
Import JS Discovery Samples.

Lemma discoverCDP_pick_is_listed_witness :
  ∃ all t, discoverAllTargets two_ports last_first = Some all ∧
           t ∈ all ∧ i_url t = "ws://127.0.0.1:9001/devtools/page/B1".
Proof.
  assert (all_resolved (length PORTS) last_first) as H by by_evaluation.
  exact (discoverCDP_pick_is_listed two_ports last_first last_first
           (CdpInfo 9001 "ws://127.0.0.1:9001/devtools/page/B1" "B1") eq_refl H).
Defined.

Lemma discoverCDP_parallel_is_sequential_witness :
  (DebugDom.discoverCDP third_port_only).2 `prefix_of` PORTS.
Proof.
  assert (all_resolved (length PORTS) last_first) as H by by_evaluation.
  destruct (discoverCDP_parallel_is_sequential third_port_only last_first H)
    as (r & _ & _ & Hpre).
  exact Hpre.
Defined.

End DiscoveryMoreRuns.

(** ** The stored payload and its fingerprint *)

Ltac run_tick :=
  cbv [Polling.pollTickWith Polling.pollBody Polling.pollCatch Polling.bumpFailCount
       Server.hashString_of Polling.after Polling.effectsOf Polling.resultOf
       Server.try_catch mbind Server.M_bind Server.bind mret Server.M_ret Server.ret
       Server.get Server.modify Server.emit Server.log Server.await Server.throw
       Server.set_cdpConnection Server.set_lastSnapshot Server.set_lastSnapshotHash
       Server.set_discoveredInstances Server.set_activeTargetId
       Server.set_cdpRetryCount Server.set_snapshotFailCount
       Server.cdpConnection Server.lastSnapshot Server.lastSnapshotHash
       Server.discoveredInstances Server.activeTargetId
       Server.cdpRetryCount Server.snapshotFailCount fst snd]; cbn [app].

Section StoredFacts.
Import JS Wire Server Discovery Polling Instances Routes.
Implicit Types (g : globals) (env : tick_env) (N : Z).

(** [initCDP] touches neither the stored payload nor its fingerprint. *)
Lemma initCDP_loop_keeps_stored fuel reconnect k g :
  lastSnapshot (after (initCDP_loop fuel reconnect k) g) = lastSnapshot g ∧
  lastSnapshotHash (after (initCDP_loop fuel reconnect k) g) = lastSnapshotHash g.
Proof.
  revert k g. induction fuel as [|fuel IH]; intros k g; unfold after.
  - cbn [initCDP_loop]. rewrite bind_get.
    by destruct (cdpRetryCount g <? MAX_CDP_RETRIES).
  - cbn [initCDP_loop]. rewrite bind_get.
    destruct (cdpRetryCount g <? MAX_CDP_RETRIES); [|done].
    destruct g as [conn0 ls lh di at' rc fc].
    destruct (attemptOnce_run (reconnect k) conn0 ls lh di at' rc fc) as [w Hrun].
    cbv [mbind M_bind bind]. rewrite Hrun.
    pose proof (IH (S k) (Globals conn0 ls lh di at' (rc + 1) fc)) as Hrest.
    unfold after in Hrest.
    destruct (a_discover (reconnect k)) as [info|e].
    + destruct (a_connect (reconnect k) (Discovery.url info)) as [cdp|e]; [done|].
      by destruct (initCDP_loop fuel reconnect (S k) _) as [[r g2] w2].
    + by destruct (initCDP_loop fuel reconnect (S k) _) as [[r g2] w2].
Qed.

Lemma initCDP_keeps_stored reconnect g :
  lastSnapshot (after (initCDP reconnect) g) = lastSnapshot g ∧
  lastSnapshotHash (after (initCDP reconnect) g) = lastSnapshotHash g.
Proof.
  unfold after, initCDP. rewrite bind_get. apply initCDP_loop_keeps_stored.
Qed.

(** What a tick does to the stored payload and fingerprint: nothing, or
    it stores the payload it captured together with the fingerprint of
    its [html]. *)
Lemma tick_stored N env g :
  let g' := after (pollTickWith N env) g in
  (lastSnapshot g' = lastSnapshot g ∧ lastSnapshotHash g' = lastSnapshotHash g) ∨
  (∃ snap h, capture env = Normal (Some snap) ∧ html snap = Some h ∧
             lastSnapshot g' = Some snap ∧ lastSnapshotHash g' = Some (hashString h)).
Proof.
  cbv zeta. destruct (cdpConnection g) as [cdp|] eqn:Hconn.
  - destruct g as [conn ls lh di at' rc fc]. cbn in Hconn. subst conn.
    destruct (capture env) as [r|e] eqn:Hc.
    + destruct (captureFailed r) eqn:Hr.
      * unfold after. rewrite (tick_failed N env r cdp ls lh di at' rc fc Hc Hr).
        left. by destruct (N <=? fc + 1).
      * destruct r as [snap|]; [|done]. cbn in Hr. run_tick. rewrite Hc, Hr.
        destruct (html snap) as [h|] eqn:Hh; run_tick.
        -- destruct (decide (Some (hashString h) ≠ lh)).
           ++ rewrite broadcast_run. right. exists snap, h.
              by destruct (N <=? 0).
           ++ left. by destruct (N <=? 0).
        -- left. by destruct (isSocketError _).
    + unfold after. rewrite (tick_threw N env e cdp ls lh di at' rc fc Hc).
      left. by destruct (isSocketError e).
  - left. unfold after. rewrite (tick_disconnected N env g Hconn).
    pose proof (initCDP_keeps_stored (reconnect env) g) as Hkeep. unfold after in Hkeep.
    cbv [mbind M_bind bind log emit ret].
    by destruct (initCDP (reconnect env) g) as [[[b|e] g2] w2].
Qed.

Lemma after_pollTicks_cons N env envs g :
  after (pollTicks N (env :: envs)) g = after (pollTicks N envs) (after (pollTickWith N env) g).
Proof.
  destruct (pollTick_never_throws N env g) as (g1 & w1 & Htick).
  unfold after. rewrite (pollTicks_cons _ _ _ _ _ _ Htick), Htick. cbn [fst snd].
  by destruct (pollTicks N envs g1) as [[r g2] w2].
Qed.



(** X15.  [GET /snapshot] answers 503 until a payload is stored.  The
    polling loop never takes a stored payload away: after any ticks,
    also ones that dropped the connection or reconnected, the route
    answers 200 with a payload, which is the old one or one captured
    since. *)
Theorem ticks_keep_snapshot_available N envs g snap :
  lastSnapshot g = Some snap →
  ∃ snap', resultOf getSnapshot (after (pollTicks N envs) g) = Normal (Reply 200 (inr snap')) ∧
           (snap' = snap ∨ ∃ env, env ∈ envs ∧ capture env = Normal (Some snap')).
Proof.
  revert g snap. induction envs as [|env envs IH]; intros g snap Hsnap.
  - exists snap. split; [|by left]. unfold resultOf, getSnapshot, after. cbn.
    rewrite bind_get, Hsnap. done.
  - rewrite after_pollTicks_cons.
    destruct (tick_stored N env g) as [[Hs _]|(snap1 & h & Hc & _ & Hs & _)].
    + rewrite Hsnap in Hs. destruct (IH _ _ Hs) as (snap' & Hget & Hfrom).
      exists snap'. split; [done|]. destruct Hfrom as [->|(env' & Hin & Hc)]; [by left|].
      right. exists env'. split; [|done]. apply elem_of_cons. by right.
    + destruct (IH _ _ Hs) as (snap' & Hget & Hfrom).
      exists snap'. split; [done|]. right. destruct Hfrom as [->|(env' & Hin & Hc')].
      * exists env. split; [|done]. apply elem_of_cons. by left.
      * exists env'. split; [|done]. apply elem_of_cons. by right.
Qed.

(** A switch and the tick after it, each run with no other function
    of the server in between: right after a [POST /instance] that
    found its target, [GET /snapshot] answers 503.  The first
    successful capture after a successful switch is then always
    stored and announced to every open client, also when its [html] is
    the one that was stored before the switch. *)
Theorem switch_forces_rebroadcast g senv targetId target new env snap h :
  truthy targetId = true →
  find (λ i, bool_decide (Some (i_id i) = targetId))
       (if decide (length (discoveredInstances g) = 0%nat)
        then sw_discoverAll senv else discoveredInstances g) = Some target →
  sw_connect senv (i_url target) = Normal new →
  capture env = Normal (Some snap) → truthy (error snap) = false → html snap = Some h →
  let g1 := after (postInstance targetId senv) g in
  resultOf getSnapshot g1 = Normal (Reply 503 (inl "No snapshot available yet")) ∧
  sendsIn (effectsOf (pollTick env) g1) = notices (clients env) (now env) ∧
  resultOf getSnapshot (after (pollTick env) g1) = Normal (Reply 200 (inr snap)).
Proof.
  intros Hid Hfind Hconn Hc Herr Hhtml. cbv zeta. unfold after at 1 2 4.
  rewrite (postInstance_found g senv targetId target Hid Hfind). cbv zeta.
  rewrite Hconn. cbn [fst snd]. split; [reflexivity|].
  unfold effectsOf, after, pollTick.
  rewrite (tick_succeeded MAX_SNAPSHOT_FAILS env snap h new None None _ _ 0 0 Hc Herr Hhtml)
    by done.
  rewrite decide_True by done. cbn [fst snd]. split; [|reflexivity].
  rewrite sendsIn_app, sendsIn_notices. cbn. by rewrite app_nil_r.
Qed.

End StoredFacts.

(** ** The upload cache *)

Section CacheFacts.
Import JS Cache.
Implicit Types (d : fs) (f g : file) (l : list file) (st : progress).

(** *** Sorting *)

Lemma insertNewestFirst_perm f l : insertNewestFirst f l ≡ₚ f :: l.
Proof.
  induction l as [|g l IH]; [done|]. cbn [insertNewestFirst].
  destruct (createdAt g <=? createdAt f); [done|].
  rewrite IH. apply Permutation_swap.
Qed.

Lemma sortNewestFirst_perm l : sortNewestFirst l ≡ₚ l.
Proof.
  induction l as [|f l IH]; [done|]. cbn [sortNewestFirst foldr].
  fold (sortNewestFirst l). by rewrite insertNewestFirst_perm, IH.
Qed.

Lemma insertNewestFirst_sorted f l :
  StronglySorted (λ a b, createdAt b ≤ createdAt a) l →
  StronglySorted (λ a b, createdAt b ≤ createdAt a) (insertNewestFirst f l).
Proof.
  induction l as [|g l IH]; intros Hs; cbn [insertNewestFirst].
  - repeat constructor.
  - apply StronglySorted_inv in Hs as [Hs Hall].
    destruct (Z.leb_spec (createdAt g) (createdAt f)) as [Hle|Hgt].
    + constructor; [by constructor|]. constructor; [done|].
      eapply Forall_impl; [exact Hall|]. intros x Hx. simpl in Hx. lia.
    + constructor; [by apply IH|].
      rewrite insertNewestFirst_perm. constructor; [lia|done].
Qed.

Lemma sortNewestFirst_sorted l :
  StronglySorted (λ a b, createdAt b ≤ createdAt a) (sortNewestFirst l).
Proof.
  induction l as [|f l IH]; [constructor|].
  cbn [sortNewestFirst foldr]. by apply insertNewestFirst_sorted.
Qed.

(** *** Listing the cache *)

Lemma statFile_run d dir folder names acc :
  foldl (statFile d dir folder) acc names =
    acc ++ omap (λ n, match stat d (join d dir n) with
                      | Normal st =>
                          Some (File (join d dir n) n folder
                                  (st_size st) (birthtimeMs st) (mtimeMs st))
                      | Abrupt _ => None
                      end) names.
Proof.
  revert acc. induction names as [|n names IH]; intros acc.
  - cbn. by rewrite app_nil_r.
  - cbn [foldl]. rewrite IH. unfold statFile. simpl omap.
    destruct (stat d (join d dir n)); [|done].
    by rewrite <- app_assoc.
Qed.

Lemma elem_of_readFolder d uploadDir folder acc f :
  f ∈ readFolder d uploadDir acc folder ↔
  f ∈ acc ∨
  ∃ names n meta,
    readdir d (join d uploadDir folder) = Normal names ∧ n ∈ names ∧
    stat d (join d (join d uploadDir folder) n) = Normal meta ∧
    f = File (join d (join d uploadDir folder) n) n folder
          (st_size meta) (birthtimeMs meta) (mtimeMs meta).
Proof.
  unfold readFolder. destruct (readdir d (join d uploadDir folder)) as [names|e].
  - rewrite statFile_run, elem_of_app, list_elem_of_omap. split.
    + intros [Hacc|(n & Hn & Hf)]; [by left|right].
      destruct (stat d (join d (join d uploadDir folder) n)) as [meta|] eqn:Hst; [|done].
      injection Hf as <-. by exists names, n, meta.
    + intros [Hacc|(names' & n & meta & [= <-] & Hn & Hst & ->)]; [by left|right].
      exists n. split; [done|]. by rewrite Hst.
  - split; [by left|]. intros [Hacc|(names & n & meta & ? & _)]; done.
Qed.

Lemma readFolder_app d uploadDir folder acc :
  readFolder d uploadDir acc folder = acc ++ readFolder d uploadDir [] folder.
Proof.
  unfold readFolder. destruct (readdir d (join d uploadDir folder)) as [names|e].
  - by rewrite !statFile_run.
  - by rewrite app_nil_r.
Qed.

Lemma elem_of_getAllFiles d uploadDir f :
  f ∈ getAllFiles d uploadDir ↔
  ∃ names n meta,
    (folder f = "audio" ∨ folder f = "files") ∧
    readdir d (join d uploadDir (folder f)) = Normal names ∧ n ∈ names ∧
    stat d (join d (join d uploadDir (folder f)) n) = Normal meta ∧
    f = File (join d (join d uploadDir (folder f)) n) n (folder f)
          (st_size meta) (birthtimeMs meta) (mtimeMs meta).
Proof.
  unfold getAllFiles. cbn [foldl]. rewrite !elem_of_readFolder. split.
  - intros [[Hnil|(names & n & meta & Hdir & Hn & Hst & ->)]
           |(names & n & meta & Hdir & Hn & Hst & ->)].
    + by apply elem_of_nil in Hnil.
    + exists names, n, meta. cbn [folder]. split; [by left|done].
    + exists names, n, meta. cbn [folder]. split; [by right|done].
  - intros (names & n & meta & [Hf|Hf] & Hdir & Hn & Hst & Heq); rewrite Hf in *.
    + left. right. by exists names, n, meta.
    + right. by exists names, n, meta.
Qed.

(** X19.  [getAllFiles] lists a file exactly when its folder, one of
    [audio] and [files], could be read, names it, and the file's
    [stat] succeeded; its size and times are those of that [stat].  A
    folder that cannot be read and a file that cannot be examined are
    left out without disturbing the rest, and the files of [audio]
    come before those of [files]. *)
Theorem getAllFiles_skips_failures d uploadDir :
  (∀ f, f ∈ getAllFiles d uploadDir ↔
     ∃ names n meta,
       (folder f = "audio" ∨ folder f = "files") ∧
       readdir d (join d uploadDir (folder f)) = Normal names ∧ n ∈ names ∧
       stat d (join d (join d uploadDir (folder f)) n) = Normal meta ∧
       f = File (join d (join d uploadDir (folder f)) n) n (folder f)
             (st_size meta) (birthtimeMs meta) (mtimeMs meta)) ∧
  ∃ fromAudio fromFiles,
    getAllFiles d uploadDir = fromAudio ++ fromFiles ∧
    Forall (λ f, folder f = "audio") fromAudio ∧
    Forall (λ f, folder f = "files") fromFiles.
Proof.
  split; [apply elem_of_getAllFiles|].
  exists (readFolder d uploadDir [] "audio"), (readFolder d uploadDir [] "files").
  split; [unfold getAllFiles; cbn [foldl]; by rewrite readFolder_app|].
  split; apply Forall_forall; intros f Hf; apply elem_of_readFolder in Hf;
    destruct Hf as [Hnil|(names & n & meta & _ & _ & _ & ->)];
    by (apply elem_of_nil in Hnil) || done.
Qed.

(** *** Statistics *)

Lemma getAllFiles_folders d uploadDir :
  Forall (λ f, folder f = "audio" ∨ folder f = "files") (getAllFiles d uploadDir).
Proof.
  apply Forall_forall. intros f Hf.
  apply elem_of_getAllFiles in Hf as (_ & _ & _ & Hfolder & _). exact Hfolder.
Qed.

Ltac in_snoc :=
  first [ apply elem_of_app; left; assumption
        | apply elem_of_app; right; apply list_elem_of_singleton; reflexivity
        | apply list_elem_of_singleton; reflexivity ].

(** What the loop of [getCacheStats] has computed after a prefix of
    the list. *)
Lemma statsOf_run l pre s0 :
  Forall (λ f, folder f = "audio" ∨ folder f = "files") l →
  count (audio s0) + count (files s0) = Z.of_nat (length pre) →
  totalSize s0 = sumSizes pre → totalSize s0 = bytes (audio s0) + bytes (files s0) →
  tallied pre s0 →
  ∃ s, foldl addFile (Normal s0) l = Normal s ∧
       totalFiles s = totalFiles s0 ∧
       count (audio s) + count (files s) = Z.of_nat (length (pre ++ l)) ∧
       totalSize s = sumSizes (pre ++ l) ∧
       totalSize s = bytes (audio s) + bytes (files s) ∧
       tallied (pre ++ l) s.
Proof.
  revert pre s0. induction l as [|f l IH]; intros pre s0 Hfolders Hcount Hsize Hbytes Hends.
  - exists s0. rewrite app_nil_r. done.
  - apply Forall_cons in Hfolders as [Hf Hfolders]. cbn [foldl].
    assert (sumSizes (pre ++ [f]) = sumSizes pre + size f) as Hsum.
    { clear. induction pre as [|x pre IH]; cbn; [lia|]. unfold sumSizes in IH. rewrite IH. lia. }
    assert (∃ s1, addFile (Normal s0) f = Normal s1 ∧
                  totalFiles s1 = totalFiles s0 ∧
                  count (audio s1) + count (files s1) = Z.of_nat (length (pre ++ [f])) ∧
                  totalSize s1 = sumSizes (pre ++ [f]) ∧
                  totalSize s1 = bytes (audio s1) + bytes (files s1) ∧
                  tallied (pre ++ [f]) s1) as (s1 & Hs1 & Htf & Hc1 & Hz1 & Hb1 & He1).
    { rewrite length_app, Hsum. cbn [length addFile].
      assert (tallied (pre ++ [f])
                (CacheStats (totalFiles s0) (totalSize s0 + size f) (audio s0) (files s0)
                   match oldestFile s0 with
                   | Some o => if createdAt f <? createdAt o then Some f else Some o
                   | None => Some f
                   end
                   match newestFile s0 with
                   | Some n => if createdAt n <? createdAt f then Some f else Some n
                   | None => Some f
                   end)) as Hends'.
      { unfold tallied in *. cbn [oldestFile newestFile].
        destruct (oldestFile s0) as [o|], (newestFile s0) as [n|]; try done.
        - destruct Hends as (Ho & Hn & Hall).
          assert (∀ x, x ∈ pre ++ [f] → x ∈ pre ∨ x = f) as Hsplit.
          { intros x Hx. apply elem_of_app in Hx as [?|Hx]; [by left|right].
            by apply list_elem_of_singleton in Hx. }
          destruct (Z.ltb_spec (createdAt f) (createdAt o)),
                   (Z.ltb_spec (createdAt n) (createdAt f));
            (split; [in_snoc|]); (split; [in_snoc|]);
            intros x Hx; destruct (Hsplit x Hx) as [Hpre| ->];
            try (specialize (Hall x Hpre)); lia.
        - subst pre. cbn. split; [in_snoc|]. split; [in_snoc|].
          intros x Hx. apply list_elem_of_singleton in Hx as ->. lia. }
      destruct Hf as [Hf|Hf]; rewrite Hf; cbn [String.eqb Ascii.eqb Bool.eqb andb];
        eexists; (split; [reflexivity|]);
        cbn [totalFiles totalSize audio files count bytes oldestFile newestFile];
        unfold tallied in *;
        cbn [totalFiles totalSize audio files count bytes oldestFile newestFile] in *;
        (split; [done|]); (split; [lia|]); (split; [lia|]); (split; [lia|]); exact Hends'. }
    rewrite Hs1. destruct (IH (pre ++ [f]) s1 Hfolders Hc1 Hz1 Hb1 He1)
      as (s & Hrun & Htf' & Hc & Hz & Hb & He).
    exists s. rewrite <- app_assoc in Hc, Hz, He. cbn [app] in Hc, Hz, He.
    split; [done|]. split; [congruence|]. done.
Qed.

(** X20.  [getCacheStats] does not throw.  [totalFiles] is the number
    of files listed and equals the two folder counts together;
    [totalSize] is the sum of the sizes and equals the two folder sizes
    together; [oldestFile] and [newestFile] are listed files with the
    least and the greatest creation time, and are [null] exactly when
    nothing is listed. *)
Theorem getCacheStats_totals d uploadDir :
  let all := getAllFiles d uploadDir in
  ∃ s, getCacheStats d uploadDir = Normal s ∧
       totalFiles s = Z.of_nat (length all) ∧
       totalFiles s = count (audio s) + count (files s) ∧
       totalSize s = sumSizes all ∧
       totalSize s = bytes (audio s) + bytes (files s) ∧
       match oldestFile s, newestFile s with
       | Some o, Some n =>
           o ∈ all ∧ n ∈ all ∧ ∀ f, f ∈ all → createdAt o ≤ createdAt f ≤ createdAt n
       | None, None => all = []
       | _, _ => False
       end.
Proof.
  cbv zeta. unfold getCacheStats, statsOf.
  destruct (statsOf_run (getAllFiles d uploadDir) []
              (CacheStats (Z.of_nat (length (getAllFiles d uploadDir))) 0
                 (Tally 0 0) (Tally 0 0) None None))
    as (s & Hrun & Htf & Hc & Hz & Hb & He); try done.
  { apply getAllFiles_folders. }
  exists s. cbn [app totalFiles] in *. split; [done|]. split; [done|].
  split; [lia|]. split; [done|]. split; [done|]. exact He.
Qed.

(** *** The cleanup loop *)

Lemma visitFile_run d now l st :
  let r := foldl (visitFile d now) st l in
  let tail := drop (MIN_FILES_TO_KEEP - index st) l in
  let gone := List.filter (λ f, bool_decide (unlink d (path f) = None))
                (List.filter (isOld now) tail) in
  unlinked r = unlinked st ++ (path <$> List.filter (isOld now) tail) ∧
  deletedCount r = deletedCount st + Z.of_nat (length gone) ∧
  deletedSize r = deletedSize st + sumSizes gone.
Proof.
  revert st. induction l as [|f l IH]; intros st; cbv zeta.
  - rewrite drop_nil. cbn. rewrite app_nil_r. split; [done|]. split; lia.
  - cbn [foldl]. specialize (IH (visitFile d now st f)). cbv zeta in IH.
    destruct IH as (Hu & Hc & Hs). rewrite Hu, Hc, Hs. clear Hu Hc Hs.
    unfold visitFile. destruct (Nat.ltb_spec (index st) MIN_FILES_TO_KEEP) as [Hlt|Hge].
    + cbn [index unlinked deletedCount deletedSize].
      replace (MIN_FILES_TO_KEEP - index st)%nat
        with (S (MIN_FILES_TO_KEEP - S (index st))) by lia.
      done.
    + replace (MIN_FILES_TO_KEEP - index st)%nat with 0%nat by lia.
      cbn [drop List.filter]. fold (isOld now f).
      destruct (isOld now f) eqn:Hold.
      * destruct (unlink d (path f)) as [e|] eqn:Hun;
          cbn [index unlinked deletedCount deletedSize];
          replace (MIN_FILES_TO_KEEP - S (index st))%nat with 0%nat by lia;
          cbn [drop List.filter]; rewrite Hun; change (drop 0 l) with l.
        -- rewrite bool_decide_false by done. rewrite fmap_cons, <- app_assoc. done.
        -- rewrite bool_decide_true by done. cbn [length sumSizes foldr].
           rewrite fmap_cons, <- app_assoc. cbn [app].
           fold (sumSizes (List.filter (λ f0, bool_decide (unlink d (path f0) = None))
                             (List.filter (isOld now) l))).
           split; [done|]. split; lia.
      * cbn [index unlinked deletedCount deletedSize].
        replace (MIN_FILES_TO_KEEP - S (index st))%nat with 0%nat by lia.
        change (drop 0 l) with l. done.
Qed.

Lemma elem_of_List_filter {A} (P : A → bool) (l : list A) x :
  x ∈ List.filter P l ↔ x ∈ l ∧ P x = true.
Proof. rewrite !list_elem_of_In. apply filter_In. Qed.

Lemma length_List_filter {A} (P : A → bool) (l : list A) :
  (length (List.filter P l) ≤ length l)%nat.
Proof.
  induction l as [|x l IH]; [done|]. cbn. destruct (P x); cbn; lia.
Qed.

Lemma cleanupOldFiles_run d uploadDir now :
  let tried := List.filter (isOld now) (drop 10 (sortNewestFirst (getAllFiles d uploadDir))) in
  let gone := List.filter (λ f, bool_decide (unlink d (path f) = None)) tried in
  unlinked (cleanupOldFiles d uploadDir now) = path <$> tried ∧
  deletedCount (cleanupOldFiles d uploadDir now) = Z.of_nat (length gone) ∧
  deletedSize (cleanupOldFiles d uploadDir now) = sumSizes gone.
Proof.
  exact (visitFile_run d now (sortNewestFirst (getAllFiles d uploadDir)) (Progress 0 0 0 [])).
Qed.

(** X17.  [cleanupOldFiles] hands to [fs.unlink] exactly the files
    older than seven days that are not among the ten newest, newest
    first.  So every file it tries to delete is more than 604800000 ms
    old and has ten files before it that are at least as new; a file
    of exactly seven days is kept; and with ten files or fewer nothing
    is deleted, however old they are. *)
Theorem cleanup_spares_ten_newest d uploadDir now :
  let all := getAllFiles d uploadDir in
  let sorted := sortNewestFirst all in
  let r := cleanupOldFiles d uploadDir now in
  sorted ≡ₚ all ∧
  unlinked r = path <$> List.filter (isOld now) (drop 10 sorted) ∧
  (∀ p, p ∈ unlinked r →
     ∃ i f, sorted !! i = Some f ∧ path f = p ∧ (10 ≤ i)%nat ∧
            604800000 < now - createdAt f ∧
            ∀ j, (j < i)%nat → ∃ g, sorted !! j = Some g ∧ createdAt f ≤ createdAt g) ∧
  (length (unlinked r) ≤ length all - 10)%nat ∧
  ((length all ≤ 10)%nat → unlinked r = [] ∧ deletedCount r = 0 ∧ deletedSize r = 0).
Proof.
  cbv zeta. destruct (cleanupOldFiles_run d uploadDir now) as (Hu & Hc & Hs).
  cbv zeta in Hu, Hc, Hs.
  pose proof (sortNewestFirst_perm (getAllFiles d uploadDir)) as Hperm.
  pose proof (sortNewestFirst_sorted (getAllFiles d uploadDir)) as Hsorted.
  revert Hu Hc Hs Hperm Hsorted.
  generalize (sortNewestFirst (getAllFiles d uploadDir)) as sorted.
  generalize (getAllFiles d uploadDir) as all.
  generalize (cleanupOldFiles d uploadDir now) as r.
  intros r all sorted Hu Hc Hs Hperm Hsorted.
  split; [exact Hperm|]. split; [exact Hu|]. split; [|split].
  - intros p Hp. rewrite Hu in Hp.
    apply list_elem_of_fmap in Hp as (f & -> & Hf).
    apply elem_of_List_filter in Hf as [Hin Hold].
    apply list_elem_of_lookup in Hin as [k Hk]. rewrite lookup_drop in Hk.
    exists (10 + k)%nat, f. split; [done|]. split; [done|]. split; [lia|]. split.
    { unfold isOld, maxAge, MAX_AGE_DAYS in Hold. apply Z.ltb_lt in Hold. lia. }
    intros j Hj.
    destruct (lookup_lt_is_Some_2 sorted j) as [g Hg].
    { apply lookup_lt_Some in Hk. lia. }
    exists g. split; [done|].
    rewrite <- (take_drop_middle sorted (10 + k) f Hk) in Hsorted, Hg.
    apply StronglySorted_app_1_elem_of with (x1 := g) (x2 := f) in Hsorted; [done| |].
    + rewrite lookup_app_l in Hg by (rewrite length_take; apply lookup_lt_Some in Hk; lia).
      by apply list_elem_of_lookup_2 in Hg.
    + apply elem_of_cons. by left.
  - rewrite Hu, length_fmap. etransitivity; [apply length_List_filter|].
    rewrite length_drop, Hperm. done.
  - intros Hfew. rewrite <- Hperm in Hfew.
    rewrite drop_ge in Hu, Hc, Hs by done. cbn in Hu, Hc, Hs. split; [done|]. split; lia.
Qed.

(** X18.  The counts [cleanupOldFiles] returns are those of the
    deletions that went through: [deletedCount] is their number and
    [deletedSize] the sum of their sizes.  A failing [fs.unlink] is
    not counted and does not end the run: which files are tried does
    not depend on how any [unlink] ends. *)
Theorem cleanup_counts_successes d uploadDir now :
  let r := cleanupOldFiles d uploadDir now in
  let tried := List.filter (isOld now) (drop 10 (sortNewestFirst (getAllFiles d uploadDir))) in
  let gone := List.filter (λ f, bool_decide (unlink d (path f) = None)) tried in
  deletedCount r = Z.of_nat (length gone) ∧
  deletedSize r = sumSizes gone ∧
  0 ≤ deletedCount r ≤ Z.of_nat (length (unlinked r)) ∧
  ∀ unlink',
    unlinked (cleanupOldFiles (Fs (join d) (readdir d) (stat d) unlink') uploadDir now)
      = unlinked r.
Proof.
  cbv zeta. destruct (cleanupOldFiles_run d uploadDir now) as (Hu & Hc & Hs).
  cbv zeta in Hu, Hc, Hs.
  split; [exact Hc|]. split; [exact Hs|]. split.
  - rewrite Hc, Hu, length_fmap.
    pose proof (length_List_filter (λ f, bool_decide (unlink d (path f) = None))
                  (List.filter (isOld now)
                     (drop 10 (sortNewestFirst (getAllFiles d uploadDir))))). lia.
  - intros unlink'. rewrite Hu.
    destruct (cleanupOldFiles_run (Fs (join d) (readdir d) (stat d) unlink') uploadDir now)
      as (Hu' & _).
    exact Hu'.
Qed.

End CacheFacts.

(** ** Helpers that evaluate scripts in the page *)

Section PageFacts.
Import JS Wire Server Page.
Implicit Types (call : evaluate) (ctxs : list context) (cdp : connection) (p : page).

Lemma firstValue_cons accept call ctx rest :
  firstValue accept call (ctx :: rest) =
    if answers accept call ctx
    then (match call (ctx_id ctx) with
          | Normal r => Some (valueOf r)
          | Abrupt _ => None
          end, [ctx_id ctx])
    else ((firstValue accept call rest).1, ctx_id ctx :: (firstValue accept call rest).2).
Proof.
  cbn [firstValue]. unfold answers.
  destruct (call (ctx_id ctx)) as [r|e]; [|done].
  by destruct (truthyJ (valueOf r) && accept (valueOf r)).
Qed.

Lemma firstValue_first accept call ctxs :
  match (firstValue accept call ctxs).1 with
  | Some v =>
      ∃ i ctx r, ctxs !! i = Some ctx ∧ call (ctx_id ctx) = Normal r ∧ v = valueOf r ∧
                 truthyJ v = true ∧ accept v = true ∧
                 (firstValue accept call ctxs).2 = ctx_id <$> take (S i) ctxs ∧
                 ∀ j ctx', (j < i)%nat → ctxs !! j = Some ctx' →
                           answers accept call ctx' = false
  | None =>
      (firstValue accept call ctxs).2 = ctx_id <$> ctxs ∧
      ∀ ctx, ctx ∈ ctxs → answers accept call ctx = false
  end.
Proof.
  induction ctxs as [|ctx rest IH].
  - cbn. split; [done|]. intros ctx Hctx. by apply elem_of_nil in Hctx.
  - rewrite firstValue_cons. destruct (answers accept call ctx) eqn:Hans.
    + unfold answers in Hans. destruct (call (ctx_id ctx)) as [r|e] eqn:Hcall; [|done].
      apply andb_true_iff in Hans as [Htruthy Haccept]. cbn [fst snd].
      exists 0%nat, ctx, r. repeat split; try done. intros j ctx' Hj. lia.
    + cbn [fst snd]. destruct (firstValue accept call rest).1 as [v|].
      * destruct IH as (i & ctx0 & r & Hi & Hcall & Hv & Ht & Ha & Hcalls & Hbefore).
        exists (S i), ctx0, r. repeat split; try done.
        -- cbn [take fmap list_fmap]. by rewrite Hcalls.
        -- intros [|j] ctx' Hj Hctx'; cbn in Hctx'; [congruence|].
           apply (Hbefore j); [lia|done].
      * destruct IH as [Hcalls Hnone]. split; [cbn; by rewrite Hcalls|].
        intros ctx' Hctx'. apply elem_of_cons in Hctx' as [->|Hctx']; [done|by apply Hnone].
Qed.

Lemma firstValue_skip accept call before rest :
  (∀ c, c ∈ before → answers accept call c = false) →
  firstValue accept call (before ++ rest) =
    ((firstValue accept call rest).1,
     (ctx_id <$> before) ++ (firstValue accept call rest).2).
Proof.
  induction before as [|c before IH]; intros Hbefore.
  - cbn [app fmap list_fmap]. by destruct (firstValue accept call rest).
  - rewrite <- app_comm_cons, firstValue_cons.
    rewrite Hbefore by (apply elem_of_cons; by left).
    rewrite IH by (intros c' Hc'; apply Hbefore, elem_of_cons; by right).
    done.
Qed.

(** X21.  Every helper that sends a script to the contexts of a
    connection ([checkPendingAction], [checkStepConfirmation],
    [checkBrowserPermission], [checkToolPermission],
    [clickActionButton], [clickToolPermission], [clickConfirmation],
    [clickElementCDP]) calls the contexts in list order and stops at
    the first one whose call returns a value it accepts: it returns
    that value and calls no context after it.  Calls that reject and
    values it does not accept are passed over; when no context is
    accepted it has called each one once and returns its fixed
    answer. *)
Theorem helper_returns_first_accepted accept fallback call cdp :
  let out := helper accept fallback call cdp in
  (∃ i ctx r,
     contexts cdp !! i = Some ctx ∧ call (ctx_id ctx) = Normal r ∧
     out = (valueOf r, ctx_id <$> take (S i) (contexts cdp)) ∧
     truthyJ (valueOf r) = true ∧ accept (valueOf r) = true ∧
     ∀ j ctx', (j < i)%nat → contexts cdp !! j = Some ctx' →
               answers accept call ctx' = false)
  ∨ (out = (fallback, ctx_id <$> contexts cdp) ∧
     ∀ ctx, ctx ∈ contexts cdp → answers accept call ctx = false).
Proof.
  cbv zeta. unfold helper.
  pose proof (firstValue_first accept call (contexts cdp)) as Hfirst.
  destruct (firstValue accept call (contexts cdp)) as [[v|] calls]; cbn [fst snd] in *.
  - left. destruct Hfirst as (i & ctx & r & Hi & Hcall & -> & Ht & Ha & -> & Hbefore).
    by exists i, ctx, r.
  - right. destruct Hfirst as [-> Hnone]. done.
Qed.

(** X22.  The three click helpers take the first answer for the
    answer: when the first context whose call returns a value reports
    a failure, say [{ok: false, reason: 'button_not_found'}], then
    [clickActionButton], [clickToolPermission] and [clickConfirmation]
    return that failure and never ask the contexts after it, whereas
    [clickElementCDP] goes on to the next context until one reports
    [success]. *)
Theorem click_helpers_take_first_answer call cdp before ctx after r :
  contexts cdp = before ++ ctx :: after →
  (∀ c, c ∈ before → answers (λ _, true) call c = false) →
  call (ctx_id ctx) = Normal r → truthyJ (valueOf r) = true →
  clickActionButton call cdp = (valueOf r, ctx_id <$> before ++ [ctx]) ∧
  clickToolPermission call cdp = (valueOf r, ctx_id <$> before ++ [ctx]) ∧
  clickConfirmation call cdp = (valueOf r, ctx_id <$> before ++ [ctx]) ∧
  (flag "success" (valueOf r) = false →
   (∃ c, c ∈ after ∧ answers (flag "success") call c = true) →
   ∃ k c r', after !! k = Some c ∧ call (ctx_id c) = Normal r' ∧
             clickElementCDP call cdp =
               (valueOf r', ctx_id <$> before ++ ctx :: take (S k) after)).
Proof.
  intros Hctxs Hbefore Hcall Htruthy.
  assert (helper (λ _, true) noContext call cdp = (valueOf r, ctx_id <$> before ++ [ctx]))
    as Hclick.
  { unfold helper. rewrite Hctxs, (firstValue_skip _ _ _ _ Hbefore), firstValue_cons.
    unfold answers. rewrite Hcall, Htruthy. cbn [andb fst snd default].
    by rewrite fmap_app. }
  split; [exact Hclick|]. split; [exact Hclick|]. split; [exact Hclick|].
  intros Hfail (c & Hc & Hans).
  unfold clickElementCDP, helper.
  pose proof (firstValue_first (flag "success") call (contexts cdp)) as Hgen.
  destruct (firstValue (flag "success") call (contexts cdp)) as [[v|] calls];
    cbn [fst snd default] in *.
  - destruct Hgen as (i & c' & r' & Hi & Hcall' & -> & Ht & Ha & -> & Hbefore').
    rewrite Hctxs in Hi, Hbefore'. rewrite Hctxs.
    assert (length before < i)%nat as Hpast.
    { destruct (Nat.lt_trichotomy i (length before)) as [Hlt|[Heq|Hgt]]; [| |done].
      - rewrite lookup_app_l in Hi by done.
        apply list_elem_of_lookup_2, Hbefore in Hi. unfold answers in Hi.
        rewrite Hcall', Ht in Hi. done.
      - subst i. rewrite list_lookup_middle in Hi by done. injection Hi as <-.
        rewrite Hcall in Hcall'. injection Hcall' as <-.
        congruence. }
    exists (i - S (length before))%nat, c', r'.
    rewrite lookup_app_r in Hi by lia.
    replace (i - length before)%nat with (S (i - S (length before))) in Hi by lia.
    cbn in Hi. split; [done|]. split; [done|].
    f_equal. f_equal.
    rewrite take_app_ge by lia.
    replace (S i - length before)%nat with (S (S (i - S (length before)))) by lia.
    done.
  - destruct Hgen as [_ Hnone].
    rewrite Hctxs in Hnone. rewrite Hnone in Hans; [done|].
    apply elem_of_app. right. apply elem_of_cons. by right.
Qed.

(** *** [injectMessage] *)

Lemma waitForContexts_stops p fuel wait k :
  (wait ≤ k ≤ wait + fuel)%nat →
  (∀ j, (wait ≤ j < k)%nat → contextsAfter p j = []) →
  (k = (wait + fuel)%nat ∨ contextsAfter p k ≠ []) →
  waitForContexts p fuel wait = k.
Proof.
  revert wait. induction fuel as [|fuel IH]; intros wait Hk Hempty Hstop.
  - cbn. lia.
  - cbn [waitForContexts]. destruct (decide (k = wait)) as [->|Hne].
    + destruct Hstop as [?|Hstop]; [lia|]. by destruct (contextsAfter p wait).
    + rewrite (Hempty wait) by lia. apply IH; [lia| |].
      * intros j Hj. apply Hempty. lia.
      * destruct Hstop as [->|?]; [left; lia|by right].
Qed.

Lemma busySweep_cons call ctx rest :
  busySweep call (ctx :: rest) =
    if saysBusy call ctx then (true, [BusyProbe (ctx_id ctx)])
    else ((busySweep call rest).1, BusyProbe (ctx_id ctx) :: (busySweep call rest).2).
Proof.
  cbn [busySweep]. unfold saysBusy. destruct (call (ctx_id ctx)) as [r|e]; [|done].
  destruct (valueOf r) as [|[|]| | |]; done.
Qed.

Lemma busySweep_run call ctxs :
  (busySweep call ctxs).1 = existsb (saysBusy call) ctxs ∧
  Forall (λ a, isBusyProbe a = true) (busySweep call ctxs).2 ∧
  (busySweep call ctxs).2 = BusyProbe <$> (ctx_id <$> take (length (busySweep call ctxs).2) ctxs).
Proof.
  induction ctxs as [|ctx rest (IH1 & IH2 & IH3)]; [by repeat constructor|].
  rewrite busySweep_cons. cbn [existsb]. destruct (saysBusy call ctx); cbn [fst snd orb].
  - split; [done|]. split; [by repeat constructor|done].
  - split; [done|]. split; [by constructor|]. cbn. by rewrite <- IH3.
Qed.

Lemma busyLoop_S p ctxs fuel a :
  busyLoop p ctxs (S fuel) a =
    if (busySweep (busy p a) ctxs).1
    then ((busyLoop p ctxs fuel (S a)).1,
          (busySweep (busy p a) ctxs).2 ++ Wait 500 :: (busyLoop p ctxs fuel (S a)).2)
    else (a, (busySweep (busy p a) ctxs).2).
Proof. reflexivity. Qed.

Lemma busyLoop_run p ctxs fuel a :
  let r := busyLoop p ctxs fuel a in
  (a ≤ r.1 ≤ a + fuel)%nat ∧
  length (List.filter isWait r.2) = (r.1 - a)%nat ∧
  Forall (λ x, isBusyProbe x = true ∨ x = Wait 500) r.2 ∧
  (∀ k, (a ≤ k < r.1)%nat → existsb (saysBusy (busy p k)) ctxs = true) ∧
  ((r.1 < a + fuel)%nat → existsb (saysBusy (busy p r.1)) ctxs = false).
Proof.
  revert a. induction fuel as [|fuel IH]; intros a; cbv zeta.
  - cbn. split; [lia|]. split; [lia|]. split; [constructor|]. split; intros; lia.
  - rewrite busyLoop_S.
    destruct (busySweep_run (busy p a) ctxs) as (Hbusy & Htrace & _).
    destruct (busySweep (busy p a) ctxs).1 eqn:Hsweep.
    + specialize (IH (S a)). cbv zeta in IH.
      destruct IH as (Hbound & Hwaits & Hshape & Hbefore & Hidle). cbn [fst snd].
      split; [lia|]. split; [|split; [|split]].
      * rewrite List.filter_app, length_app. cbn [List.filter isWait length].
        rewrite Hwaits.
        assert (List.filter isWait (busySweep (busy p a) ctxs).2 = []) as ->.
        { clear -Htrace. induction Htrace as [|x l Hx _ IH]; [done|].
          cbn. destruct x; try done. }
        cbn. lia.
      * apply Forall_app. split.
        -- eapply Forall_impl; [exact Htrace|]. intros x Hx. by left.
        -- constructor; [by right|done].
      * intros k Hk. destruct (decide (k = a)) as [->|Hne]; [congruence|].
        apply Hbefore. lia.
      * intros Hlt. apply Hidle. lia.
    + cbn [fst snd]. split; [lia|]. split; [|split; [|split]].
      * assert (List.filter isWait (busySweep (busy p a) ctxs).2 = []) as ->.
        { clear -Htrace. induction Htrace as [|x l Hx _ IH]; [done|].
          cbn. destruct x; try done. }
        cbn. lia.
      * eapply Forall_impl; [exact Htrace|]. intros x Hx. by left.
      * intros k Hk. lia.
      * intros _. congruence.
Qed.

Lemma findTarget_cons call ctx rest :
  findTarget call (ctx :: rest) =
    if saysValid call ctx then (Some ctx, [CheckProbe (ctx_id ctx)])
    else ((findTarget call rest).1, CheckProbe (ctx_id ctx) :: (findTarget call rest).2).
Proof.
  cbn [findTarget]. unfold saysValid. destruct (call (ctx_id ctx)) as [r|e]; [|done].
  by destruct (truthyJ (prop "isValid" (valueOf r))).
Qed.

Lemma findTarget_run call ctxs :
  Forall (λ a, isCheck a = true) (findTarget call ctxs).2 ∧
  match (findTarget call ctxs).1 with
  | Some ctx =>
      ∃ i, ctxs !! i = Some ctx ∧ saysValid call ctx = true ∧
           (findTarget call ctxs).2 = CheckProbe <$> (ctx_id <$> take (S i) ctxs) ∧
           ∀ j ctx', (j < i)%nat → ctxs !! j = Some ctx' → saysValid call ctx' = false
  | None => ∀ ctx, ctx ∈ ctxs → saysValid call ctx = false
  end.
Proof.
  induction ctxs as [|ctx rest [IH1 IH2]].
  - split; [constructor|]. intros ctx Hctx. by apply elem_of_nil in Hctx.
  - rewrite findTarget_cons. destruct (saysValid call ctx) eqn:Hvalid; cbn [fst snd].
    + split; [by repeat constructor|]. exists 0%nat. repeat split; try done.
      intros j ctx' Hj. lia.
    + split; [by constructor|]. destruct (findTarget call rest).1 as [target|].
      * destruct IH2 as (i & Hi & Hv & Htrace & Hbefore). exists (S i).
        split; [done|]. split; [done|]. split; [cbn; by rewrite Htrace|].
        intros [|j] ctx' Hj Hctx'; cbn in Hctx'; [congruence|].
        apply (Hbefore j); [lia|done].
      * intros ctx' Hctx'. apply elem_of_cons in Hctx' as [->|Hctx']; [done|by apply IH2].
Qed.

(** [injectMessage] once the contexts it works on are known. *)
Lemma injectMessage_none p :
  contextsAfter p (waitForContexts p 10 0) = [] →
  injectMessage p =
    (failed "no_context" (JStr "Antigravity workbench page not found."),
     replicate (waitForContexts p 10 0) (Wait 500)).
Proof. intros Hctxs. unfold injectMessage. by rewrite Hctxs. Qed.

Lemma injectMessage_at p c cs :
  contextsAfter p (waitForContexts p 10 0) = c :: cs →
  injectMessage p =
    let waits := replicate (waitForContexts p 10 0) (Wait 500) in
    let busyRun := busyLoop p (c :: cs) MAX_BUSY_WAIT 0 in
    if (MAX_BUSY_WAIT <=? busyRun.1)%nat then
      (failed "timeout_busy" (JStr "Antigravity is still busy after 10 seconds"),
       waits ++ busyRun.2)
    else
      let scan := findTarget (check p) (c :: cs) in
      match scan.1 with
      | None =>
          (failed "no_valid_context"
             (JStr "Could not find Antigravity chat UI. Make sure Antigravity is open and visible."),
           waits ++ busyRun.2 ++ scan.2)
      | Some target =>
          (classify (inject p (ctx_id target)),
           waits ++ busyRun.2 ++ scan.2 ++ [Inject (ctx_id target)])
      end.
Proof. intros Hctxs. unfold injectMessage. rewrite Hctxs. reflexivity. Qed.

Lemma busyLoop_head p c cs fuel a :
  ∃ rest, (busyLoop p (c :: cs) (S fuel) a).2 = BusyProbe (ctx_id c) :: rest.
Proof.
  rewrite busyLoop_S, busySweep_cons.
  destruct (saysBusy (busy p a) c); cbn [fst snd].
  - eexists. reflexivity.
  - destruct (busySweep (busy p a) cs).1; cbn [fst snd app]; eexists; reflexivity.
Qed.

(** X23.  [injectMessage] waits for a context in steps of 500 ms, at
    most ten times.  When contexts show up after [k] sleeps it goes on
    at once, with the busy probe of the first of them; when there is
    still none after the tenth sleep it returns [no_context] having
    made no call at all. *)
Theorem injectMessage_waits_for_contexts p k :
  (k ≤ 10)%nat →
  (∀ j, (j < k)%nat → contextsAfter p j = []) →
  match contextsAfter p k with
  | [] =>
      k = 10%nat →
      injectMessage p =
        (failed "no_context" (JStr "Antigravity workbench page not found."),
         replicate 10 (Wait 500))
  | c :: _ =>
      ∃ rest, (injectMessage p).2 = replicate k (Wait 500) ++ BusyProbe (ctx_id c) :: rest
  end.
Proof.
  intros Hk Hempty.
  destruct (contextsAfter p k) as [|c cs] eqn:Hctxs.
  - intros ->.
    assert (waitForContexts p 10 0 = 10%nat) as Hwait
      by (apply waitForContexts_stops; [lia|intros; apply Hempty; lia|by left]).
    rewrite injectMessage_none by (by rewrite Hwait). by rewrite Hwait.
  - assert (waitForContexts p 10 0 = k) as Hwait
      by (apply waitForContexts_stops; [lia|intros; apply Hempty; lia|right; by rewrite Hctxs]).
    rewrite (injectMessage_at p c cs) by (by rewrite Hwait). cbv zeta.
    destruct (busyLoop_head p c cs 19 0) as [rest Hrest]. revert Hrest.
    change (S 19) with MAX_BUSY_WAIT.
    generalize (busyLoop p (c :: cs) MAX_BUSY_WAIT 0) as r.
    generalize (findTarget (check p) (c :: cs)) as scan.
    intros scan r Hrest. rewrite Hwait.
    destruct (MAX_BUSY_WAIT <=? r.1)%nat; cbn [snd].
    + rewrite Hrest. by eexists.
    + destruct scan.1; cbn [snd]; rewrite Hrest; rewrite <- app_comm_cons; by eexists.
Qed.

(** X24.  While some context answers [true] to the busy probe,
    [injectMessage] sleeps 500 ms and asks again, twenty times at
    most.  If the editor is busy in all twenty rounds it returns
    [timeout_busy] after exactly twenty sleeps, and neither the
    validity probe nor the injection script has been sent. *)
Theorem injectMessage_busy_timeout p c cs :
  contextsAfter p 0 = c :: cs →
  (∀ k, (k < 20)%nat → existsb (saysBusy (busy p k)) (c :: cs) = true) →
  (injectMessage p).1 =
    failed "timeout_busy" (JStr "Antigravity is still busy after 10 seconds") ∧
  length (List.filter isWait (injectMessage p).2) = 20%nat ∧
  Forall (λ a, isBusyProbe a = true ∨ a = Wait 500) (injectMessage p).2.
Proof.
  intros Hctxs Hbusy.
  assert (waitForContexts p 10 0 = 0%nat) as Hwait
    by (apply waitForContexts_stops; [lia|intros; lia|right; by rewrite Hctxs]).
  rewrite (injectMessage_at p c cs) by (by rewrite Hwait). cbv zeta.
  pose proof (busyLoop_run p (c :: cs) MAX_BUSY_WAIT 0) as Hrun. cbv zeta in Hrun.
  revert Hrun. generalize (busyLoop p (c :: cs) MAX_BUSY_WAIT 0) as r.
  generalize (findTarget (check p) (c :: cs)) as scan.
  assert (MAX_BUSY_WAIT = 20%nat) as -> by reflexivity.
  intros scan r (Hbound & Hwaits & Hshape & _ & Hidle).
  rewrite Hwait. change (replicate 0 (Wait 500)) with (@nil action).
  destruct (Nat.leb_spec 20 r.1) as [Hall|Hless].
  - cbn [fst snd]. rewrite app_nil_l. split; [done|]. split; [|done]. rewrite Hwaits. lia.
  - exfalso. rewrite Hbusy in Hidle by lia. by specialize (Hidle ltac:(lia)).
Qed.

(** The shape of a run of [injectMessage]: everything before the
    injection, then at most the injection. *)
Lemma injectMessage_shape p :
  let out := injectMessage p in
  let ctxs := contextsAfter p (waitForContexts p 10 0) in
  ∃ pre, Forall (λ a, isInject a = false) pre ∧
    (out.2 = pre ∧ truthyJ (prop "ok" out.1) = false
     ∨ ∃ i target,
         out.2 = pre ++ [Inject (ctx_id target)] ∧
         out.1 = classify (inject p (ctx_id target)) ∧
         ctxs !! i = Some target ∧ saysValid (check p) target = true ∧
         ∀ j ctx, (j < i)%nat → ctxs !! j = Some ctx → saysValid (check p) ctx = false).
Proof.
  cbv zeta.
  assert (Forall (λ a, isInject a = false)
            (replicate (waitForContexts p 10 0) (Wait 500))) as Hwaits.
  { apply Forall_forall. intros a Ha. apply elem_of_replicate in Ha as [-> _]. done. }
  destruct (contextsAfter p (waitForContexts p 10 0)) as [|c cs] eqn:Hctxs.
  - rewrite injectMessage_none by done. eexists. split; [exact Hwaits|]. left. done.
  - rewrite (injectMessage_at p c cs) by done. cbv zeta.
    destruct (busyLoop_run p (c :: cs) MAX_BUSY_WAIT 0) as (_ & _ & Hshape & _ & _).
    assert (Forall (λ a, isInject a = false) (busyLoop p (c :: cs) MAX_BUSY_WAIT 0).2)
      as Hbusy.
    { eapply Forall_impl; [exact Hshape|]. intros a [Ha| ->]; [by destruct a|done]. }
    clear Hshape. revert Hbusy.
    generalize (busyLoop p (c :: cs) MAX_BUSY_WAIT 0) as r. intros r Hbusy.
    destruct (MAX_BUSY_WAIT <=? r.1)%nat.
    + eexists. split; [|left; done]. by apply Forall_app.
    + destruct (findTarget_run (check p) (c :: cs)) as [Hchecks Hscan].
      assert (Forall (λ a, isInject a = false) (findTarget (check p) (c :: cs)).2) as Hscan'.
      { eapply Forall_impl; [exact Hchecks|]. intros a Ha. by destruct a. }
      clear Hchecks. revert Hscan Hscan'.
      generalize (findTarget (check p) (c :: cs)) as scan. intros scan Hscan Hscan'.
      destruct scan.1 as [target|].
      * destruct Hscan as (i & Hi & Hvalid & _ & Hbefore). cbn [fst snd].
        exists (replicate (waitForContexts p 10 0) (Wait 500) ++ r.2 ++ scan.2).
        split; [by repeat apply Forall_app_2|]. right. exists i, target.
        split; [by rewrite <- !app_assoc|]. done.
      * cbn [fst snd]. eexists. split; [|left; done]. by repeat apply Forall_app_2.
Qed.

Lemma no_inject_in (l : list action) :
  Forall (λ a, isInject a = false) l → List.filter isInject l = [].
Proof.
  induction 1 as [|x l Hx _ IH]; [done|]. cbn. by rewrite Hx.
Qed.

(** X25.  [injectMessage] sends the injection script at most once,
    as its last call, and only to the first context whose validity
    probe reports [isValid]; what it returns is then decided by that
    one call.  When it does not send the script, the object it returns
    has [ok: false]. *)
Theorem injectMessage_injects_once p :
  let out := injectMessage p in
  let ctxs := contextsAfter p (waitForContexts p 10 0) in
  (length (List.filter isInject out.2) ≤ 1)%nat ∧
  (List.filter isInject out.2 = [] → truthyJ (prop "ok" out.1) = false) ∧
  ∀ c, Inject c ∈ out.2 →
    last out.2 = Some (Inject c) ∧
    out.1 = classify (inject p c) ∧
    ∃ i target, ctxs !! i = Some target ∧ ctx_id target = c ∧
                saysValid (check p) target = true ∧
                ∀ j ctx, (j < i)%nat → ctxs !! j = Some ctx →
                         saysValid (check p) ctx = false.
Proof.
  cbv zeta.
  destruct (injectMessage_shape p) as (pre & Hpre & Hshape). cbv zeta in Hshape.
  pose proof (no_inject_in pre Hpre) as Hnone.
  destruct Hshape as [[Htrace Hok]|(i & target & Htrace & Hout & Hi & Hvalid & Hbefore)];
    rewrite Htrace.
  - rewrite Hnone. split; [cbn; lia|]. split; [done|].
    intros c Hc. rewrite Forall_forall in Hpre. by apply Hpre in Hc.
  - rewrite List.filter_app, Hnone. cbn. split; [lia|]. split; [done|].
    intros c Hc. apply elem_of_app in Hc as [Hc|Hc].
    { rewrite Forall_forall in Hpre. by apply Hpre in Hc. }
    apply list_elem_of_singleton in Hc as [= ->].
    split; [by rewrite last_snoc|]. split; [done|]. by exists i, target.
Qed.

(** X26.  [POST /send] answers 400 when the request has neither a
    message nor files, 503 when it has but no connection is stored,
    and in both cases before anything is sent to the editor.
    Otherwise it runs [injectMessage] and answers 200 exactly when the
    object that returns has a truthy [ok], which only the injection
    script itself can give, and 500 in every other case.  The
    module-level state is not touched. *)
Theorem postSend_status message files p g :
  let empty := truthy message = false ∧ (files = None ∨ files = Some []) in
  ∃ reply trace,
    postSend message files p g = (Normal (reply, trace), g, []) ∧
    (statusOf reply = 400 ↔ empty) ∧
    (statusOf reply = 503 ↔ ¬ empty ∧ cdpConnection g = None) ∧
    (statusOf reply = 400 ∨ statusOf reply = 503 → trace = []) ∧
    (statusOf reply = 200 ↔
       ¬ empty ∧ is_Some (cdpConnection g) ∧ truthyJ (prop "ok" (injectMessage p).1) = true) ∧
    (statusOf reply = 200 → ∃ c, last trace = Some (Inject c)) ∧
    (statusOf reply = 200 ∨ statusOf reply = 500 → trace = (injectMessage p).2).
Proof.
  cbv zeta. unfold postSend.
  assert (negb (truthy message) &&
            match files with
            | Some l => bool_decide (length l = 0%nat)
            | None => true
            end = true ↔ truthy message = false ∧ (files = None ∨ files = Some [])) as Hempty.
  { rewrite andb_true_iff, negb_true_iff. split; intros [Hm Hf]; (split; [done|]).
    - destruct files as [[|x l]|]; [by right|done|by left].
    - by destruct Hf as [->| ->]. }
  destruct (negb (truthy message) && _) eqn:Hcond.
  - apply proj1 in Hempty. specialize (Hempty eq_refl).
    eexists _, _. split; [reflexivity|]. cbn [statusOf].
    repeat split; try done; try tauto; intros; try lia; try tauto.
  - assert (¬ (truthy message = false ∧ (files = None ∨ files = Some []))) as Hnot.
    { intros H. apply Hempty in H. done. }
    rewrite bind_get. destruct (cdpConnection g) as [cdp|] eqn:Hconn.
    + destruct (truthyJ (prop "ok" (injectMessage p).1)) eqn:Hok.
      * eexists _, _. split; [reflexivity|]. cbn [statusOf].
        split; [split; [lia|tauto]|]. split; [split; [lia|intros [_ ?]; done]|].
        split; [intros [?|?]; lia|]. split; [done|]. split; [|done]. intros _.
        destruct (injectMessage_shape p) as (pre & _ & Hshape). cbv zeta in Hshape.
        destruct Hshape as [[_ Hno]|(i & target & -> & _)]; [congruence|].
        exists (ctx_id target). by rewrite last_snoc.
      * eexists _, _. split; [reflexivity|]. cbn [statusOf].
        split; [split; [lia|tauto]|]. split; [split; [lia|intros [_ ?]; done]|].
        split; [intros [?|?]; lia|]. split; [split; [lia|intros (_ & _ & ?); done]|].
        split; [lia|done].
    + eexists _, _. split; [reflexivity|]. cbn [statusOf].
      split; [split; [lia|tauto]|]. split; [done|]. split; [done|].
      split; [split; [lia|intros (_ & [? ?] & _); done]|]. split; [lia|].
      intros [?|?]; lia.
Qed.

End PageFacts.

(** ** A switch that fails *)

Section SwitchMore.
Import JS Wire Server Discovery Polling Instances Routes.
Implicit Types (g : globals) (env : tick_env).

(** On the variables alone, for a handler and a tick that each run
    with no other function of the server in between: when the connect
    of a [POST /instance] fails, the server is
    left without a connection but with the id of the previous target
    still stored as active: [getCDPStatus] reports disconnected while
    [GET /instances] goes on marking the previous target.  The retry
    counter is not reset; if it leaves room, the next tick connects to
    whatever [discoverCDP] finds, not to the target that was asked
    for, and stores that one's id. *)
Theorem failed_switch_falls_back g senv targetId target e l env info cdp :
  truthy targetId = true →
  find (λ i, bool_decide (Some (i_id i) = targetId))
       (if decide (length (discoveredInstances g) = 0%nat)
        then sw_discoverAll senv else discoveredInstances g) = Some target →
  sw_connect senv (i_url target) = Abrupt e →
  cdpRetryCount g < MAX_CDP_RETRIES →
  a_discover (reconnect env 0%nat) = Normal info →
  a_connect (reconnect env 0%nat) (Discovery.url info) = Normal cdp →
  let g1 := after (postInstance targetId senv) g in
  resultOf getCDPStatus g1 = Normal (Status false 0 (cdpRetryCount g)) ∧
  resultOf (getInstances (Normal l)) g1 =
    Normal (Reply 200
              (inr (activeTargetId g,
                    (λ i, Entry (i_id i) (i_port i) (i_title i) (i_pageUrl i)
                            (bool_decide (Some (i_id i) = activeTargetId g))) <$> l))) ∧
  cdpConnection (after (pollTick env) g1) = Some cdp ∧
  activeTargetId (after (pollTick env) g1) =
    (if truthy (Some (Discovery.id info)) then Some (Discovery.id info) else None).
Proof.
  intros Hid Hfind Hconn Hroom Hd Hc. cbv zeta.
  assert (after (postInstance targetId senv) g =
          Globals None None None
            (if decide (length (discoveredInstances g) = 0%nat)
             then sw_discoverAll senv else discoveredInstances g)
            (activeTargetId g) (cdpRetryCount g) (snapshotFailCount g)) as ->.
  { unfold after. rewrite (postInstance_found g senv targetId target Hid Hfind).
    cbv zeta. by rewrite Hconn. }
  split; [unfold resultOf; by rewrite getCDPStatus_run|].
  split; [reflexivity|].
  unfold after, pollTick. rewrite tick_disconnected by done.
  cbv [mbind M_bind bind log emit ret]. unfold initCDP. rewrite bind_get'.
  cbn [cdpRetryCount].
  destruct (Z.to_nat (MAX_CDP_RETRIES - cdpRetryCount g)) as [|fuel] eqn:Hfuel; [lia|].
  rewrite initCDP_loop_S. cbn [cdpRetryCount].
  assert ((cdpRetryCount g <? MAX_CDP_RETRIES) = true) as -> by (by apply Z.ltb_lt).
  cbv [mbind M_bind bind].
  rewrite (attemptOnce_connected _ info cdp _ _ _ _ _ _ _ Hd Hc). cbv [ret].
  cbn [fst snd cdpConnection activeTargetId]. done.
Qed.

End SwitchMore.

(** ** [connectCDP], step by step *)

Section ConnectFacts.
Import JS Wire Connect.

Lemma waitLoop_run d fuel waitCount :
  let n := waitLoop d fuel waitCount in
  (waitCount ≤ n ≤ waitCount + fuel)%nat ∧
  (∀ k, (waitCount ≤ k < n)%nat → Registry.replay (received d k) = []) ∧
  ((n < waitCount + fuel)%nat → Registry.replay (received d n) ≠ []).
Proof.
  revert waitCount. induction fuel as [|fuel IH]; intros waitCount; cbv zeta.
  - cbn. split; [lia|]. split; intros; lia.
  - cbn [waitLoop]. destruct (Registry.replay (received d waitCount)) eqn:Hnow.
    + specialize (IH (S waitCount)). cbv zeta in IH. destruct IH as (Hb & Hempty & Hstop).
      split; [lia|]. split.
      * intros k Hk. destruct (decide (k = waitCount)) as [->|Hne]; [done|].
        apply Hempty. lia.
      * intros Hlt. apply Hstop. lia.
    + split; [lia|]. split; [intros; lia|]. intros _. by rewrite Hnow.
Qed.

Lemma filter_isWait_replicate n :
  List.filter isWait (replicate n (Wait 500)) = replicate n (Wait 500).
Proof. induction n as [|n IH]; [done|]. cbn. by rewrite IH. Qed.

Lemma filter_isWait_reEnable d : List.filter isWait (reEnable d) = [].
Proof. unfold reEnable. by destruct (disable d), (secondEnable d). Qed.

(** X28.  [connectCDP] fails only when the socket does not open or
    the first [Runtime.enable] is rejected, with that error and without
    any waiting; a rejected [Runtime.disable] or second
    [Runtime.enable] is swallowed.  Otherwise it sleeps 500 ms at a
    time until the registry of [Registry.onMessage] is not empty, ten
    times at most, and returns the registry as it stands then: when it
    returns an empty registry it has slept all ten times.  The
    registry counts as not empty also when all it holds is the
    [undefined] that a created-frame without [context] has pushed. *)
Theorem connectCDP_waits_for_first_context d url :
  let out := connectCDP d url in
  let waits := length (List.filter isWait out.2) in
  match handshake d, firstEnable d with
  | Some e, _ => out = (Abrupt e, [Open url])
  | None, Abrupt e => out = (Abrupt e, [Open url; Call "Runtime.enable"])
  | None, Normal _ =>
      out.1 = Normal (Registry.replay (received d waits)) ∧
      (waits ≤ 10)%nat ∧
      (∀ k, (k < waits)%nat → Registry.replay (received d k) = []) ∧
      (Registry.replay (received d waits) = [] → waits = 10%nat) ∧
      ∃ again, out.2 = [Open url; Call "Runtime.enable"] ++ again
                         ++ replicate waits (Wait 500) ∧
               (again = [Call "Runtime.disable"; Call "Runtime.enable"]
                ∨ again = [Call "Runtime.disable"] ∧ ∃ e, disable d = Abrupt e)
  end.
Proof.
  cbv zeta. unfold connectCDP.
  destruct (handshake d) as [e|]; [done|].
  destruct (firstEnable d) as [[]|e]; [|done]. cbn [fst snd].
  assert (length (List.filter isWait
            ([Open url; Call "Runtime.enable"] ++ reEnable d
               ++ replicate (waitLoop d 10 0) (Wait 500))) = waitLoop d 10 0) as ->.
  { rewrite !List.filter_app, filter_isWait_reEnable, filter_isWait_replicate.
    cbn. by rewrite length_replicate. }
  destruct (waitLoop_run d 10 0) as (Hb & Hempty & Hstop). cbv zeta in Hb, Hempty, Hstop.
  revert Hb Hempty Hstop. generalize (waitLoop d 10 0) as n. intros n Hb Hempty Hstop.
  split; [done|]. split; [lia|]. split; [intros k Hk; apply Hempty; lia|]. split.
  - intros Hnone. destruct (decide (n = 10%nat)) as [->|Hne]; [done|].
    exfalso. apply Hstop; [lia|done].
  - exists (reEnable d). split; [done|]. unfold reEnable.
    destruct (disable d) as [[]|e]; [left; by destruct (secondEnable d)|right].
    split; [done|]. by exists e.
Qed.

End ConnectFacts.

(** ** Further runs on the samples *)

Section MoreRuns.
Import JS Wire Server Discovery Polling Instances Routes Page Samples MoreSamples.


Lemma ticks_keep_snapshot_available_witness :
  ∃ snap', resultOf getSnapshot (after (pollTicks 5 [nothing; dropped]) serving)
             = Normal (Reply 200 (inr snap')).
Proof.
  destruct (ticks_keep_snapshot_available 5 [nothing; dropped] serving
              (shot "<p>hi</p>" "css") eq_refl) as (snap' & Hget & _).
  by exists snap'.
Defined.

Lemma switch_forces_rebroadcast_witness :
  let g1 := after (postInstance (Some "B1") switching) serving in
  resultOf getSnapshot g1 = Normal (Reply 503 (inl "No snapshot available yet")) ∧
  resultOf getSnapshot (after (pollTick (seen "<p>hi</p>" "css")) g1)
    = Normal (Reply 200 (inr (shot "<p>hi</p>" "css"))).
Proof.
  assert (truthy (Some "B1") = true) as Hid by reflexivity.
  destruct (switch_forces_rebroadcast serving switching (Some "B1")
              (Discovery.Instance "B1" 9001 "ws://127.0.0.1:9001/devtools/page/B1"
                 "Antigravity - b" None)
              other (seen "<p>hi</p>" "css") (shot "<p>hi</p>" "css") "<p>hi</p>"
              Hid eq_refl eq_refl eq_refl eq_refl eq_refl) as (Hgone & _ & Hback).
  split; [exact Hgone|exact Hback].
Defined.

Lemma failed_switch_falls_back_witness :
  let g1 := after (postInstance (Some "B1") refused) online in
  activeTargetId g1 = Some "A1" ∧
  cdpConnection (after (pollTick backTick) g1) = Some editor.
Proof.
  assert (truthy (Some "B1") = true) as Hid by reflexivity.
  assert (cdpRetryCount online < MAX_CDP_RETRIES) as Hroom by reflexivity.
  destruct (failed_switch_falls_back online refused (Some "B1")
              (Discovery.Instance "B1" 9001 "ws://127.0.0.1:9001/devtools/page/B1"
                 "Antigravity - b" None)
              (Error "ECONNREFUSED") known backTick found editor
              Hid eq_refl eq_refl Hroom eq_refl eq_refl) as (_ & _ & Hconn & _).
  split; [reflexivity|exact Hconn].
Defined.

Lemma click_helpers_take_first_answer_witness :
  clickActionButton clicks twoContexts = (notFoundThere, [1]).
Proof.
  assert (∀ c, c ∈ @nil context → answers (λ _, true) clicks c = false) as Hnone.
  { intros c Hc. by apply elem_of_nil in Hc. }
  destruct (click_helpers_take_first_answer clicks twoContexts [] top [panel]
              (Response (Some (Some notFoundThere)) None)
              eq_refl Hnone eq_refl eq_refl) as (Hclick & _).
  exact Hclick.
Defined.

Lemma injectMessage_waits_for_contexts_witness :
  ∃ rest, (injectMessage slow).2 = replicate 3 (Wait 500) ++ BusyProbe 1 :: rest.
Proof.
  assert (3 ≤ 10)%nat as Hk by lia.
  assert (∀ j, (j < 3)%nat → contextsAfter slow j = []) as Hempty.
  { intros [|[|[|j]]] Hj; [reflexivity|reflexivity|reflexivity|lia]. }
  exact (injectMessage_waits_for_contexts slow 3 Hk Hempty).
Defined.

Lemma injectMessage_busy_timeout_witness :
  (injectMessage stuck).1 =
    failed "timeout_busy" (JStr "Antigravity is still busy after 10 seconds").
Proof.
  assert (∀ k, (k < 20)%nat → existsb (saysBusy (busy stuck k)) [top; panel] = true)
    as Hbusy by (intros k _; reflexivity).
  destruct (injectMessage_busy_timeout stuck top [panel] eq_refl Hbusy) as (Hout & _).
  exact Hout.
Defined.

Lemma connectCDP_waits_for_first_context_witness :
  (Connect.connectCDP DialSamples.late "ws://127.0.0.1:9000/devtools/page/A1").1
    = Normal [Some (Context 1 "top" "vscode-file://vscode-app")].
Proof.
  pose proof (connectCDP_waits_for_first_context DialSamples.late
                "ws://127.0.0.1:9000/devtools/page/A1") as H.
  destruct H as (Hout & _). exact Hout.
Defined.

End MoreRuns.


(** ** The async functions of the server, interleaved *)

Section AsyncFacts.
Import JS Wire Server Discovery Polling Instances Routes Observe Async.
Implicit Types (m : machine) (g : globals) (N : Z) (i : nat) (P : gmap nat task)
  (reconnect : nat → attempt).

Lemma run_app N m evs1 evs2 : run N m (evs1 ++ evs2) = run N (run N m evs1) evs2.
Proof. apply foldl_app. Qed.

Lemma run_cons N m ev evs : run N m (ev :: evs) = run N (step N m ev) evs.
Proof. done. Qed.

Lemma run_nil N m : run N m [] = m.
Proof. done. Qed.

(** Resuming a function that has ended does nothing. *)
Lemma run_ended N m i evs :
  pending m !! i = None →
  Forall (λ ev, ∃ o, ev = Resume i o) evs →
  run N m evs = m.
Proof.
  intros Hnone Hall. induction Hall as [|ev evs [o ->] _ IH]; [done|].
  rewrite run_cons. cbn [step]. by rewrite Hnone.
Qed.

Lemma roundEvents_resume i a : Forall (λ ev, ∃ o, ev = Resume i o) (roundEvents i a).
Proof.
  unfold roundEvents. destruct (a_discover a) as [info|e].
  - destruct (a_connect a (url info)); repeat constructor; by eexists.
  - repeat constructor; by eexists.
Qed.

Lemma loopEvents_resume i reconnect k rounds :
  Forall (λ ev, ∃ o, ev = Resume i o) (loopEvents i reconnect k rounds).
Proof.
  revert k. induction rounds as [|rounds IH]; intros k; [constructor|].
  cbn [loopEvents]. apply Forall_app. split; [apply roundEvents_resume | apply IH].
Qed.

Lemma step_resume N g P n out ans st i t o seg :
  P !! i = Some t →
  resume N t o = Some seg →
  step N (Machine g P n out ans st) (Resume i o) = land i seg (Machine g P n out ans st).
Proof. intros Ht Hseg. cbn [step pending]. by rewrite Ht, Hseg. Qed.

Lemma land_suspend i seg g P n out ans st t g' w :
  seg g = (Normal (Suspend t), g', w) →
  land i seg (Machine g P n out ans st) = Machine g' (<[i := t]> P) n (out ++ w) ans st.
Proof. intros Hseg. unfold land. cbn [vars]. by rewrite Hseg. Qed.

Lemma land_return i seg g P n out ans st g' w :
  seg g = (Normal Return, g', w) →
  land i seg (Machine g P n out ans st) =
    Machine g' (delete i P) n (out ++ w) ans (ended i st).
Proof. intros Hseg. unfold land. cbn [vars]. by rewrite Hseg. Qed.


(** The [while] test. *)
Lemma initHead_going g :
  cdpRetryCount g < MAX_CDP_RETRIES →
  initHead g = (Normal (Suspend AwaitDiscover), g, [Console Discovering]).
Proof.
  intros Hlt. unfold initHead. rewrite bind_get.
  by assert ((cdpRetryCount g <? MAX_CDP_RETRIES) = true) as -> by (apply Z.ltb_lt; lia).
Qed.

Lemma initHead_over g :
  MAX_CDP_RETRIES ≤ cdpRetryCount g →
  initHead g = (Normal Return, g, [Console GaveUp]).
Proof.
  intros Hge. unfold initHead. rewrite bind_get.
  by assert ((cdpRetryCount g <? MAX_CDP_RETRIES) = false) as -> by (apply Z.ltb_ge; lia).
Qed.

(** An [initCDP] that runs alone: from its [while] test on, function
    [i] goes through the rounds of [initCDP_loop] and leaves what the
    loop leaves. *)
Lemma loop_alone N i fuel reconnect k g P n out ans st :
  (budget g ≤ fuel)%nat →
  run N (land i initHead (Machine g P n out ans st)) (loopEvents i reconnect k fuel) =
    Machine (after (initCDP_loop fuel reconnect k) g) (delete i P) n
      (out ++ effectsOf (initCDP_loop fuel reconnect k) g) ans (ended i st).
Proof.
  revert k g P out. induction fuel as [|fuel IH]; intros k g P out Hfuel.
  - assert (MAX_CDP_RETRIES ≤ cdpRetryCount g) as Hge by (unfold budget in Hfuel; lia).
    rewrite (land_return _ _ _ _ _ _ _ _ _ _ (initHead_over g Hge)).
    cbn [loopEvents run foldl initCDP_loop]. unfold after, effectsOf.
    rewrite bind_get.
    by assert ((cdpRetryCount g <? MAX_CDP_RETRIES) = false) as -> by (apply Z.ltb_ge; lia).
  - destruct (Z_lt_le_dec (cdpRetryCount g) MAX_CDP_RETRIES) as [Hlt|Hge].
    + rewrite (land_suspend _ _ _ _ _ _ _ _ _ _ _ (initHead_going g Hlt)).
      cbn [loopEvents initCDP_loop]. rewrite run_app. unfold after, effectsOf.
      rewrite bind_get.
      assert ((cdpRetryCount g <? MAX_CDP_RETRIES) = true) as -> by (apply Z.ltb_lt; lia).
      destruct g as [conn0 ls lh di at' rc fc]. cbn [cdpRetryCount] in *.
      assert (budget (Globals conn0 ls lh di at' (rc + 1) fc) ≤ fuel)%nat as Hrest
        by (unfold budget in *; cbn [cdpRetryCount] in *; lia).
      unfold roundEvents, attemptOnce, connectCDP.
      destruct (a_discover (reconnect k)) as [info|e]; run_M.
      * rewrite run_cons.
        erewrite step_resume; [|apply lookup_insert_eq|done].
        erewrite land_suspend; [|unfold initDiscovered; run_M; reflexivity].
        rewrite insert_insert_eq.
        destruct (a_connect (reconnect k) (url info)) as [cdp|e]; run_M.
        -- rewrite run_cons.
           erewrite step_resume; [|apply lookup_insert_eq|done].
           erewrite land_suspend; [|unfold initConnected; run_M; reflexivity].
           rewrite insert_insert_eq.
           rewrite run_cons.
           erewrite step_resume; [|apply lookup_insert_eq|done].
           destruct (a_discoverAll (reconnect k)) as [l|e];
             (erewrite land_return; [|unfold initListed; run_M; reflexivity]);
             rewrite delete_insert_eq; rewrite run_nil;
             (rewrite (run_ended N _ i);
                [|cbn [pending]; apply lookup_delete_eq|apply loopEvents_resume]);
             run_M; by rewrite <- ?app_assoc.
        -- rewrite run_cons.
           erewrite step_resume; [|apply lookup_insert_eq|done].
           erewrite land_suspend; [|unfold initConnected, initCatch; run_M; reflexivity].
           rewrite insert_insert_eq.
           rewrite run_cons, run_nil.
           erewrite step_resume; [|apply lookup_insert_eq|done].
           rewrite (IH (S k) _ _ _ Hrest).
           rewrite delete_insert_eq. unfold after, effectsOf.
           destruct (initCDP_loop fuel reconnect (S k) _) as [[r g2] w2].
           cbn [fst snd app]. by rewrite <- ?app_assoc.
      * rewrite run_cons.
        erewrite step_resume; [|apply lookup_insert_eq|done].
        erewrite land_suspend; [|unfold initDiscovered, initCatch; run_M; reflexivity].
        rewrite insert_insert_eq.
        rewrite run_cons, run_nil.
        erewrite step_resume; [|apply lookup_insert_eq|done].
        rewrite (IH (S k) _ _ _ Hrest).
        rewrite delete_insert_eq. unfold after, effectsOf.
        destruct (initCDP_loop fuel reconnect (S k) _) as [[r g2] w2].
        cbn [fst snd app]. by rewrite <- ?app_assoc.
    + rewrite (land_return _ _ _ _ _ _ _ _ _ _ (initHead_over g Hge)).
      rewrite (run_ended N _ i);
        [|cbn [pending]; apply lookup_delete_eq|apply loopEvents_resume].
      cbn [initCDP_loop]. unfold after, effectsOf. rewrite bind_get.
      by assert ((cdpRetryCount g <? MAX_CDP_RETRIES) = false) as -> by (apply Z.ltb_ge; lia).
Qed.


(** *** The numbering *)

Lemma tidy_start : tidy start.
Proof. split; [intros j _; apply lookup_empty | done]. Qed.

Lemma ended_other i st : (∀ j, st = Booting j → j ≠ i) → ended i st = st.
Proof.
  intros Hst. destruct st as [|j|]; [done| |done].
  cbn [ended]. destruct (decide (j = i)) as [->|]; [|done]. by destruct (Hst i).
Qed.

Lemma tidy_land i seg g P n out ans st :
  (i < n)%nat →
  tidy (Machine g P n out ans st) →
  tidy (land i seg (Machine g P n out ans st)).
Proof.
  intros Hi [Hpend Hstage]. cbn [nextId pending stage] in *.
  assert (∀ t j, (n ≤ j)%nat → <[i := t]> P !! j = None) as Hins
    by (intros t j Hj; rewrite lookup_insert_ne by lia; by apply Hpend).
  assert (∀ j, (n ≤ j)%nat → delete i P !! j = None) as Hdel
    by (intros j Hj; rewrite lookup_delete_ne by lia; by apply Hpend).
  assert (∀ j, ended i st = Booting j → (j < n)%nat) as Hend.
  { intros j. destruct st as [|j'|]; cbn [ended]; [done| |done].
    destruct (decide (j' = i)); [done|]. apply Hstage. }
  unfold land. cbn [vars pending nextId output answers stage].
  destruct (seg g) as [[[[t| |r]|e] g'] w]; split; cbn [nextId pending stage]; auto.
Qed.

Lemma tidy_spawn seg st m :
  (∀ j, st = Booting j → (j ≤ nextId m)%nat) →
  tidy m → tidy (spawn seg st m).
Proof.
  intros Hst [Hpend Hstage]. destruct m as [g P n out ans st0].
  unfold spawn. cbn [nextId pending stage vars output answers] in *.
  apply tidy_land; [lia|]. split; cbn [nextId pending stage].
  - intros j Hj. apply Hpend. lia.
  - intros j Hj. specialize (Hst j Hj). lia.
Qed.

Lemma tidy_step N m ev : tidy m → tidy (step N m ev).
Proof.
  intros Htidy. destruct ev as [| |targetId closeThrows|discovered|i o]; cbn [step].
  - destruct (stage m) eqn:Hst; [|done..].
    apply tidy_spawn; [|done]. intros j [= ->]. lia.
  - destruct (stage m) eqn:Hst; [done..|]. by apply tidy_spawn.
  - apply tidy_spawn; [|done]. intros j Hj. destruct Htidy as [_ Hstage].
    specialize (Hstage j Hj). lia.
  - by destruct (Routes.getInstances discovered (vars m)) as [[r g] w].
  - destruct (pending m !! i) as [t|] eqn:Hi; [|done].
    destruct (resume N t o) as [seg|]; [|done].
    destruct m as [g P n out ans st]. apply tidy_land; [|done].
    destruct Htidy as [Hpend _]. cbn [nextId pending] in *.
    destruct (decide (i < n)%nat) as [|Hge]; [done|].
    rewrite Hpend in Hi by lia. done.
Qed.

Lemma tidy_run N m evs : tidy m → tidy (run N m evs).
Proof.
  revert m. induction evs as [|ev evs IH]; intros m Htidy; [done|].
  rewrite run_cons. by apply IH, tidy_step.
Qed.

(** *** A tick that runs alone *)

Lemma land_ext i seg seg' g P n out ans st :
  seg g = seg' g →
  land i seg (Machine g P n out ans st) = land i seg' (Machine g P n out ans st).
Proof. intros Heq. unfold land. cbn [vars]. by rewrite Heq. Qed.

Lemma land_log i l seg g P n out ans st :
  land i (log l;; seg) (Machine g P n out ans st) =
  land i seg (Machine g P n (out ++ [Console l]) ans st).
Proof.
  unfold land. cbn [vars pending nextId output answers stage]. run_M.
  destruct (seg g) as [[[[t| |r]|e] g'] w]; by rewrite <- app_assoc.
Qed.

Lemma tickCaptured_run N env g cdp :
  cdpConnection g = Some cdp →
  tickCaptured N (capture env) (clients env) (now env) g =
    (Normal Return, after (pollTickWith N env) g, effectsOf (pollTickWith N env) g).
Proof.
  intros Hconn. destruct (pollTick_never_throws N env g) as (g' & w & Hrun).
  unfold after, effectsOf. rewrite Hrun. cbn [fst snd].
  unfold pollTickWith in Hrun. rewrite bind_get, Hconn in Hrun.
  unfold tickCaptured.
  change (pollBody N (TickEnv _ _ _ _)) with (pollBody N env).
  cbv [mbind M_bind bind]. rewrite Hrun. cbv [ret mret M_ret]. by rewrite app_nil_r.
Qed.

Lemma tick_alone N m env :
  stage m = Polling →
  tidy m →
  run N m (tickEvents m env) =
    Machine (after (pollTickWith N env) (vars m)) (pending m) (S (nextId m))
      (output m ++ effectsOf (pollTickWith N env) (vars m)) (answers m) Polling.
Proof.
  intros Hstage [Hpend _]. destruct m as [g P n out ans st].
  cbn [stage vars pending nextId output answers] in *. subst st.
  unfold tickEvents. cbn [vars nextId]. rewrite run_cons.
  cbn [step stage]. unfold spawn. cbn [vars pending nextId output answers].
  assert (delete n P = P) as Hdel by (apply delete_id, Hpend; lia).
  destruct (cdpConnection g) as [cdp|] eqn:Hconn.
  - erewrite land_suspend;
      [|unfold tickStart; rewrite bind_get, Hconn; reflexivity].
    rewrite run_cons, run_nil.
    erewrite step_resume; [|apply lookup_insert_eq|done].
    erewrite land_return; [|by apply (tickCaptured_run N env g cdp)].
    by rewrite delete_insert_eq, Hdel, app_nil_r.
  - rewrite (land_ext _ tickStart (log NoConnection;; initHead))
      by (unfold tickStart; by rewrite bind_get, Hconn).
    rewrite land_log, (loop_alone N n (budget g)) by done.
    rewrite Hdel. cbn [ended].
    unfold after, effectsOf. rewrite (tick_disconnected N env g Hconn).
    destruct (initCDP_loop_normal (budget g) (reconnect env) 0%nat g)
      as (b & g' & w & Hloop).
    assert (initCDP (reconnect env) g = (Normal b, g', w)) as Hinit
      by (unfold initCDP; rewrite bind_get; exact Hloop).
    cbv [mbind M_bind bind log emit ret mret M_ret]. rewrite Hinit, Hloop.
    cbn [fst snd]. by rewrite app_nil_r, <- app_assoc.
Qed.

(** Ticks that run one after the other do what [pollTicks] does. *)
Lemma serial_ticks N envs m :
  stage m = Polling →
  tidy m →
  run N m (serialTicks N m envs) =
    Machine (after (pollTicks N envs) (vars m)) (pending m) (nextId m + length envs)
      (output m ++ effectsOf (pollTicks N envs) (vars m)) (answers m) Polling.
Proof.
  revert m. induction envs as [|env envs IH]; intros m Hstage Htidy.
  - destruct m as [g P n out ans st]. cbn in *. subst st.
    by rewrite app_nil_r, Nat.add_0_r.
  - cbn [serialTicks]. rewrite run_app.
    rewrite (tick_alone N m env Hstage Htidy).
    rewrite IH; [|done|].
    + cbn [vars pending nextId output answers length].
      destruct (pollTick_never_throws N env (vars m)) as (g1 & w1 & Htick).
      unfold after, effectsOf.
      rewrite (pollTicks_cons _ _ _ _ _ _ Htick), Htick. cbn [fst snd].
      destruct (pollTicks N envs g1) as [[r g2] w2]. cbn [fst snd].
      by rewrite app_assoc, Nat.add_succ_r.
    + destruct Htidy as [Hpend _]. split; cbn [nextId pending stage]; [|done].
      intros j Hj. apply Hpend. lia.
Qed.


(** *** A switch that runs alone *)

Lemma step_ended N g P n out ans st i o :
  P !! i = None →
  step N (Machine g P n out ans st) (Resume i o) = Machine g P n out ans st.
Proof. intros Hnone. cbn [step pending]. by rewrite Hnone. Qed.

Ltac crank :=
  cbv [step spawn land resume postStart switchListed switchTo switchConnected switchFailed
       closeSocket postInstance connectCDP after effectsOf resultOf negb
       vars pending nextId output answers stage]; run_M.

Lemma switch_alone N m targetId env :
  tidy m →
  ∃ r, resultOf (postInstance targetId env) (vars m) = Normal r ∧
       run N m (switchEvents m targetId env) =
         Machine (after (postInstance targetId env) (vars m)) (pending m) (S (nextId m))
           (output m ++ effectsOf (postInstance targetId env) (vars m))
           (answers m ++ [(nextId m, r)]) (stage m).
Proof.
  intros [Hpend Hstage]. destruct m as [g P n out ans st].
  cbn [stage vars pending nextId output answers] in *.
  assert (delete n P = P) as Hdel by (apply delete_id, Hpend; lia).
  assert (ended n st = st) as Hend
    by (apply ended_other; intros j Hj; specialize (Hstage j Hj); lia).
  unfold switchEvents. cbn [vars nextId]. rewrite !run_cons, run_nil.
  destruct g as [conn0 ls lh di at' rc fc]. cbn [discoveredInstances].
  set (wanted := λ x : instance, bool_decide (Some (i_id x) = targetId)).
  destruct (truthy targetId) eqn:Htr; crank; rewrite Htr; crank.
  - destruct (decide (length di = 0%nat)) as [Hemp|Hne] eqn:Hdec; crank; fold wanted.
    + rewrite lookup_insert_eq. crank. fold wanted.
      destruct (find wanted (sw_discoverAll env)) as [target|] eqn:Hfind.
      * destruct conn0 as [cdp0|]; [destruct (sw_close env) as [e0|]|]; crank;
          rewrite lookup_insert_eq; crank;
          destruct (sw_connect env (i_url target)) as [cdp|e] eqn:Hconn; crank;
          rewrite ?delete_insert_eq, ?Hdel, ?Hend, ?app_nil_r, <- ?app_assoc;
          by eexists.
      * crank. rewrite lookup_delete_eq.
        rewrite ?delete_insert_eq, ?Hdel, ?Hend, ?app_nil_r, <- ?app_assoc.
        by eexists.
    + destruct (find wanted di) as [target|] eqn:Hfind.
      * destruct conn0 as [cdp0|]; [destruct (sw_close env) as [e0|]|]; crank;
          rewrite lookup_insert_eq; crank; rewrite lookup_insert_eq; crank;
          destruct (sw_connect env (i_url target)) as [cdp|e] eqn:Hconn; crank;
          rewrite ?delete_insert_eq, ?Hdel, ?Hend, ?app_nil_r, <- ?app_assoc;
          by eexists.
      * crank. rewrite !lookup_delete_eq.
        rewrite ?delete_insert_eq, ?Hdel, ?Hend, ?app_nil_r, <- ?app_assoc.
        by eexists.
  - rewrite !lookup_delete_eq.
    rewrite ?delete_insert_eq, ?Hdel, ?Hend, ?app_nil_r, <- ?app_assoc.
    by eexists.
Qed.

(** *** What one event does to the variables *)

Lemma land_vars i seg m : vars (land i seg m) = after seg (vars m).
Proof. unfold land, after. by destruct (seg (vars m)) as [[[[t| |r]|e] g] w]. Qed.

Lemma land_output i seg m : output (land i seg m) = output m ++ effectsOf seg (vars m).
Proof. unfold land, effectsOf. by destruct (seg (vars m)) as [[[[t| |r]|e] g] w]. Qed.

(** An event is ignored, or runs one piece of code on the variables:
    the start of a function, the continuation of a suspended one, or
    the continuation of a [GET /instances]. *)
Lemma step_inv N m ev :
  (vars (step N m ev) = vars m ∧ output (step N m ev) = output m ∧ lands m ev = false) ∨
  (∃ seg : M next,
     vars (step N m ev) = after seg (vars m) ∧
     output (step N m ev) = output m ++ effectsOf seg (vars m) ∧
     ((ev = Boot ∧ seg = initHead) ∨ (ev = Fire ∧ seg = tickStart) ∨
      (∃ targetId closeThrows, ev = Post targetId closeThrows ∧
                               seg = postStart targetId closeThrows) ∨
      (∃ i o t, ev = Resume i o ∧ pending m !! i = Some t ∧ resume N t o = Some seg))) ∨
  (∃ discovered,
     ev = Listing discovered ∧
     vars (step N m ev) = after (Routes.getInstances discovered) (vars m) ∧
     output (step N m ev) = output m ++ effectsOf (Routes.getInstances discovered) (vars m)).
Proof.
  destruct ev as [| |targetId closeThrows|discovered|i o]; cbn [step lands].
  - destruct (stage m); [|by left..]. right; left. exists initHead.
    unfold spawn. rewrite land_vars, land_output. cbn [vars output]. eauto 10.
  - destruct (stage m); [by left..|]. right; left. exists tickStart.
    unfold spawn. rewrite land_vars, land_output. cbn [vars output]. eauto 10.
  - right; left. exists (postStart targetId closeThrows).
    unfold spawn. rewrite land_vars, land_output. cbn [vars output].
    split; [done|]. split; [done|]. right; right; left. by eexists _, _.
  - right; right. exists discovered. unfold after, effectsOf.
    by destruct (Routes.getInstances discovered (vars m)) as [[r g] w].
  - destruct (pending m !! i) as [t|] eqn:Hi; [|left; by destruct o].
    destruct (resume N t o) as [seg|] eqn:Hseg.
    + right; left. exists seg. rewrite land_vars, land_output.
      split; [done|]. split; [done|]. right; right; right. by exists i, o, t.
    + left. destruct o, t; done.
Qed.

Lemma emitted_app m m' w : output m' = output m ++ w → emitted m m' = w.
Proof. intros Hout. unfold emitted. by rewrite Hout, drop_app_length. Qed.


Lemma emitted_to m g P n w ans st :
  emitted m (Machine g P n (output m ++ w) ans st) = w.
Proof. by apply emitted_app. Qed.

Lemma output_step N m ev : ∃ w, output (step N m ev) = output m ++ w.
Proof.
  destruct (step_inv N m ev) as [(_ & -> & _)|[(seg & _ & -> & _)|(d & _ & _ & ->)]];
    [exists []; by rewrite app_nil_r|by eexists..].
Qed.

Lemma output_run N m evs : ∃ w, output (run N m evs) = output m ++ w.
Proof.
  revert m. induction evs as [|ev evs IH]; intros m.
  - exists []. by rewrite app_nil_r.
  - rewrite run_cons. destruct (IH (step N m ev)) as [w2 ->].
    destruct (output_step N m ev) as [w1 ->]. exists (w1 ++ w2). by rewrite app_assoc.
Qed.

Lemma emitted_cons N m ev evs :
  emitted m (run N m (ev :: evs)) =
    emitted m (step N m ev) ++ emitted (step N m ev) (run N (step N m ev) evs).
Proof.
  rewrite run_cons. destruct (output_step N m ev) as [w1 H1].
  destruct (output_run N (step N m ev) evs) as [w2 H2].
  rewrite (emitted_app _ _ _ H1), (emitted_app _ _ _ H2).
  apply emitted_app. by rewrite H2, H1, app_assoc.
Qed.


(** *** Captures that end in any order *)

Lemma tickCaptured_failed N r cs ts conn ls lh di at' rc fc :
  captureFailed r = true →
  tickCaptured N (Normal r) cs ts (Globals conn ls lh di at' rc fc) =
    if N <=? fc + 1
    then (Normal Return, Globals None ls lh di at' rc 0,
          [Console (failureLine r (fc + 1)); Console TooManyFailures])
    else (Normal Return, Globals conn ls lh di at' rc (fc + 1),
          [Console (failureLine r (fc + 1))]).
Proof.
  intros Hfail. unfold tickCaptured, pollBody. cbn [capture clients now]. run_tick.
  destruct r as [snap|]; simpl in Hfail.
  - rewrite Hfail. run_tick. by destruct (N <=? fc + 1).
  - run_tick. by destruct (N <=? fc + 1).
Qed.

Lemma tickCaptured_succeeded N snap h cs ts conn ls lh di at' rc fc :
  truthy (error snap) = false → html snap = Some h → 0 < N →
  tickCaptured N (Normal (Some snap)) cs ts (Globals conn ls lh di at' rc fc) =
    if decide (Some (hashString h) ≠ lh)
    then (Normal Return, Globals conn (Some snap) (Some (hashString h)) di at' rc 0,
          notices cs ts ++ [Console (SnapshotUpdated (hashString h))])
    else (Normal Return, Globals conn ls lh di at' rc 0, []).
Proof.
  intros Herr Hhtml HN. unfold tickCaptured, pollBody. cbn [capture clients now].
  run_tick. rewrite Herr, Hhtml.
  assert ((N <=? 0) = false) as HN0 by (apply Z.leb_gt; lia).
  run_tick. destruct (decide (Some (hashString h) ≠ lh)).
  - rewrite broadcast_run. rewrite HN0. by rewrite !app_nil_r.
  - rewrite HN0. done.
Qed.

Lemma teardownsIn_notices cs ts : teardownsIn (notices cs ts) = 0%nat.
Proof.
  unfold notices, teardownsIn.
  by induction (filter (λ c, readyState c = OPEN) cs) as [|c l IH].
Qed.

Lemma initHead_run g :
  ∃ w, after initHead g = g ∧ effectsOf initHead g = w ∧ teardownsIn w = 0%nat ∧
       sendsIn w = [].
Proof.
  unfold after, effectsOf, initHead. rewrite bind_get.
  destruct (cdpRetryCount g <? MAX_CDP_RETRIES); by eexists.
Qed.

Lemma initCatch_run conn ls lh di at' rc fc :
  initCatch (Globals conn ls lh di at' rc fc) =
    (Normal (Suspend AwaitSleep), Globals conn ls lh di at' (rc + 1) fc,
     [Console (NotReady (rc + 1)); Sleep 5000]).
Proof. reflexivity. Qed.

(** An event with which no reconnect and no switch goes on, and which
    carries no capture but an unsuccessful one: if it lets a capture
    end, the counter goes up by one and, at the threshold, the
    connection is dropped, the teardown logged and the counter reset;
    if not, connection and counter stay and no teardown is logged. *)
Lemma quiet_step N m ev :
  quiet ev = true → unsuccessful ev = true →
  let m' := step N m ev in
  if lands m ev then
    if N <=? snapshotFailCount (vars m) + 1
    then cdpConnection (vars m') = None ∧ snapshotFailCount (vars m') = 0 ∧
         teardownsIn (emitted m m') = 1%nat
    else cdpConnection (vars m') = cdpConnection (vars m) ∧
         snapshotFailCount (vars m') = snapshotFailCount (vars m) + 1 ∧
         teardownsIn (emitted m m') = 0%nat
  else cdpConnection (vars m') = cdpConnection (vars m) ∧
       snapshotFailCount (vars m') = snapshotFailCount (vars m) ∧
       teardownsIn (emitted m m') = 0%nat.
Proof.
  intros Hquiet Hun. cbv zeta.
  destruct (step_inv N m ev)
    as [(Hv & Hout & ->)|[(seg & Hv & Hout & Hseg)|(d & -> & Hv & Hout)]].
  - rewrite Hv. rewrite (emitted_app m _ []) by (by rewrite Hout, app_nil_r). done.
  - rewrite Hv, (emitted_app _ _ _ Hout). clear Hv Hout.
    destruct Hseg as [[-> ->]|[[-> ->]|[(tid & ct & -> & ->)|(i & o & t & -> & Hi & Hres)]]].
    + cbn [lands]. destruct (initHead_run (vars m)) as (w & -> & -> & -> & _). done.
    + cbn [lands]. destruct m as [g P n out ans st]. cbn [vars].
      destruct g as [conn ls lh di at' rc fc].
      unfold tickStart, initHead, after, effectsOf. run_M.
      destruct conn as [cdp|]; [done|]. run_M.
      by destruct (rc <? MAX_CDP_RETRIES).
    + done.
    + cbn [lands]. rewrite Hi. destruct m as [g P n out ans st]. cbn [vars pending] in *.
      destruct g as [conn ls lh di at' rc fc].
      cbn [cdpConnection snapshotFailCount].
      destruct t as [| |info| | |tid ct|tgt], o as [c cs ts|c|c|c|]; try done;
        cbn [resume] in Hres; injection Hres as <-.
      * destruct c as [r|e]; [|done]. cbn [unsuccessful] in Hun.
        unfold after, effectsOf. rewrite (tickCaptured_failed N r _ _ _ _ _ _ _ _ _ Hun).
        destruct (N <=? fc + 1); cbn [fst snd cdpConnection snapshotFailCount];
          destruct (failureLine_quiet r (fc + 1) [Console TooManyFailures]) as [Ha _];
          destruct (failureLine_quiet r (fc + 1) []) as [Hb _]; by rewrite ?Ha, ?Hb.
      * by destruct c.
      * destruct c as [cdp|e]; done.
      * destruct (initHead_run (Globals conn ls lh di at' rc fc)) as (w & -> & -> & -> & _).
        done.
      * destruct c as [cdp|e]; done.
  - cbn [lands]. rewrite Hv, (emitted_app _ _ _ Hout).
    destruct m as [g P n out ans st]. cbn [vars].
    destruct g as [conn ls lh di at' rc fc]. by destruct d.
Qed.


(** Unsuccessful captures that end in any order, while no reconnect and
    no switch goes on: the counter counts them modulo the threshold,
    and every time it reaches the threshold the connection is dropped
    and one teardown is logged. *)
Lemma quiet_failures N evs m :
  0 < N →
  0 ≤ snapshotFailCount (vars m) < N →
  Forall (λ ev, quiet ev = true ∧ unsuccessful ev = true) evs →
  let m' := run N m evs in
  let total := snapshotFailCount (vars m) + Z.of_nat (landed N m evs) in
  snapshotFailCount (vars m') = total `mod` N ∧
  teardownsIn (emitted m m') = Z.to_nat (total `div` N) ∧
  (total < N → cdpConnection (vars m') = cdpConnection (vars m)) ∧
  (N ≤ total → cdpConnection (vars m') = None).
Proof.
  intros HN Hfc Hall. revert m Hfc.
  induction Hall as [|ev evs [Hq Hu] _ IH]; intros m Hfc; cbv zeta.
  - cbn [landed run foldl]. rewrite Z.add_0_r, Z.mod_small, Z.div_small by lia.
    rewrite (emitted_app m m []) by (by rewrite app_nil_r).
    split; [done|]. split; [done|]. split; [done|]. intros; lia.
  - rewrite emitted_cons, teardownsIn_app, run_cons. cbn [landed].
    pose proof (quiet_step N m ev Hq Hu) as Hstep. cbv zeta in Hstep.
    set (m1 := step N m ev) in *.
    set (k := landed N m1 evs).
    assert (∀ fc1, snapshotFailCount (vars m1) = fc1 → 0 ≤ fc1 < N →
              snapshotFailCount (vars (run N m1 evs)) = (fc1 + Z.of_nat k) `mod` N ∧
              teardownsIn (emitted m1 (run N m1 evs)) = Z.to_nat ((fc1 + Z.of_nat k) `div` N) ∧
              (fc1 + Z.of_nat k < N →
                 cdpConnection (vars (run N m1 evs)) = cdpConnection (vars m1)) ∧
              (N ≤ fc1 + Z.of_nat k → cdpConnection (vars (run N m1 evs)) = None)) as Hrest.
    { intros fc1 Hfc1 Hrange. specialize (IH m1). rewrite Hfc1 in IH. by apply IH. }
    clearbody k. destruct (lands m ev).
    + destruct (N <=? snapshotFailCount (vars m) + 1) eqn:Hleb.
      * apply Z.leb_le in Hleb. destruct Hstep as (Hconn & Hfc1 & Htd).
        destruct (Hrest 0 Hfc1) as (Hc & Ht & Hkeep & Hdrop); [lia|].
        assert (snapshotFailCount (vars m) + Z.of_nat (1 + k) = 0 + Z.of_nat k + 1 * N)
          as -> by lia.
        rewrite Z_mod_plus_full, Z_div_plus_full by lia.
        rewrite Hc, Htd, Ht. split; [done|]. split.
        { pose proof (Z.div_pos (0 + Z.of_nat k) N). lia. }
        split; [lia|]. intros _.
        destruct (Z_lt_le_dec (0 + Z.of_nat k) N) as [Hlt|Hge].
        -- by rewrite Hkeep.
        -- by apply Hdrop.
      * apply Z.leb_gt in Hleb. destruct Hstep as (Hconn & Hfc1 & Htd).
        destruct (Hrest _ Hfc1) as (Hc & Ht & Hkeep & Hdrop); [lia|].
        assert (snapshotFailCount (vars m) + Z.of_nat (1 + k) =
                snapshotFailCount (vars m) + 1 + Z.of_nat k) as -> by lia.
        rewrite Hc, Htd, Ht. split; [done|]. split; [done|].
        split; [intros Hlt; by rewrite Hkeep, Hconn|done].
    + destruct Hstep as (Hconn & Hfc1 & Htd).
      destruct (Hrest _ Hfc1) as (Hc & Ht & Hkeep & Hdrop); [lia|].
      assert (snapshotFailCount (vars m) + Z.of_nat (0 + k) =
              snapshotFailCount (vars m) + Z.of_nat k) as -> by lia.
      rewrite Hc, Htd, Ht. split; [done|]. split; [done|].
      split; [intros Hlt; by rewrite Hkeep, Hconn|done].
Qed.


Lemma emitted_run_app N m evs1 evs2 :
  emitted m (run N m (evs1 ++ evs2)) =
    emitted m (run N m evs1) ++ emitted (run N m evs1) (run N (run N m evs1) evs2).
Proof.
  rewrite run_app. destruct (output_run N m evs1) as [w1 H1].
  destruct (output_run N (run N m evs1) evs2) as [w2 H2].
  rewrite (emitted_app _ _ _ H1), (emitted_app _ _ _ H2).
  apply emitted_app. by rewrite H2, H1, app_assoc.
Qed.

Lemma storable_inv i snap cs ts :
  storable (Resume i (GotSnapshot (Normal (Some snap)) cs ts)) = true →
  truthy (error snap) = false ∧ ∃ h, html snap = Some h.
Proof.
  cbn [storable]. intros [Herr Hhtml]%andb_true_iff.
  apply negb_true_iff in Herr. by apply bool_decide_eq_true in Hhtml as [h Hh]; eauto.
Qed.

(** A capture that ends: what the machine does is what
    [tickCaptured] does to the variables. *)
Lemma capture_ends N m i c cs ts :
  pending m !! i = Some AwaitCapture →
  let m' := step N m (Resume i (GotSnapshot c cs ts)) in
  vars m' = after (tickCaptured N c cs ts) (vars m) ∧
  emitted m m' = effectsOf (tickCaptured N c cs ts) (vars m).
Proof.
  intros Hi. cbv zeta. cbn [step]. rewrite Hi. cbn [resume].
  rewrite land_vars. split; [done|]. apply emitted_app, land_output.
Qed.

(** A capture that ends successfully resets the counter, leaves the
    connection and logs no teardown. *)
Lemma capture_succeeds N m i snap cs ts :
  0 < N →
  pending m !! i = Some AwaitCapture →
  storable (Resume i (GotSnapshot (Normal (Some snap)) cs ts)) = true →
  let m' := step N m (Resume i (GotSnapshot (Normal (Some snap)) cs ts)) in
  cdpConnection (vars m') = cdpConnection (vars m) ∧
  snapshotFailCount (vars m') = 0 ∧
  teardownsIn (emitted m m') = 0%nat.
Proof.
  intros HN Hi (Herr & h & Hhtml)%storable_inv. cbv zeta.
  destruct (capture_ends N m i (Normal (Some snap)) cs ts Hi) as [-> ->].
  destruct (vars m) as [conn ls lh di at' rc fc]. unfold after, effectsOf.
  rewrite (tickCaptured_succeeded N snap h cs ts conn ls lh di at' rc fc Herr Hhtml HN).
  destruct (decide (Some (hashString h) ≠ lh)); cbn [fst snd cdpConnection snapshotFailCount];
    [|done].
  by rewrite teardownsIn_app, teardownsIn_notices.
Qed.

(** Without a connection the interval callback captures nothing: it
    logs that and calls [initCDP]. *)
Lemma fire_disconnected N m :
  stage m = Polling →
  cdpConnection (vars m) = None →
  step N m Fire = spawn (log NoConnection;; initHead) Polling m.
Proof.
  intros Hstage Hconn. cbn [step]. rewrite Hstage. unfold spawn.
  destruct m as [g P n out ans st]. cbn [vars pending nextId output answers] in *.
  apply land_ext. unfold tickStart. by rewrite bind_get, Hconn.
Qed.

(** C2.  With threshold [N], in whatever order the functions of the
    server take their turns: a capture that ends unsuccessfully (null,
    or a payload with a truthy [error]) raises the counter by one and,
    at the threshold, drops the connection, logs the teardown once and
    resets the counter; a capture that ends successfully resets the
    counter and tears nothing down.  Hence, from counter zero and while
    no reconnect and no switch goes on, fewer than [N] unsuccessful
    captures in a row tear nothing down, and [N] of them tear down
    exactly once, after which the interval callback calls [initCDP]
    instead of capturing; and fewer than [N] unsuccessful captures, a
    successful one and fewer than [N] unsuccessful ones again tear
    nothing down. *)
Theorem failed_captures_tear_down N m :
  0 < N →
  (∀ i r cs ts,
     pending m !! i = Some AwaitCapture → captureFailed r = true →
     let m' := step N m (Resume i (GotSnapshot (Normal r) cs ts)) in
     if N <=? snapshotFailCount (vars m) + 1
     then cdpConnection (vars m') = None ∧ snapshotFailCount (vars m') = 0 ∧
          teardownsIn (emitted m m') = 1%nat
     else cdpConnection (vars m') = cdpConnection (vars m) ∧
          snapshotFailCount (vars m') = snapshotFailCount (vars m) + 1 ∧
          teardownsIn (emitted m m') = 0%nat) ∧
  (∀ i snap cs ts,
     pending m !! i = Some AwaitCapture →
     storable (Resume i (GotSnapshot (Normal (Some snap)) cs ts)) = true →
     let m' := step N m (Resume i (GotSnapshot (Normal (Some snap)) cs ts)) in
     cdpConnection (vars m') = cdpConnection (vars m) ∧
     snapshotFailCount (vars m') = 0 ∧
     teardownsIn (emitted m m') = 0%nat) ∧
  (snapshotFailCount (vars m) = 0 →
   ∀ evs, Forall (λ ev, quiet ev = true ∧ unsuccessful ev = true) evs →
     let m' := run N m evs in
     let k := Z.of_nat (landed N m evs) in
     (k < N →
        cdpConnection (vars m') = cdpConnection (vars m) ∧
        snapshotFailCount (vars m') = k ∧ teardownsIn (emitted m m') = 0%nat) ∧
     (k = N →
        cdpConnection (vars m') = None ∧ snapshotFailCount (vars m') = 0 ∧
        teardownsIn (emitted m m') = 1%nat ∧
        (stage m' = Polling →
           step N m' Fire = spawn (log NoConnection;; initHead) Polling m'))) ∧
  (snapshotFailCount (vars m) = 0 →
   ∀ evs1 i snap cs ts evs2,
     let ok := Resume i (GotSnapshot (Normal (Some snap)) cs ts) in
     Forall (λ ev, quiet ev = true ∧ unsuccessful ev = true) evs1 →
     pending (run N m evs1) !! i = Some AwaitCapture → storable ok = true →
     Forall (λ ev, quiet ev = true ∧ unsuccessful ev = true) evs2 →
     Z.of_nat (landed N m evs1) < N →
     Z.of_nat (landed N (run N m (evs1 ++ [ok])) evs2) < N →
     let m' := run N m (evs1 ++ ok :: evs2) in
     cdpConnection (vars m') = cdpConnection (vars m) ∧
     teardownsIn (emitted m m') = 0%nat).
Proof.
  intros HN. split; [|split; [|split]].
  - intros i r cs ts Hi Hr.
    pose proof (quiet_step N m (Resume i (GotSnapshot (Normal r) cs ts))) as Hstep.
    cbn [quiet unsuccessful lands] in Hstep. rewrite Hi in Hstep. by apply Hstep.
  - intros i snap cs ts Hi Hok. by apply capture_succeeds.
  - intros Hfc evs Hall. cbv zeta.
    destruct (quiet_failures N evs m HN) as (Hc & Htd & Hkeep & Hdrop); [lia|done|].
    rewrite Hfc, Z.add_0_l in Hc, Htd, Hkeep, Hdrop. split.
    + intros Hlt. rewrite Hc, Htd, Hkeep by done.
      rewrite Z.mod_small, Z.div_small by lia. done.
    + intros Heq. rewrite Hc, Htd, Hdrop by lia.
      rewrite Heq, Z_mod_same_full, Z_div_same_full by lia.
      repeat split; try done. intros Hstage. apply fire_disconnected; [done|].
      apply Hdrop. lia.
  - intros Hfc evs1 i snap cs ts evs2. cbv zeta. intros Hall1 Hi Hok Hall2 Hlt1 Hlt2.
    change (evs1 ++ Resume i (GotSnapshot (Normal (Some snap)) cs ts) :: evs2)
      with (evs1 ++ [Resume i (GotSnapshot (Normal (Some snap)) cs ts)] ++ evs2).
    rewrite app_assoc, emitted_run_app, (emitted_run_app N m evs1).
    rewrite run_app in Hlt2 |- *. rewrite (run_app N m evs1).
    destruct (quiet_failures N evs1 m HN) as (_ & Htd1 & Hkeep1 & _); [lia|done|].
    rewrite Hfc, Z.add_0_l in Htd1, Hkeep1.
    rewrite Z.div_small in Htd1 by lia.
    set (m1 := run N m evs1) in *.
    destruct (capture_succeeds N m1 i snap cs ts HN Hi Hok) as (Hconn2 & Hfc2 & Htd2).
    cbn [run foldl] in Hlt2 |- *.
    set (m2 := step N m1 (Resume i (GotSnapshot (Normal (Some snap)) cs ts))) in *.
    destruct (quiet_failures N evs2 m2 HN) as (_ & Htd3 & Hkeep3 & _); [lia|done|].
    rewrite Hfc2, Z.add_0_l in Htd3, Hkeep3.
    rewrite Z.div_small in Htd3 by lia.
    rewrite !teardownsIn_app, Htd1, Htd2, Htd3.
    split; [|done]. rewrite Hkeep3, Hconn2, Hkeep1 by lia. done.
Qed.


(** *** [POST /instance] among the other functions *)

Lemma switchTo_found targetId closeThrows target conn ls lh di at' rc fc :
  find (λ x : instance, bool_decide (Some (i_id x) = targetId)) di = Some target →
  switchTo targetId closeThrows (Globals conn ls lh di at' rc fc) =
    (Normal (Suspend (SwitchConnect target)), Globals None None None di at' rc fc,
     match conn with
     | Some old => [WsClose (ws old)]
     | None => []
     end ++ [Console (Switching (i_title target)); WsOpen (i_url target)]).
Proof.
  intros Hfind. unfold switchTo, closeSocket. run_M. rewrite Hfind.
  destruct conn as [old|]; [destruct closeThrows|]; reflexivity.
Qed.

(** A [POST /instance] that finds its target in the stored list waits
    for its connect with payload and fingerprint dropped. *)
Lemma switch_session_start N m targetId closeThrows target :
  truthy targetId = true →
  length (discoveredInstances (vars m)) ≠ 0%nat →
  find (λ x : instance, bool_decide (Some (i_id x) = targetId))
       (discoveredInstances (vars m)) = Some target →
  lastSnapshot (vars (step N m (Post targetId closeThrows))) = None ∧
  lastSnapshotHash (vars (step N m (Post targetId closeThrows))) = None.
Proof.
  intros Hid Hne Hfind. cbn [step]. unfold spawn. rewrite land_vars. cbn [vars].
  destruct (vars m) as [conn ls lh di at' rc fc]. cbn [discoveredInstances] in *.
  unfold after, postStart. rewrite Hid. cbn [negb]. rewrite bind_get.
  cbn [discoveredInstances]. rewrite decide_False by done.
  by rewrite (switchTo_found targetId closeThrows target conn ls lh di at' rc fc Hfind).
Qed.



(** *** [initCDP] running alone *)

Lemma init_alone N m reconnect st :
  tidy m →
  run N (spawn initHead st m) (loopEvents (nextId m) reconnect 0 (budget (vars m))) =
    Machine (after (initCDP reconnect) (vars m)) (pending m) (S (nextId m))
      (output m ++ effectsOf (initCDP reconnect) (vars m)) (answers m)
      (ended (nextId m) st).
Proof.
  intros [Hpend _]. destruct m as [g P n out ans st0]. unfold spawn.
  cbn [vars pending nextId output answers stage] in *.
  rewrite loop_alone by done. rewrite delete_id by (apply Hpend; lia).
  unfold after, effectsOf, initCDP. by rewrite bind_get.
Qed.

Lemma boot_alone N m reconnect :
  stage m = Idle →
  tidy m →
  run N m (Boot :: loopEvents (nextId m) reconnect 0 (budget (vars m))) =
    Machine (after (initCDP reconnect) (vars m)) (pending m) (S (nextId m))
      (output m ++ effectsOf (initCDP reconnect) (vars m)) (answers m) Polling.
Proof.
  intros Hstage Htidy. rewrite run_cons. cbn [step]. rewrite Hstage.
  rewrite init_alone by done. cbn [ended]. by rewrite decide_True.
Qed.

(** X1.  The [initCDP] that [main] calls, while no other function of
    the server takes a turn: when every round that fits in the retry
    budget fails, it ends after exactly [MAX_CDP_RETRIES -
    cdpRetryCount] rounds, one sleep each; it leaves the retry counter
    at [MAX_CDP_RETRIES] and everything else (connection slot, payload,
    failure counter) as it was, and polling starts. *)
Theorem initCDP_alone_gives_up N m reconnect :
  stage m = Idle →
  tidy m →
  cdpRetryCount (vars m) ≤ MAX_CDP_RETRIES →
  (∀ j, Z.of_nat j < MAX_CDP_RETRIES - cdpRetryCount (vars m) →
        roundFails (reconnect j) = true) →
  let m' := run N m (Boot :: loopEvents (nextId m) reconnect 0 (budget (vars m))) in
  vars m' = set_cdpRetryCount MAX_CDP_RETRIES (vars m) ∧
  sleepsIn (emitted m m') = Z.to_nat (MAX_CDP_RETRIES - cdpRetryCount (vars m)) ∧
  (length (opensIn (emitted m m')) ≤
     Z.to_nat (MAX_CDP_RETRIES - cdpRetryCount (vars m)))%nat ∧
  pending m' = pending m ∧ stage m' = Polling.
Proof.
  intros Hstage Htidy Hle Hfail. cbv zeta. rewrite boot_alone by done.
  rewrite emitted_to. cbn [vars pending stage].
  destruct (initCDP_gives_up reconnect (vars m) Hle Hfail) as (w & Hrun & Hsleeps & Hopens).
  unfold after, effectsOf. rewrite Hrun. done.
Qed.

(** X2.  The [initCDP] that [main] calls, while no other function of
    the server takes a turn: when round [k] is the first whose
    discovery and connect succeed, and it still fits in the retry
    budget, it ends after [k] sleeps with that round's connection
    stored and both counters at zero; the payload and fingerprint
    stored before are kept, and polling starts. *)
Theorem initCDP_alone_connects N m reconnect k info cdp :
  stage m = Idle →
  tidy m →
  (∀ j, (j < k)%nat → roundFails (reconnect j) = true) →
  a_discover (reconnect k) = Normal info →
  a_connect (reconnect k) (Discovery.url info) = Normal cdp →
  cdpRetryCount (vars m) + Z.of_nat k < MAX_CDP_RETRIES →
  let m' := run N m (Boot :: loopEvents (nextId m) reconnect 0 (budget (vars m))) in
  cdpConnection (vars m') = Some cdp ∧
  cdpRetryCount (vars m') = 0 ∧ snapshotFailCount (vars m') = 0 ∧
  lastSnapshot (vars m') = lastSnapshot (vars m) ∧
  lastSnapshotHash (vars m') = lastSnapshotHash (vars m) ∧
  sleepsIn (emitted m m') = k ∧
  pending m' = pending m ∧ stage m' = Polling.
Proof.
  intros Hstage Htidy Hfail Hd Hc Hbudget. cbv zeta. rewrite boot_alone by done.
  rewrite emitted_to. cbn [vars pending stage].
  destruct (initCDP_connects reconnect (vars m) k info cdp Hfail Hd Hc Hbudget)
    as (g' & w & Hrun & H1 & H2 & H3 & H4 & H5 & H6).
  unfold after, effectsOf. rewrite Hrun. done.
Qed.


(** *** The store after a switch *)

Lemma tickCaptured_threw N e cs ts conn ls lh di at' rc fc :
  tickCaptured N (Abrupt e) cs ts (Globals conn ls lh di at' rc fc) =
    if isSocketError e
    then (Normal Return, Globals None ls lh di at' rc (fc + 1),
          [Console (PollError (message e)); Console SocketDisconnected])
    else (Normal Return, Globals conn ls lh di at' rc (fc + 1),
          [Console (PollError (message e))]).
Proof.
  unfold tickCaptured, pollBody. cbn [capture clients now]. run_tick.
  by destruct (isSocketError e).
Qed.

Lemma tickCaptured_without_html N snap cs ts conn ls lh di at' rc fc :
  truthy (error snap) = false → html snap = None →
  tickCaptured N (Normal (Some snap)) cs ts (Globals conn ls lh di at' rc fc) =
    (Normal Return, Globals conn ls lh di at' rc 1,
     [Console (PollError (Some "Cannot read properties of undefined (reading 'length')"))]).
Proof.
  intros Herr Hhtml. unfold tickCaptured, pollBody. cbn [capture clients now].
  run_tick. rewrite Herr, Hhtml. run_tick.
  change (isSocketError (Error "Cannot read properties of undefined (reading 'length')"))
    with false.
  reflexivity.
Qed.

(** Only a capture that can be stored fills the store or is announced
    to the clients. *)
Lemma cleared_step N m ev :
  lastSnapshot (vars m) = None → lastSnapshotHash (vars m) = None →
  storable ev = false →
  let m' := step N m ev in
  lastSnapshot (vars m') = None ∧ lastSnapshotHash (vars m') = None ∧
  sendsIn (emitted m m') = [].
Proof.
  intros Hls Hlh Hno. cbv zeta.
  destruct (step_inv N m ev)
    as [(Hv & Hout & _)|[(seg & Hv & Hout & Hseg)|(d & -> & Hv & Hout)]].
  - rewrite Hv. rewrite (emitted_app m _ []) by (by rewrite Hout, app_nil_r). done.
  - rewrite Hv, (emitted_app _ _ _ Hout). clear Hv Hout.
    destruct m as [g P n out ans st]. cbn [vars pending] in *.
    destruct g as [conn ls lh di at' rc fc]. cbn [lastSnapshot lastSnapshotHash] in *.
    subst ls lh.
    destruct Hseg as [[-> ->]|[[-> ->]|[(tid & ct & -> & ->)|(i & o & t & -> & Hi & Hres)]]].
    + destruct (initHead_run (Globals conn None None di at' rc fc)) as (w & -> & -> & _ & ->).
      done.
    + unfold tickStart, initHead, after, effectsOf. run_M.
      destruct conn as [cdp|]; [done|]. run_M. by destruct (rc <? MAX_CDP_RETRIES).
    + unfold postStart, switchTo, closeSocket, after, effectsOf.
      destruct (truthy tid); cbn [negb]; [|done]. run_M.
      destruct (decide (length di = 0%nat)); [done|].
      destruct (find _ di); [|done].
      destruct conn as [cdp|]; [destruct ct|]; done.
    + destruct t as [| |info| | |tid ct|tgt], o as [c cs ts|c|c|c|]; try done;
        cbn [resume] in Hres; injection Hres as <-; unfold after, effectsOf.
      * destruct c as [[snap|]|e].
        -- destruct (truthy (error snap)) eqn:Herr.
           ++ rewrite (tickCaptured_failed N (Some snap)) by done.
              by destruct (N <=? fc + 1).
           ++ cbn [storable] in Hno. rewrite Herr in Hno. cbn [negb andb] in Hno.
              apply bool_decide_eq_false in Hno.
              destruct (html snap) as [h|] eqn:Hhtml; [by destruct Hno|].
              by rewrite tickCaptured_without_html.
        -- rewrite (tickCaptured_failed N None) by done. by destruct (N <=? fc + 1).
        -- rewrite tickCaptured_threw. by destruct (isSocketError e).
      * by destruct c.
      * by destruct c.
      * by destruct c.
      * unfold initHead. run_M. by destruct (rc <? MAX_CDP_RETRIES).
      * destruct c as [l|e]; [|done]. unfold switchListed, switchTo, closeSocket.
        run_M. destruct (find _ l); [|done].
        destruct conn as [cdp|]; [destruct ct|]; done.
      * by destruct c.
  - rewrite Hv, (emitted_app _ _ _ Hout).
    destruct m as [g P n out ans st]. cbn [vars] in *.
    destruct g as [conn ls lh di at' rc fc]. cbn [lastSnapshot lastSnapshotHash] in *.
    by destruct d.
Qed.

Lemma cleared_run N evs m :
  lastSnapshot (vars m) = None → lastSnapshotHash (vars m) = None →
  Forall (λ ev, storable ev = false) evs →
  let m' := run N m evs in
  lastSnapshot (vars m') = None ∧ lastSnapshotHash (vars m') = None ∧
  sendsIn (emitted m m') = [].
Proof.
  intros Hls Hlh Hall. revert m Hls Hlh.
  induction Hall as [|ev evs Hno _ IH]; intros m Hls Hlh; cbv zeta.
  - rewrite run_nil, (emitted_app m m []) by (by rewrite app_nil_r). done.
  - rewrite emitted_cons, sendsIn_app, run_cons.
    destruct (cleared_step N m ev Hls Hlh Hno) as (Hls1 & Hlh1 & ->).
    destruct (IH _ Hls1 Hlh1) as (Hls2 & Hlh2 & ->). done.
Qed.

(** X16.  A switch empties the store.  From the moment a
    [POST /instance] that found its target waits for its connect, and
    in whatever order the functions of the server take their turns
    from then on: as long as no capture ends that can be stored,
    [GET /snapshot] answers 503 and nothing is announced; the first
    capture that ends with a payload that can be stored, be it one
    begun before the switch, is stored and announced to every open
    client, also when its [html] is the one that was stored before the
    switch. *)
Theorem switch_clears_until_next_capture N m targetId closeThrows target evs i snap h cs ts :
  0 < N →
  truthy targetId = true →
  length (discoveredInstances (vars m)) ≠ 0%nat →
  find (λ x : instance, bool_decide (Some (i_id x) = targetId))
       (discoveredInstances (vars m)) = Some target →
  Forall (λ ev, storable ev = false) evs →
  let m0 := step N m (Post targetId closeThrows) in
  let m1 := run N m0 evs in
  let m2 := step N m1 (Resume i (GotSnapshot (Normal (Some snap)) cs ts)) in
  pending m1 !! i = Some AwaitCapture →
  truthy (error snap) = false → html snap = Some h →
  resultOf getSnapshot (vars m1) = Normal (Reply 503 (inl "No snapshot available yet")) ∧
  sendsIn (emitted m0 m1) = [] ∧
  sendsIn (emitted m1 m2) = notices cs ts ∧
  resultOf getSnapshot (vars m2) = Normal (Reply 200 (inr snap)).
Proof.
  intros HN Hid Hne Hfind Hall. cbv zeta. intros Hi Herr Hhtml.
  destruct (switch_session_start N m targetId closeThrows target Hid Hne Hfind)
    as (Hls0 & Hlh0).
  destruct (cleared_run N evs _ Hls0 Hlh0 Hall) as (Hls1 & Hlh1 & Hsends).
  split; [|split; [done|]].
  - unfold resultOf, getSnapshot. rewrite bind_get. by rewrite Hls1.
  - destruct (capture_ends N _ i (Normal (Some snap)) cs ts Hi) as [-> ->].
    destruct (vars (run N (step N m (Post targetId closeThrows)) evs))
      as [conn ls lh di at' rc fc].
    cbn [lastSnapshot lastSnapshotHash] in *. subst ls lh.
    unfold after, effectsOf.
    rewrite (tickCaptured_succeeded N snap h cs ts conn None None di at' rc fc Herr Hhtml HN).
    rewrite decide_True by done. cbn [fst snd]. split; [|reflexivity].
    rewrite sendsIn_app, sendsIn_notices. cbn. by rewrite app_nil_r.
Qed.


(** X27.  A [POST /instance] whose connect fails, and the tick after
    it, while no other function of the server takes a turn during
    either: the server is left without a connection but with the id of
    the previous target still stored as active, so that [getCDPStatus]
    reports disconnected while [GET /instances] goes on marking the
    previous target.  The retry counter is not reset; if it leaves
    room, the tick connects to whatever [discoverCDP] finds, not to the
    target that was asked for, and stores that one's id. *)
Theorem failed_switch_alone_falls_back m senv targetId target e l env info cdp :
  stage m = Polling →
  tidy m →
  truthy targetId = true →
  find (λ x : instance, bool_decide (Some (i_id x) = targetId))
       (if decide (length (discoveredInstances (vars m)) = 0%nat)
        then sw_discoverAll senv else discoveredInstances (vars m)) = Some target →
  sw_connect senv (i_url target) = Abrupt e →
  cdpRetryCount (vars m) < MAX_CDP_RETRIES →
  a_discover (reconnect env 0%nat) = Normal info →
  a_connect (reconnect env 0%nat) (Discovery.url info) = Normal cdp →
  let m1 := run MAX_SNAPSHOT_FAILS m (switchEvents m targetId senv) in
  let m2 := run MAX_SNAPSHOT_FAILS m1 (tickEvents m1 env) in
  resultOf getCDPStatus (vars m1) = Normal (Status false 0 (cdpRetryCount (vars m))) ∧
  resultOf (getInstances (Normal l)) (vars m1) =
    Normal (Reply 200
              (inr (activeTargetId (vars m),
                    (λ x, Entry (i_id x) (i_port x) (i_title x) (i_pageUrl x)
                            (bool_decide (Some (i_id x) = activeTargetId (vars m)))) <$> l))) ∧
  cdpConnection (vars m2) = Some cdp ∧
  activeTargetId (vars m2) =
    (if truthy (Some (Discovery.id info)) then Some (Discovery.id info) else None).
Proof.
  intros Hstage Htidy Hid Hfind Hconn Hroom Hd Hc. cbv zeta.
  pose proof (tidy_run MAX_SNAPSHOT_FAILS m (switchEvents m targetId senv) Htidy) as Htidy1.
  destruct (switch_alone MAX_SNAPSHOT_FAILS m targetId senv Htidy) as (r & _ & Hm1).
  rewrite Hm1 in Htidy1 |- *.
  rewrite tick_alone by done. cbn [vars].
  exact (failed_switch_falls_back (vars m) senv targetId target e l env info cdp
           Hid Hfind Hconn Hroom Hd Hc).
Qed.

End AsyncFacts.

(** ** Runs of the interleaved functions *)

Section AsyncRuns.
Import JS Wire Server Discovery Polling Instances Routes Observe Async.
Import Samples MoreSamples AsyncSamples.

(** Two ticks have each called [initCDP] during an outage.  The loop
    of the second has connected; the loop of the first connects in the
    middle of a run of unsuccessful captures and resets the counter.
    Eight captures in a row end with [null], none succeeds, and
    nothing is torn down. *)
Lemma stale_reconnect_hides_failures :
  let m1 := run 5 start outage in
  let m2 := run 5 m1 staleLoop in
  cdpConnection (vars m1) = Some editor ∧ snapshotFailCount (vars m1) = 0 ∧
  capturesIn staleLoop = replicate 8 (Normal None) ∧
  landed 5 m1 staleLoop = 8%nat ∧
  teardownsIn (emitted m1 m2) = 0%nat ∧
  cdpConnection (vars m2) = Some editor ∧ snapshotFailCount (vars m2) = 4.
Proof. vm_compute. repeat split. Qed.

(** The run before it did tear down once, after its five captures. *)
Example outage_tears_down_once : teardownsIn (output (run 5 start outage)) = 1%nat.
Proof. by vm_compute. Qed.

Lemma failed_captures_tear_down_witness :
  let m' := run 5 connected overlapping in
  cdpConnection (vars m') = None ∧ snapshotFailCount (vars m') = 0 ∧
  teardownsIn (emitted connected m') = 1%nat.
Proof.
  intros m'.
  assert (0 < 5) as HN by lia.
  assert (Forall (λ ev, quiet ev = true ∧ unsuccessful ev = true) overlapping) as Hall
    by (repeat constructor).
  destruct (failed_captures_tear_down 5 connected HN) as (_ & _ & Hruns & _).
  destruct (Hruns eq_refl overlapping Hall) as [_ Hreach].
  destruct (Hreach eq_refl) as (H1 & H2 & H3 & _).
  split; [exact H1|]. split; [exact H2|exact H3].
Defined.


(** A capture begun on the old target that ends while the switch waits
    for its connect is stored: at the 200 answer the store holds a
    payload of the old target. *)
Example switch_store_refilled_by_old_capture :
  let m := run 5 capturing [Post (Some "B1") None; sameCapture 2;
                            Resume 3 (GotConnection (Normal other))] in
  answers m = [(3%nat, Response 200 (SuccessBody (Some "B1") "Antigravity - b"))] ∧
  lastSnapshot (vars m) = Some (shot "<p>hi</p>" "css").
Proof. vm_compute. repeat split. Qed.

(** A connect that fails late: the [initCDP] of a tick has connected
    meanwhile, and the 500 answer leaves that connection stored. *)
Example failed_switch_leaves_connection :
  let m := run 5 connected
             ([Post (Some "B1") None; Fire] ++ connects 2 ++
              [Resume 1 (GotConnection (Abrupt (Error "ECONNREFUSED")))]) in
  answers m = [(1%nat, Response 500 (ErrorBody (Some "ECONNREFUSED")))] ∧
  cdpConnection (vars m) = Some editor.
Proof. vm_compute. repeat split. Qed.



Lemma initCDP_alone_gives_up_witness :
  let m' := run 5 start (Boot :: loopEvents (nextId start) unreachable 0
                                   (budget (vars start))) in
  vars m' = exhausted ∧ sleepsIn (emitted start m') = 60%nat ∧ stage m' = Polling.
Proof.
  intros m'.
  assert (cdpRetryCount (vars start) ≤ MAX_CDP_RETRIES) as Hle by (vm_compute; discriminate).
  destruct (initCDP_alone_gives_up 5 start unreachable eq_refl tidy_start Hle
              (λ j _, eq_refl)) as (Hvars & Hsleeps & _ & _ & Hstage).
  split; [exact Hvars|]. split; [exact Hsleeps|exact Hstage].
Defined.

Lemma initCDP_alone_connects_witness :
  let m' := run 5 start (Boot :: loopEvents (nextId start) thirdRound 0
                                   (budget (vars start))) in
  cdpConnection (vars m') = Some editor ∧ sleepsIn (emitted start m') = 2%nat ∧
  stage m' = Polling.
Proof.
  intros m'.
  assert (∀ j, (j < 2)%nat → roundFails (thirdRound j) = true) as Hfail.
  { intros [|[|j]] Hj; [reflexivity|reflexivity|lia]. }
  assert (cdpRetryCount (vars start) + Z.of_nat 2 < MAX_CDP_RETRIES) as Hlt
    by (vm_compute; reflexivity).
  destruct (initCDP_alone_connects 5 start thirdRound 2 found editor
              eq_refl tidy_start Hfail eq_refl eq_refl Hlt)
    as (Hconn & _ & _ & _ & _ & Hsleeps & _ & Hstage).
  split; [exact Hconn|]. split; [exact Hsleeps|exact Hstage].
Defined.

Lemma switch_clears_until_next_capture_witness :
  let m0 := step 5 capturing (Post (Some "B1") None) in
  let m1 := run 5 m0 meanwhile in
  let m2 := step 5 m1 (sameCapture 2) in
  resultOf getSnapshot (vars m1) = Normal (Reply 503 (inl "No snapshot available yet")) ∧
  sendsIn (emitted m1 m2) =
    [ClientSend 7 (Notification "snapshot_update" "2026-01-01T00:00:09.000Z")] ∧
  resultOf getSnapshot (vars m2) = Normal (Reply 200 (inr (shot "<p>hi</p>" "css"))).
Proof.
  intros m0 m1 m2.
  assert (0 < 5) as HN by lia.
  assert (truthy (Some "B1") = true) as Hid by reflexivity.
  assert (length (discoveredInstances (vars capturing)) ≠ 0%nat) as Hne
    by (vm_compute; discriminate).
  assert (Forall (λ ev, storable ev = false) meanwhile) as Hall by (repeat constructor).
  destruct (switch_clears_until_next_capture 5 capturing (Some "B1") None second meanwhile
              2 (shot "<p>hi</p>" "css") "<p>hi</p>"
              [Polling.Client 7 1; Polling.Client 8 3] "2026-01-01T00:00:09.000Z"
              HN Hid Hne eq_refl Hall eq_refl eq_refl eq_refl)
    as (Hgone & _ & Hsent & Hback).
  split; [exact Hgone|]. split; [exact Hsent|exact Hback].
Defined.

Lemma failed_switch_alone_falls_back_witness :
  let m1 := run MAX_SNAPSHOT_FAILS connected (switchEvents connected (Some "B1") refused) in
  let m2 := run MAX_SNAPSHOT_FAILS m1 (tickEvents m1 backTick) in
  resultOf getCDPStatus (vars m1) = Normal (Status false 0 0) ∧
  cdpConnection (vars m2) = Some editor ∧
  activeTargetId (vars m2) = Some "A1".
Proof.
  intros m1 m2.
  assert (truthy (Some "B1") = true) as Hid by reflexivity.
  assert (tidy connected) as Htidy by (apply tidy_run, tidy_start).
  assert (cdpRetryCount (vars connected) < MAX_CDP_RETRIES) as Hroom by reflexivity.
  destruct (failed_switch_alone_falls_back connected refused (Some "B1") second
              (Error "ECONNREFUSED") known backTick found editor
              eq_refl Htidy Hid eq_refl eq_refl Hroom eq_refl eq_refl)
    as (Hstatus & _ & Hconn & Hid').
  split; [exact Hstatus|]. split; [exact Hconn|exact Hid'].
Defined.

End AsyncRuns.
